(** * Database lifecycle monitor: monitoring loop, backup executor, audit store

    A shallow embedding of
      - [src/migrations/20250224001000_add_system_status.sql]
        (table [system_status], [log_system_event], trigger [count_errors]),
      - the backup script ([cleanOldBackups], [backupDatabase]),
      - [src/scripts/monitor-database.ts] ([DatabaseMonitor]),
    followed by the properties of the specification that concern them.

    Conventions of the embedding.
      - Times are milliseconds since the epoch, in [Z].
      - A row count is a JavaScript number that holds a non-negative
        integer, given as that integer ([N]); the arithmetic of the
        comparison [count < previousCount - previousCount * 0.1] is IEEE
        754 binary64, rounding to nearest, ties to even ([Js]).  A count
        below [2^53] is held exactly and is printed in a message as its
        decimal digits; what is stated of the text of a message is
        stated of such counts.
      - A thrown JavaScript value is [JsError message] when it is an
        [Error] instance and [JsOther] otherwise.
      - The backup directory is a finite map from file names to their
        [stat]; [path.join(BACKUP_DIR, file)] is represented by [file].
      - The table [system_status] is the list of its rows in insertion
        order.  An insert made through the client is answered with an
        error or not, as the environment tells; the callers do not look at
        the answer, and a rejected insert adds no row.
      - What the outside world answers during one run (RPC results, row
        counts, the outcome of the dump pipeline, the clock) is an explicit
        argument. *)

From stdpp Require Import gmap strings list fin_maps pretty.
From Stdlib Require Import Ascii.
From Stdlib Require SpecFloat.

Open Scope Z_scope.

(** ** JavaScript helpers *)

Inductive JsThrown :=
| JsError (message : string)
| JsOther.

Global Instance JsThrown_eq_dec : EqDecision JsThrown.
Proof. solve_decision. Defined.

(** [s.endsWith(suffix)] *)
Definition endsWith (s suffix : string) : bool :=
  String.prefix (String.rev suffix) (String.rev s).

(** [files.slice(start)] for an integer [start]: a negative [start] counts
    from the end of the array. *)
Definition slice {A} (start : Z) (l : list A) : list A :=
  let len := Z.of_nat (length l) in
  let k := if start <? 0 then Z.max (len + start) 0 else Z.min start len in
  drop (Z.to_nat k) l.

(** [arr.sort(cmp)]: the sort of the engine is stable; [before a b] stands
    for [cmp(a, b) < 0].  Insertion keeps an element in front of the
    elements it does not have to follow. *)
Fixpoint sort_insert {A} (before : A → A → bool) (x : A) (l : list A) : list A :=
  match l with
  | [] => [x]
  | y :: l' => if before y x then y :: sort_insert before x l' else x :: l
  end.

Definition sort {A} (before : A → A → bool) (l : list A) : list A :=
  foldr (sort_insert before) [] l.

(** ** JavaScript numbers

    A [number] is an IEEE 754 binary64 value.  The operations are those
    of the specification of floating-point arithmetic of the Standard
    Library at precision 53 and maximal exponent 1024 (rounding to
    nearest, ties to even). *)

Module Js.

Definition prec : Z := 53.
Definition emax : Z := 1024.

Definition number : Type := SpecFloat.spec_float.

(** The number that holds a non-negative integer (the nearest one, for
    an integer that no number holds). *)
Definition of_N (n : N) : number :=
  SpecFloat.binary_normalize prec emax (Z.of_N n) 0 false.

(** The literal [0.1]: 7205759403792794 * 2^-56. *)
Definition tenth : number := SpecFloat.S754_finite false 7205759403792794 (-56).

Definition mul (x y : number) : number := SpecFloat.SFmul prec emax x y.
Definition sub (x y : number) : number := SpecFloat.SFsub prec emax x y.
Definition div (x y : number) : number := SpecFloat.SFdiv prec emax x y.
Definition lt (x y : number) : bool := SpecFloat.SFltb x y.

(** [normal lo hi x v]: [x] is a positive number with a mantissa of 53
    digits and an exponent between [lo] and [hi], and [v] is its value
    in units of [2^-128]. *)
Definition normal (lo hi : Z) (x : number) (v : Z) : Prop :=
  ∃ m e, x = SpecFloat.S754_finite false m e
         ∧ 2 ^ 52 ≤ Z.pos m ∧ Z.pos m < 2 ^ 53
         ∧ lo ≤ e ∧ e ≤ hi
         ∧ v = Z.pos m * 2 ^ (e + 128).

End Js.

(** ** The monitor's [SystemState] (interface of monitor-database.ts) *)

Inductive Health := healthy | warning | error.

Global Instance Health_eq_dec : EqDecision Health.
Proof. solve_decision. Defined.

Record SystemState := {
  status : Health;
  lastCheck : Z;
  tables : gmap string N;
  lastBackup : option Z;
  warnings : list string;
  errors : list string
}.

(** ** The audit store: table [system_status] and its trigger *)

Module Db.

Inductive system_status_type := initialized | reset | backup | restore | error.

Global Instance system_status_type_eq_dec : EqDecision system_status_type.
Proof. solve_decision. Defined.

(** The [jsonb] values the scripts store. *)
Inductive jsonb :=
| J_empty                                       (* '{}'::jsonb *)
| J_state (state : SystemState)                 (* last_known_state: state *)
| J_incident (state : SystemState) (timestamp : Z)
    (* { message: 'Unexpected data loss detected', state, timestamp } *)
| J_backup_file (backup_file : string)          (* jsonb_build_object('backup_file', ..) *)
| J_text (s : string).

Record Row := {
  status : system_status_type;
  last_known_state : jsonb;
  last_reset_time : option Z;
  last_backup_time : option Z;
  last_restore_time : option Z;
  error_count : Z;
  last_error : option jsonb;
  created_at : Z;
  updated_at : Z
}.

Definition set_error_count (n : Z) (r : Row) : Row :=
  {| status := status r; last_known_state := last_known_state r;
     last_reset_time := last_reset_time r; last_backup_time := last_backup_time r;
     last_restore_time := last_restore_time r; error_count := n;
     last_error := last_error r; created_at := created_at r;
     updated_at := updated_at r |}.

(** [increment_error_count()], the row trigger [count_errors]
    (BEFORE INSERT OR UPDATE).  [OLD] is the row being replaced by an
    UPDATE; an INSERT has none, [OLD.error_count] is then NULL and
    [COALESCE] turns it into 0. *)
Definition increment_error_count (OLD : option Row) (NEW : Row) : Row :=
  if decide (status NEW = error)
  then set_error_count (default 0 (error_count <$> OLD) + 1) NEW
  else NEW.

(** [INSERT INTO system_status ...]: the BEFORE INSERT trigger rewrites the
    new row, which is then added; no stored row is touched. *)
Definition insert (NEW : Row) (system_status : list Row) : list Row :=
  system_status ++ [increment_error_count None NEW].

(** The row an INSERT builds from the columns it gives, the others taking
    their DEFAULT ([error_count] 0, the time columns NULL, the stamps
    [now()]). *)
Definition new_row (now : Z) (st : system_status_type) (state : jsonb)
    (backup_time : option Z) (count : Z) (err : option jsonb) : Row :=
  {| status := st; last_known_state := state;
     last_reset_time := None; last_backup_time := backup_time;
     last_restore_time := None; error_count := count;
     last_error := err; created_at := now; updated_at := now |}.

(** [log_system_event(p_status, p_state, p_error)] *)
Definition log_system_event (now : Z) (p_status : system_status_type)
    (p_state : option jsonb) (p_error : option jsonb)
    (system_status : list Row) : list Row :=
  insert
    {| status := p_status;
       last_known_state := default J_empty p_state;
       last_reset_time := if decide (p_status = reset) then Some now else None;
       last_backup_time := if decide (p_status = backup) then Some now else None;
       last_restore_time := if decide (p_status = restore) then Some now else None;
       error_count := if decide (p_status = error) then 1 else 0;
       last_error := p_error;
       created_at := now; updated_at := now |}
    system_status.

(** Several rows appended in turn, one INSERT each. *)
Definition insert_all (news : list Row) (system_status : list Row) : list Row :=
  foldl (λ t r, insert r t) system_status news.

(** The largest [error_count] stored so far (0 for the empty table). *)
Definition max_error_count (system_status : list Row) : Z :=
  foldr (λ r acc, Z.max (error_count r) acc) 0 system_status.

(** [error_count] of the most recently appended row. *)
Definition latest_error_count (system_status : list Row) : option Z :=
  error_count <$> last system_status.

(** [N] consecutive appends of a record with status [error]. *)
Fixpoint append_errors (now : Z) (n : nat) (system_status : list Row) : list Row :=
  match n with
  | O => system_status
  | S n' => append_errors now n' (log_system_event now error None None system_status)
  end.

(** [.order(column, { ascending: false }).limit(1).single()] on a nullable
    column: PostgreSQL's [ORDER BY column DESC] places NULLs first, so
    [before a b] holds when [a] is NULL and [b] is not, or both are set and
    [a] is the later one.  The result is [None] when the table has no row
    ([single()] then yields no data), and otherwise the column of the first
    row. *)
Definition desc_before (a b : option Z) : bool :=
  match a, b with
  | None, Some _ => true
  | Some x, Some y => y <? x
  | _, None => false
  end.

Definition select_first_desc (column : Row → option Z) (system_status : list Row)
    : option (option Z) :=
  column <$> head (sort (λ a b, desc_before (column a) (column b)) system_status).

End Db.

(** ** The backup script: [cleanOldBackups] and [backupDatabase] *)

Module Backup.

(** [fs.Stats]: the fields the script reads. *)
Record Stats := { mtime : Z; size : N }.

(** [BACKUP_DIR] is the directory itself; the two numbers are what
    [parseInt] made of the environment (or of the defaults '5' and '7');
    a text that [parseInt] turns into NaN is not represented. *)
Record Config := { MAX_BACKUPS : Z; RETENTION_DAYS : Z }.

Definition default_config : Config := {| MAX_BACKUPS := 5; RETENTION_DAYS := 7 |}.

(** The entries built by [.map(file => ({ name, path, time }))]. *)
Record File := { name : string; path : string; time : Z }.

(** [fs.unlinkSync(path)]: removes the entry, and throws ENOENT when there
    is none. *)
Definition ENOENT (p : string) : JsThrown :=
  JsError ("ENOENT: no such file or directory, unlink '" +:+ p +:+ "'").

Definition unlinkSync (p : string) (dir : gmap string Stats)
    : gmap string Stats * option JsThrown :=
  match dir !! p with
  | Some _ => (delete p dir, None)
  | None => (dir, Some (ENOENT p))
  end.

(** [arr.forEach(f)] for a callback acting on the directory: a throw stops
    the iteration and leaves the directory as it was at that point. *)
Fixpoint forEach {A} (f : A → gmap string Stats → gmap string Stats * option JsThrown)
    (l : list A) (dir : gmap string Stats) : gmap string Stats * option JsThrown :=
  match l with
  | [] => (dir, None)
  | x :: l' =>
      match f x dir with
      | (dir', None) => forEach f l' dir'
      | thrown => thrown
      end
  end.

(** [readdirSync] filtered on the suffix, each name with its [statSync],
    sorted by [(a, b) => b.time - a.time]. *)
Definition is_backup (entry : string * Stats) : bool := endsWith entry.1 ".sql.gz".

Definition to_file (entry : string * Stats) : File :=
  {| name := entry.1; path := entry.1; time := mtime entry.2 |}.

Definition newer_first (a b : File) : bool := time b - time a <? 0.

Definition list_files (dir : gmap string Stats) : list File :=
  sort newer_first (to_file <$> filter is_backup (map_to_list dir)).

(** The directory without the entries named by [ps]. *)
Definition remove_all (ps : list string) (dir : gmap string Stats) : gmap string Stats :=
  foldl (λ d p, delete p d) dir ps.

Definition retentionMs (cfg : Config) : Z := RETENTION_DAYS cfg * 24 * 60 * 60 * 1000.

Definition expired (cfg : Config) (now : Z) (file : File) : bool :=
  retentionMs cfg <? now - time file.

(** [cleanOldBackups()]; [now] is the value of [Date.now()]. *)
Definition cleanOldBackups (cfg : Config) (now : Z) (dir : gmap string Stats)
    : gmap string Stats * option JsThrown :=
  let files := list_files dir in
  (* Remove old backups based on MAX_BACKUPS *)
  let counted :=
    if MAX_BACKUPS cfg <? Z.of_nat (length files)
    then forEach (λ file, unlinkSync (path file)) (slice (MAX_BACKUPS cfg) files) dir
    else (dir, None) in
  match counted with
  | (dir1, None) =>
      (* Remove backups older than RETENTION_DAYS *)
      forEach (λ file d, if expired cfg now file then unlinkSync (path file) d
                         else (d, None))
              files dir1
  | thrown => thrown
  end.

(** What one run of [backupDatabase] meets outside the script. *)
Record Run := {
  iso_now : string;                (* new Date().toISOString() *)
  clock : Z;                       (* the time of the run: mtime of the file
                                      written, CURRENT_TIMESTAMP *)
  sweep_now : Z;                   (* Date.now() of cleanOldBackups, read
                                      after the dump *)
  dump_output : option N;          (* size of the file the shell left at
                                      compressedPath, None when it left none *)
  dump_thrown : option JsThrown;   (* execAsync(command) rejected *)
  psql_thrown : option JsThrown    (* execAsync(updateCommand) rejected *)
}.

Record BackupResult := {
  success : bool;
  backup_path : option string;
  backup_timestamp : option string;
  backup_error : option string
}.

(** What the script acts on: the table and the backup directory. *)
Record World := {
  system_status : list Db.Row;
  backups : gmap string Stats
}.

(** [.replace(/[:.]/g, '-')] *)
Fixpoint replace_colon_dot (s : string) : string :=
  match s with
  | EmptyString => EmptyString
  | String c s' =>
      String (if bool_decide (c = ":"%char ∨ c = "."%char) then "-"%char else c)
             (replace_colon_dot s')
  end.

Definition compressedPath (run : Run) : string :=
  "db_backup_" +:+ replace_colon_dot (iso_now run) +:+ ".sql" +:+ ".gz".

(** The [catch] of [backupDatabase]. *)
Definition failure (e : JsThrown) : BackupResult :=
  {| success := false; backup_path := None; backup_timestamp := None;
     backup_error := Some match e with
                          | JsError message => message
                          | JsOther => "Unknown error during backup"
                          end |}.

(** The state of the directory after [execAsync(command)]: the redirection
    of the shell writes [compressedPath] (or nothing). *)
Definition after_dump (run : Run) (dir : gmap string Stats) : gmap string Stats :=
  match dump_output run with
  | Some sz => <[compressedPath run := {| mtime := clock run; size := sz |}]> dir
  | None => dir
  end.

(** [!fs.existsSync(compressedPath) || fs.statSync(compressedPath).size === 0] *)
Definition empty_or_missing (p : string) (dir : gmap string Stats) : bool :=
  match dir !! p with
  | None => true
  | Some st => bool_decide (size st = 0%N)
  end.

(** [backupDatabase()], on a backup directory that exists
    ([createBackupDirectory] then does nothing). *)
Definition backupDatabase (cfg : Config) (run : Run) (w : World) : World * BackupResult :=
  let dir := after_dump run (backups w) in
  match dump_thrown run with
  | Some e => ({| system_status := system_status w; backups := dir |}, failure e)
  | None =>
      if empty_or_missing (compressedPath run) dir
      then ({| system_status := system_status w; backups := dir |},
            failure (JsError "Backup file is empty or was not created"))
      else
        match cleanOldBackups cfg (sweep_now run) dir with
        | (dir', Some e) =>
            ({| system_status := system_status w; backups := dir' |}, failure e)
        | (dir', None) =>
            match psql_thrown run with
            | Some e =>
                ({| system_status := system_status w; backups := dir' |}, failure e)
            | None =>
                ({| system_status :=
                      Db.insert
                        (Db.new_row (clock run) Db.backup
                           (Db.J_backup_file (compressedPath run))
                           (Some (clock run)) 0 None)
                        (system_status w);
                    backups := dir' |},
                 {| success := true;
                    backup_path := Some (compressedPath run);
                    backup_timestamp := Some (replace_colon_dot (iso_now run));
                    backup_error := None |})
            end
        end
  end.

End Backup.

(** ** The retention policy, in the words of the specification

    The artifacts of a directory, their age against [maxAgeDays], and
    how many artifacts are newer than a given one, read off the directory
    itself and not off the listing the sweep makes. *)

Module Retention.
Import Backup.

Definition artifact (entry : string * Stats) : Prop := endsWith entry.1 ".sql.gz" = true.

Global Instance artifact_dec (entry : string * Stats) : Decision (artifact entry).
Proof. unfold artifact. apply _. Defined.

Definition artifacts (dir : gmap string Stats) : list (string * Stats) :=
  filter artifact (map_to_list dir).

(** Older than [maxAgeDays] at the time [now]. *)
Definition too_old (cfg : Config) (now : Z) (st : Stats) : Prop :=
  RETENTION_DAYS cfg * (24 * 60 * 60 * 1000) < now - mtime st.

(** The artifacts modified after the time [t]. *)
Definition newer (t : Z) (dir : gmap string Stats) : list (string * Stats) :=
  filter (λ e, t < mtime e.2) (artifacts dir).

(** The artifacts other than [n] modified at the time [t] or later. *)
Definition others_as_new (n : string) (t : Z) (dir : gmap string Stats)
    : list (string * Stats) :=
  filter (λ e, e.1 ≠ n ∧ t ≤ mtime e.2) (artifacts dir).

End Retention.

(** ** [DatabaseMonitor] (monitor-database.ts) *)

Module Monitor.

Definition CRITICAL_TABLES : list string :=
  ["user_profiles"; "schools"; "school_users"; "content"].

(** [{ count, error }] as answered to
    [supabase.from(table).select('*', { count: 'exact', head: true })];
    [count_error] is [error.message] when [error] is set. *)
Record CountResponse := { count : option N; count_error : option string }.

(** What one run of [checkSystem] meets outside the monitor. *)
Record Env := {
  now : Z;                            (* new Date(), Date.now() *)
  version : option JsThrown;          (* healthError of supabase.rpc('version') *)
  select_count : string → CountResponse;
  backup_run : nat → Backup.Run;      (* what the k-th call of backupDatabase
                                         of the process meets *)
  rejects : Db.Row → bool             (* whether the insert of this row into
                                         system_status is answered with an
                                         error *)
}.

(** The monitor's field [lastKnownState], the store and the directory it
    acts on, and the number of calls of [backupDatabase] made so far. *)
Record State := {
  lastKnownState : option SystemState;
  store : Backup.World;
  backup_calls : nat
}.

Definition with_store (w : Backup.World) (s : State) : State :=
  {| lastKnownState := lastKnownState s; store := w; backup_calls := backup_calls s |}.

(** [await supabase.from('system_status').insert(r)]: the answer, which
    carries the error of a rejected insert, is dropped. *)
Definition insert_row (env : Env) (r : Db.Row) (s : State) : State :=
  if rejects env r then s
  else with_store {| Backup.system_status := Db.insert r (Backup.system_status (store s));
                     Backup.backups := Backup.backups (store s) |} s.

(** Mutations of the [state] object. *)
Definition push_warning (m : string) (st : SystemState) : SystemState :=
  {| status := status st; lastCheck := lastCheck st; tables := tables st;
     lastBackup := lastBackup st; warnings := warnings st ++ [m]; errors := errors st |}.

Definition push_error (m : string) (st : SystemState) : SystemState :=
  {| status := status st; lastCheck := lastCheck st; tables := tables st;
     lastBackup := lastBackup st; warnings := warnings st; errors := errors st ++ [m] |}.

Definition set_status (h : Health) (st : SystemState) : SystemState :=
  {| status := h; lastCheck := lastCheck st; tables := tables st;
     lastBackup := lastBackup st; warnings := warnings st; errors := errors st |}.

Definition set_table (table : string) (n : N) (st : SystemState) : SystemState :=
  {| status := status st; lastCheck := lastCheck st; tables := <[table := n]> (tables st);
     lastBackup := lastBackup st; warnings := warnings st; errors := errors st |}.

Definition set_lastBackup (t : Z) (st : SystemState) : SystemState :=
  {| status := status st; lastCheck := lastCheck st; tables := tables st;
     lastBackup := Some t; warnings := warnings st; errors := errors st |}.

(** [createBackup()]: throws when the result is not a success. *)
Definition createBackup (cfg : Backup.Config) (env : Env) (s : State)
    : State * option JsThrown :=
  let '(w, result) :=
    Backup.backupDatabase cfg (backup_run env (backup_calls s)) (store s) in
  let s' := {| lastKnownState := lastKnownState s; store := w;
               backup_calls := S (backup_calls s) |} in
  if Backup.success result then (s', None)
  else (s', Some (JsError match Backup.backup_error result with
                          | Some m => if decide (m = "") then "Backup failed" else m
                          | None => "Backup failed"
                          end)).

(** [handleDataLoss(state)]: backup, then the incident row; whatever is
    thrown is logged and dropped. *)
Definition handleDataLoss (cfg : Backup.Config) (env : Env) (state : SystemState)
    (s : State) : State :=
  match createBackup cfg env s with
  | (s', None) =>
      insert_row env
        (Db.new_row (now env) Db.error (Db.J_incident state (now env)) None 0 None) s'
  | (s', Some _) => s'
  end.

(** [count < previousCount - threshold], with
    [threshold = previousCount * 0.1]. *)
Definition below_threshold (count previousCount : N) : bool :=
  let threshold := Js.mul (Js.of_N previousCount) Js.tenth in
  Js.lt (Js.of_N count) (Js.sub (Js.of_N previousCount) threshold).

Definition data_loss_warning (table : string) (previousCount count : N) : string :=
  "Significant data loss detected in " +:+ table +:+ ": Previous=" +:+
  pretty previousCount +:+ ", Current=" +:+ pretty count.

(** One iteration of [for (const table of this.CRITICAL_TABLES)]. *)
Definition check_table (cfg : Backup.Config) (env : Env)
    (acc : SystemState * State) (table : string) : SystemState * State :=
  let '(state, s) := acc in
  let r := select_count env table in
  match count_error r with
  | Some message =>
      (push_error ("Error checking table " +:+ table +:+ ": " +:+ message) state, s)
  | None =>
      let state := set_table table (default 0%N (count r)) state in
      (* this.lastKnownState?.tables[table] && count !== null *)
      match lastKnownState s ≫= (λ l, tables l !! table), count r with
      | Some previousCount, Some count =>
          if decide (previousCount = 0%N) then (state, s)
          else
            if below_threshold count previousCount
            then
              let state :=
                set_status warning
                  (push_warning (data_loss_warning table previousCount count) state) in
              (state, handleDataLoss cfg env state s)
            else (state, s)
      | _, _ => (state, s)
      end
  end.

(** "Check last backup": the query, then the backup when there is no
    backup time or an old one.  The third component is what
    [createBackup] threw. *)
Definition check_last_backup (cfg : Backup.Config) (env : Env)
    (state : SystemState) (s : State) : SystemState * State * option JsThrown :=
  match Db.select_first_desc Db.last_backup_time (Backup.system_status (store s)) with
  | Some (Some last_backup_time) =>
      let state := set_lastBackup last_backup_time state in
      let backupAge := now env - last_backup_time in
      if 24 * 60 * 60 * 1000 <? backupAge
      then
        let state := push_warning "No recent backup found (>24 hours)" state in
        let '(s', thrown) := createBackup cfg env s in
        (state, s', thrown)
      else (state, s, None)
  | _ =>
      let state := push_warning "No backup history found" state in
      let '(s', thrown) := createBackup cfg env s in
      (state, s', thrown)
  end.

(** "Update status based on warnings and errors" *)
Definition rank (st : SystemState) : Health :=
  if decide (errors st = []) then
    if decide (warnings st = []) then status st else warning
  else error.

(** [updateSystemStatus(state)] *)
Definition audit_row (env : Env) (state : SystemState) : Db.Row :=
  Db.new_row (now env)
    (if decide (status state = healthy) then Db.initialized else Db.error)
    (Db.J_state state) None
    (Z.of_nat (length (errors state)))
    (Db.J_text <$> head (errors state)).

Definition updateSystemStatus (env : Env) (state : SystemState) (s : State) : State :=
  insert_row env (audit_row env state) s.

(** The outcome of one [checkSystem()]: the monitor afterwards, the
    [state] object as it was passed to [updateSystemStatus], and what the
    [catch] block caught, if it was entered. *)
Record Tick := {
  after : State;
  final : SystemState;
  caught : option JsThrown
}.

Definition initial_state (env : Env) : SystemState :=
  {| status := healthy; lastCheck := now env; tables := ∅; lastBackup := None;
     warnings := []; errors := [] |}.

(** The [catch] block of [checkSystem]. *)
Definition on_throw (env : Env) (e : JsThrown) (state : SystemState) (s : State) : Tick :=
  let state :=
    push_error match e with JsError message => message | JsOther => "Unknown error" end
      (set_status error state) in
  {| after := updateSystemStatus env state s; final := state; caught := Some e |}.

Definition checkSystem (cfg : Backup.Config) (env : Env) (s : State) : Tick :=
  let state := initial_state env in
  match version env with
  | Some healthError => on_throw env healthError state s
  | None =>
      let '(state, s) := foldl (check_table cfg env) (state, s) CRITICAL_TABLES in
      match check_last_backup cfg env state s with
      | (state, s, Some e) => on_throw env e state s
      | (state, s, None) =>
          let state := set_status (rank state) state in
          let s := updateSystemStatus env state s in
          {| after := {| lastKnownState := Some state; store := store s;
                         backup_calls := backup_calls s |};
             final := state; caught := None |}
      end
  end.

(** The rows a tick added to [system_status]. *)
Definition appended (s : State) (t : Tick) : list Db.Row :=
  drop (length (Backup.system_status (store s)))
       (Backup.system_status (store (after t))).

(** What [updateSystemStatus] adds to the table: the audit row as the
    trigger stores it, unless the insert is rejected. *)
Definition audit_rows (env : Env) (state : SystemState) : list Db.Row :=
  if rejects env (audit_row env state) then []
  else [Db.increment_error_count None (audit_row env state)].

(** The [state] and the monitor at the end of the loop over the tables,
    and what the backup check then makes of them. *)
Definition tables_checked (cfg : Backup.Config) (env : Env) (s : State)
    : SystemState * State :=
  foldl (check_table cfg env) (initial_state env, s) CRITICAL_TABLES.

Definition backup_checked (cfg : Backup.Config) (env : Env) (s : State)
    : SystemState * State * option JsThrown :=
  check_last_backup cfg env (tables_checked cfg env s).1 (tables_checked cfg env s).2.

(** Rows a tick adds besides its own: the row of a successful backup and
    the incident row of [handleDataLoss]. *)
Definition side_row (r : Db.Row) : Prop :=
  (Db.status r = Db.backup ∧ ∃ f, Db.last_known_state r = Db.J_backup_file f)
  ∨ (Db.status r = Db.error ∧ ∃ st ts, Db.last_known_state r = Db.J_incident st ts).

(** [s'] comes from [s] by adding [rows] to the store, through backups
    and incident rows only, the field [lastKnownState] unchanged. *)
Definition grows (s s' : State) (rows : list Db.Row) : Prop :=
  Backup.system_status (store s') = Backup.system_status (store s) ++ rows
  ∧ lastKnownState s' = lastKnownState s
  ∧ (backup_calls s ≤ backup_calls s')%nat
  ∧ (length rows ≤ 2 * (backup_calls s' - backup_calls s))%nat
  ∧ Forall side_row rows.

(** The condition under which an iteration reports a loss for [table],
    with the counts it compares. *)
Definition loss_detected (lks : option SystemState) (env : Env) (table : string)
    (previousCount count' : N) : Prop :=
  count_error (select_count env table) = None
  ∧ lks ≫= (λ l, tables l !! table) = Some previousCount
  ∧ count (select_count env table) = Some count'
  ∧ previousCount ≠ 0%N
  ∧ below_threshold count' previousCount = true.

(** How the loop over the tables moves the [state] object and the
    monitor: messages are only added, the status changes only to
    [warning] and only along with a warning, and no backup is made
    without one. *)
Definition evolves (a a' : SystemState * State) : Prop :=
  ∃ rows ws es,
    grows a.2 a'.2 rows
    ∧ warnings a'.1 = warnings a.1 ++ ws
    ∧ errors a'.1 = errors a.1 ++ es
    ∧ (ws = [] → status a'.1 = status a.1 ∧ backup_calls a'.2 = backup_calls a.2)
    ∧ (ws ≠ [] → status a'.1 = warning).

(** The number of occurrences of a message in a list of messages. *)
Definition occurrences (m : string) (l : list string) : nat :=
  length (filter (λ w, w = m) l).

(** The monitor at its creation, on a given store and directory. *)
Definition new_monitor (w : Backup.World) : State :=
  {| lastKnownState := None; store := w; backup_calls := 0 |}.

End Monitor.

(** ** Concrete situations used below *)

Module Examples.
Import Backup Monitor.

(** A run of the dump pipeline that writes a 10-byte archive. *)
Definition good_run : Run :=
  {| iso_now := "2025-02-24T10:11:12.345Z"; clock := 1000; sweep_now := 1000;
     dump_output := Some 10%N; dump_thrown := None; psql_thrown := None |}.

(** A run in which the shell leaves an empty file and the pipeline reports
    no failure. *)
Definition empty_run : Run :=
  {| iso_now := "2025-02-24T10:11:12.345Z"; clock := 1000; sweep_now := 1000;
     dump_output := Some 0%N; dump_thrown := None; psql_thrown := None |}.

Definition empty_world : World := {| system_status := []; backups := ∅ |}.

(** The store as the migration leaves it: the row of
    [SELECT log_system_event('initialized', ...)]. *)
Definition migrated : list Db.Row :=
  Db.log_system_event 0 Db.initialized (Some (Db.J_text "System initialized")) None [].

(** Every table answers with the same count, except [user_profiles]. *)
Definition counts (user_profiles : option N) (table : string) : CountResponse :=
  {| count := if decide (table = "user_profiles") then user_profiles else Some 7%N;
     count_error := None |}.

Definition env_at (t : Z) (user_profiles : option N) (run : Run) : Env :=
  {| now := t; version := None; select_count := counts user_profiles;
     backup_run := λ _, run; rejects := λ _, false |}.

(** The same, with a store that rejects every insert of the client. *)
Definition env_rejecting (t : Z) (user_profiles : option N) (run : Run) : Env :=
  {| now := t; version := None; select_count := counts user_profiles;
     backup_run := λ _, run; rejects := λ _, true |}.

(** The database does not answer the [version] call. *)
Definition env_down (t : Z) : Env :=
  {| now := t; version := Some (JsError "fetch failed");
     select_count := counts (Some 100%N); backup_run := λ _, good_run;
     rejects := λ _, false |}.

(** A first tick that sees 100 rows in [user_profiles]. *)
Definition tick1 : Tick :=
  checkSystem default_config (env_at 2000 (Some 100%N) good_run) (new_monitor empty_world).

(** Then a tick that sees 85. *)
Definition tick2_loss : Tick :=
  checkSystem default_config (env_at 3000 (Some 85%N) good_run) (after tick1).

(** Or a tick whose count for [user_profiles] comes back null, without
    error. *)
Definition tick2_null : Tick :=
  checkSystem default_config (env_at 3000 None good_run) (after tick1).

(** Or a tick during which the database is down. *)
Definition tick2_down : Tick :=
  checkSystem default_config (env_down 3000) (after tick1).

(** Or a tick that sees 85 while the store rejects the inserts of the
    client. *)
Definition tick2_rejected : Tick :=
  checkSystem default_config (env_rejecting 3000 (Some 85%N) good_run) (after tick1).

(** Or a tick that sees 100 again. *)
Definition tick2_same : Tick :=
  checkSystem default_config (env_at 3000 (Some 100%N) good_run) (after tick1).

(** Or a tick in which the count of [schools] fails. *)
Definition env_count_error (t : Z) : Env :=
  {| now := t; version := None;
     select_count := λ table,
       {| count := if decide (table = "schools") then None else Some 7%N;
          count_error := if decide (table = "schools")
                         then Some "permission denied" else None |};
     backup_run := λ _, good_run; rejects := λ _, false |}.

Definition tick2_count_error : Tick :=
  checkSystem default_config (env_count_error 3000) (after tick1).

(** A directory of six archives and one other file. *)
Definition six : gmap string Stats :=
  list_to_map
    [("a.sql.gz", {| mtime := 1; size := 5 |}); ("b.sql.gz", {| mtime := 2; size := 5 |});
     ("c.sql.gz", {| mtime := 3; size := 5 |}); ("d.sql.gz", {| mtime := 4; size := 5 |});
     ("e.sql.gz", {| mtime := 5; size := 5 |}); ("f.sql.gz", {| mtime := 6; size := 5 |});
     ("notes.txt", {| mtime := 0; size := 1 |})].

(** One week and three milliseconds after the epoch: [a] and [b] are older
    than seven days. *)
Definition week_later : Z := 7 * 24 * 60 * 60 * 1000 + 3.

(** A run one week later, on the directory of six archives. *)
Definition late_run : Run :=
  {| iso_now := "2025-03-03T10:11:12.345Z"; clock := week_later;
     sweep_now := week_later; dump_output := Some 10%N; dump_thrown := None; psql_thrown := None |}.

Definition six_world : World := {| system_status := []; backups := six |}.

End Examples.

(** ** The rest of the migration: the BEFORE UPDATE triggers *)

Module Update.
Import Db.

(** [update_updated_at_column()], the row trigger
    [update_system_status_updated_at] (BEFORE UPDATE). *)
Definition update_updated_at_column (now : Z) (NEW : Row) : Row :=
  {| status := status NEW; last_known_state := last_known_state NEW;
     last_reset_time := last_reset_time NEW; last_backup_time := last_backup_time NEW;
     last_restore_time := last_restore_time NEW; error_count := error_count NEW;
     last_error := last_error NEW; created_at := created_at NEW;
     updated_at := now |}.

(** The column [error_count] is an [integer]: 32 bits, signed. *)
Definition int4 (n : Z) : Prop := -2147483648 ≤ n ≤ 2147483647.

Global Instance int4_dec (n : Z) : Decision (int4 n).
Proof. unfold int4. apply _. Defined.

(** The row an UPDATE stores in place of [OLD] when the statement proposes
    [NEW]: the BEFORE UPDATE triggers fire in the order of their names,
    [count_errors] and then [update_system_status_updated_at], each on
    the row the former returned.  The statement fails with "integer out
    of range" ([None]) when the count it proposes, or the sum that
    [count_errors] forms, leaves the range of the column. *)
Definition before_update (now : Z) (OLD NEW : Row) : option Row :=
  let counted := increment_error_count (Some OLD) NEW in
  if decide (int4 (error_count NEW) ∧ int4 (error_count counted))
  then Some (update_updated_at_column now counted)
  else None.

(** Successive UPDATEs of one row: each statement comes with its time and
    with what its SET clause makes of the stored row; a statement that
    fails leaves the row as it is. *)
Definition updates (stmts : list (Z * (Row → Row))) (r : Row) : Row :=
  foldl (λ r stmt, default r (before_update stmt.1 r (stmt.2 r))) r stmts.

(** A history of calls of [log_system_event], each with its [now()]. *)
Record Event := {
  at_time : Z;
  p_status : system_status_type;
  p_state : option jsonb;
  p_error : option jsonb
}.

Definition log_all (events : list Event) (system_status : list Row) : list Row :=
  foldl (λ t e, log_system_event (at_time e) (p_status e) (p_state e) (p_error e) t)
        system_status events.

End Update.

(** ** The monitor's timer *)

Module Loop.
Import Monitor.

(** [start()] runs [checkSystem] once and then at each firing of the
    interval timer, until [stop()] clears it; [envs] is what the
    successive checks meet, each check ending before the next begins. *)
Definition start (cfg : Backup.Config) (envs : list Env) (s : State) : State :=
  foldl (λ s env, after (checkSystem cfg env s)) s envs.

(** The rows that hold the [state] of a tick. *)
Definition is_audit (r : Db.Row) : bool :=
  match Db.last_known_state r with
  | Db.J_state _ => true
  | _ => false
  end.

End Loop.

(** ** manage-db-state.ts *)

Module Manage.
Import Monitor.

(** [logSystemEvent(status, state, error)]: the call of
    [log_system_event] with [state || {}]. *)
Definition logSystemEvent (now : Z) (status : Db.system_status_type)
    (state : option Db.jsonb) (error : option Db.jsonb)
    (system_status : list Db.Row) : list Db.Row :=
  Db.log_system_event now status (Some (default Db.J_empty state)) error system_status.

(** [getSystemStatus()]: the first row by [created_at] descending;
    [single()] answers with an error, which is thrown, when there is no
    row ([None]). *)
Definition getSystemStatus (system_status : list Db.Row) : option Db.Row :=
  head (sort (λ a b, Db.created_at b <? Db.created_at a) system_status).

Definition tables : list string :=
  ["user_profiles"; "schools"; "school_users"; "content"].

(** What [checkDatabaseHealth] throws: the [healthError] of the [version]
    call, or the [error] of a count, known by its message. *)
Inductive Thrown :=
| Thrown_healthError (e : JsThrown)
| Thrown_error (message : string).

(** [for (const table of tables)] of [checkDatabaseHealth]. *)
Fixpoint count_tables (env : Env) (ts : list string) (tableStats : gmap string N)
    : Thrown + gmap string N :=
  match ts with
  | [] => inr tableStats
  | table :: ts' =>
      let r := select_count env table in
      match count_error r with
      | Some message => inl (Thrown_error message)
      | None => count_tables env ts' (<[table := default 0%N (count r)]> tableStats)
      end
  end.

(** [checkDatabaseHealth()], as to whether it throws and the [tableStats]
    it returns. *)
Definition checkDatabaseHealth (env : Env) : Thrown + gmap string N :=
  match version env with
  | Some healthError => inl (Thrown_healthError healthError)
  | None => count_tables env tables ∅
  end.

End Manage.

(** ** run-migration.ts: [runMigration] *)

Module Migrate.

(** The text of a migration file as the sequence of its UTF-16 code units,
    which is what [split], [trim] and [length] act on. *)

(** WhiteSpace and LineTerminator of the language, removed by [trim()]. *)
Definition is_space (c : N) : bool :=
  bool_decide (c ∈ [9%N; 10%N; 11%N; 12%N; 13%N; 32%N; 160%N; 5760%N;
                    8192%N; 8193%N; 8194%N; 8195%N; 8196%N; 8197%N; 8198%N;
                    8199%N; 8200%N; 8201%N; 8202%N; 8232%N; 8233%N; 8239%N;
                    8287%N; 12288%N; 65279%N]).

Fixpoint trimStart (s : list N) : list N :=
  match s with
  | [] => []
  | c :: s' => if is_space c then trimStart s' else s
  end.

Definition trim (s : list N) : list N :=
  reverse (trimStart (reverse (trimStart s))).

(** [s.split(sep)] for a separator of one code unit. *)
Fixpoint split (sep : N) (s : list N) : list (list N) :=
  match s with
  | [] => [[]]
  | c :: s' =>
      if decide (c = sep) then [] :: split sep s'
      else match split sep s' with
           | seg :: rest => (c :: seg) :: rest
           | [] => [[c]]
           end
  end.

Definition semicolon : N := 59.

(** [sql.split(';').map(s => s.trim()).filter(s => s.length > 0)] *)
Definition statements (sql : list N) : list (list N) :=
  filter (λ statement, statement ≠ []) (trim <$> split semicolon sql).

(** What a run leaves to be seen: the statements sent to [execute_sql],
    the numbers of those logged as failed, and the exit code. *)
Record Outcome := {
  executed : list (list N);
  failed : list nat;
  exit_code : Z
}.

(** The loop over the statements; [rpc i statement] tells whether the
    [i]-th call answered with an error. *)
Fixpoint execute (rpc : nat → list N → bool) (i : nat) (stmts : list (list N))
    : list (list N) * list nat :=
  match stmts with
  | [] => ([], [])
  | statement :: rest =>
      let '(done, errs) := execute rpc (S i) rest in
      (statement :: done, if rpc i statement then S i :: errs else errs)
  end.

(** [runMigration(migrationFilePath)] followed by the [then] of the
    script; [file] is the text [readFileSync] returns, [None] when it
    throws. *)
Definition runMigration (file : option (list N)) (rpc : nat → list N → bool) : Outcome :=
  match file with
  | None => {| executed := []; failed := []; exit_code := 1 |}
  | Some sql =>
      let '(done, errs) := execute rpc 0 (statements sql) in
      {| executed := done; failed := errs; exit_code := 0 |}
  end.

End Migrate.

(** ** check-database: [checkDatabase] (second part of run-migration.ts) *)

Module Check.
Import Backup.

Definition tables : list string :=
  ["auth.users"; "user_profiles"; "schools"; "school_users"].

(** What one run of [checkDatabase] meets. *)
Record Env := {
  now : Z;                                  (* new Date() *)
  healthError : option JsThrown;            (* error of the first select *)
  select_count : string → Monitor.CountResponse;
  backup_run : Run
}.

(** What a run leaves to be seen: the exit code of the script, the
    tables reported empty, the result of the backup if one was made, the
    reset time warned about if the warning was given, and the table and
    directory afterwards. *)
Record Outcome := {
  exit_code : Z;
  emptyTables : list string;
  backup : option BackupResult;
  reset_warning : option Z;
  world : World
}.

Definition hour : Z := 1000 * 60 * 60.

Definition checkDatabase (cfg : Config) (env : Env) (w : World) : Outcome :=
  match healthError env with
  | Some _ =>
      (* process.exit(1) *)
      {| exit_code := 1; emptyTables := []; backup := None; reset_warning := None;
         world := w |}
  | None =>
      (* check.count === 0 *)
      let empty :=
        filter (λ table, Monitor.count (select_count env table) = Some 0%N) tables in
      let '(w', made) :=
        if bool_decide (empty ≠ [])
        then let '(w', r) := backupDatabase cfg (backup_run env) w in (w', Some r)
        else (w, None) in
      (* Check for recent resets *)
      let warned :=
        match Db.select_first_desc Db.last_reset_time (system_status w') with
        | Some (Some resetTime) =>
            (* hoursSinceReset < 1 *)
            if now env - resetTime <? hour then Some resetTime else None
        | _ => None
        end in
      {| exit_code := 0; emptyTables := empty; backup := made;
         reset_warning := warned; world := w' |}
  end.

End Check.

(** ** Order of a sorted array *)

Module Order.

(** [l] is in the order of [before]: no element has to go before an
    element that precedes it. *)
Fixpoint ordered {A} (before : A → A → bool) (l : list A) : Prop :=
  match l with
  | [] => True
  | x :: l' => Forall (λ y, before y x = false) l' ∧ ordered before l'
  end.

End Order.

(** ** More concrete situations *)

Module Cases.
Import Db.

(** A row in error, stored with count 1. *)
Definition error_row : Row := new_row 5 error J_empty None 1 None.

(** Two statements that set the count to 40 and to 0. *)
Definition two_updates : list (Z * (Row → Row)) :=
  [(10, set_error_count 40); (20, set_error_count 0)].

(** Two backups on record. *)
Definition two_backups : list Row :=
  [new_row 100 backup (J_backup_file "a.sql.gz") (Some 100) 0 None;
   new_row 300 backup (J_backup_file "b.sql.gz") (Some 300) 0 None].

(** A store that holds nothing but the rows of two backups, and a first
    tick on it shortly after the second. *)
Definition backed_up_world : Backup.World :=
  {| Backup.system_status := two_backups; Backup.backups := ∅ |}.

Definition healthy_tick : Monitor.Tick :=
  Monitor.checkSystem Backup.default_config
    (Examples.env_at 400 (Some 100%N) Examples.good_run)
    (Monitor.new_monitor backed_up_world).

(** The text [a; b;] followed by a line feed, in code units. *)
Definition two_statements : list N := [97; 59; 32; 98; 59; 10]%N.

(** A policy that keeps no archive. *)
Definition keep_none : Backup.Config :=
  {| Backup.MAX_BACKUPS := 0; Backup.RETENTION_DAYS := 7 |}.

(** A policy that keeps no archive for any time. *)
Definition keep_no_time : Backup.Config :=
  {| Backup.MAX_BACKUPS := 5; Backup.RETENTION_DAYS := 0 |}.

(** A run one week later whose dump takes five seconds. *)
Definition slow_run : Backup.Run :=
  {| Backup.iso_now := "2025-03-03T10:11:12.345Z"; Backup.clock := Examples.week_later;
     Backup.sweep_now := Examples.week_later + 5000;
     Backup.dump_output := Some 10%N; Backup.dump_thrown := None;
     Backup.psql_thrown := None |}.

(** A store whose only row records a reset at time 1000. *)
Definition reset_world : Backup.World :=
  {| Backup.system_status := log_system_event 1000 reset None None [];
     Backup.backups := ∅ |}.

(** A check at time 2000 that reaches the database. *)
Definition check_env (user_profiles : option N) (run : Backup.Run) : Check.Env :=
  {| Check.now := 2000; Check.healthError := None;
     Check.select_count := Examples.counts user_profiles;
     Check.backup_run := run |}.

End Cases.

(** * Properties *)

(** ** Sorting *)

Section Sorting.
Context {A : Type} (before : A → A → bool).

Lemma sort_insert_perm (x : A) (l : list A) :
  sort_insert before x l ≡ₚ x :: l.
Proof.
  induction l as [|y l IH]; simpl; [done|].
  destruct (before y x); [|done].
  rewrite IH. apply Permutation_swap.
Qed.

Lemma sort_perm (l : list A) : sort before l ≡ₚ l.
Proof.
  induction l as [|x l IH]; simpl; [done|].
  rewrite sort_insert_perm. by rewrite IH.
Qed.

Lemma sort_length (l : list A) : length (sort before l) = length l.
Proof. by rewrite sort_perm. Qed.

Lemma sort_elem_of (x : A) (l : list A) : x ∈ sort before l ↔ x ∈ l.
Proof. by rewrite sort_perm. Qed.

(** The head of the sorted list, in the form used for the NULLS FIRST
    order: when nothing goes before an element of a class [top], and an
    element of [top] goes before every element outside of it, the head
    is in [top] as soon as some element is. *)
Lemma sort_head_top (top : A → Prop) (l : list A) :
  (∀ x y, top x → before x y = false → top y) →
  (∀ x y, top y → before x y = false) →
  (∃ x, x ∈ l ∧ top x) →
  ∃ y, head (sort before l) = Some y ∧ top y.
Proof.
  intros Hfirst Hstay.
  induction l as [|x l IH]; intros [z [Hz Htop]].
  - by apply elem_of_nil in Hz.
  - simpl. destruct (sort before l) as [|y l'] eqn:Hs.
    + simpl. exists x. split; [done|].
      apply elem_of_cons in Hz as [->|Hz]; [done|].
      apply sort_elem_of in Hz. rewrite Hs in Hz. by apply elem_of_nil in Hz.
    + simpl. destruct (before y x) eqn:Hyx.
      * exists y. split; [done|].
        apply elem_of_cons in Hz as [->|Hz].
        -- by rewrite Hstay in Hyx.
        -- destruct IH as [y' [Hy' Hty']]; [by exists z|].
           simpl in Hy'. by simplify_eq.
      * exists x. split; [done|].
        apply elem_of_cons in Hz as [->|Hz]; [done|].
        destruct IH as [y' [Hy' Hty']]; [by exists z|].
        simpl in Hy'. simplify_eq. by eapply Hfirst.
Qed.
End Sorting.

(** ** Lists *)

Lemma filter_nil_iff {A} (P : A → Prop) `{∀ x, Decision (P x)} (l : list A) :
  filter P l = [] ↔ ∀ x, x ∈ l → ¬ P x.
Proof.
  split.
  - intros Hnil x Hx HP. by apply (filter_nil_not_elem_of P l x).
  - induction l as [|x l IH]; intros Hl; [done|].
    rewrite filter_cons_False by (apply Hl; by left).
    apply IH. intros y Hy. apply Hl. by right.
Qed.

(** ** What [sort] returns *)

Section Sort_order.
Import Order.
Context {A : Type} (before : A → A → bool).
Hypothesis asym : ∀ a b, before a b = true → before b a = false.
Hypothesis negtrans :
  ∀ a b c, before a b = false → before b c = false → before a c = false.

Lemma sort_insert_ordered (x : A) (l : list A) :
  ordered before l → ordered before (sort_insert before x l).
Proof.
  induction l as [|y l IH]; simpl; [by split|].
  intros [Hy Hl]. destruct (before y x) eqn:Hyx; simpl.
  - split; [|by apply IH].
    rewrite sort_insert_perm. constructor; [simpl; by apply asym|done].
  - split_and!; [|done|done].
    constructor; [done|].
    eapply Forall_impl; [exact Hy|]. intros z Hz. simpl in *. by apply (negtrans z y x).
Qed.

Lemma sort_ordered (l : list A) : ordered before (sort before l).
Proof.
  induction l as [|x l IH]; simpl; [done|]. by apply sort_insert_ordered.
Qed.

Lemma ordered_app (l1 l2 : list A) (a b : A) :
  ordered before (l1 ++ l2) → a ∈ l1 → b ∈ l2 → before b a = false.
Proof.
  induction l1 as [|x l1 IH]; simpl; [by intros _ ?%elem_of_nil|].
  intros [Hx Hl] [->|Ha]%elem_of_cons Hb.
  - rewrite Forall_forall in Hx. apply Hx. by apply elem_of_app; right.
  - by apply IH.
Qed.

(** The first element of the sorted array has nothing before it. *)
Lemma sort_head_least (l : list A) (h y : A) :
  head (sort before l) = Some h → y ∈ l → before y h = false.
Proof.
  intros Hh Hy. pose proof (sort_ordered l) as Hord.
  apply (sort_elem_of before) in Hy.
  destruct (sort before l) as [|h' rest]; [done|]. simpl in Hh. simplify_eq.
  destruct Hord as [Hrest _].
  apply elem_of_cons in Hy as [->|Hy].
  - destruct (before h h) eqn:E; [|done]. by rewrite (asym h h E) in E.
  - rewrite Forall_forall in Hrest. by apply Hrest.
Qed.

(** An element that goes before all the others comes first. *)
Lemma sort_head_first (l : list A) (x : A) :
  x ∈ l → (∀ y, y ∈ l → before x y = false → y = x) →
  head (sort before l) = Some x.
Proof.
  intros Hx Hfirst.
  destruct (sort before l) as [|h rest] eqn:Hs.
  { apply (sort_elem_of before) in Hx. rewrite Hs in Hx. by apply elem_of_nil in Hx. }
  simpl. f_equal.
  assert (Hh : h ∈ l) by (apply (sort_elem_of before); rewrite Hs; by left).
  pose proof (sort_head_least l h x) as Hleast. rewrite Hs in Hleast.
  specialize (Hleast eq_refl Hx). by apply Hfirst.
Qed.
End Sort_order.

(** ** The audit store *)

Section Store.
Import Db.

Lemma insert_app (r : Row) (tbl : list Row) :
  insert r tbl = tbl ++ [increment_error_count None r].
Proof. done. Qed.

Lemma increment_on_insert_error (r : Row) :
  status r = error → error_count (increment_error_count None r) = 1.
Proof. intros Hr. unfold increment_error_count. by rewrite decide_True. Qed.

Lemma increment_status (old : option Row) (r : Row) :
  status (increment_error_count old r) = status r.
Proof. unfold increment_error_count. by case_decide. Qed.

Lemma increment_last_known_state (old : option Row) (r : Row) :
  last_known_state (increment_error_count old r) = last_known_state r.
Proof. unfold increment_error_count. by case_decide. Qed.

Lemma increment_last_backup_time (old : option Row) (r : Row) :
  last_backup_time (increment_error_count old r) = last_backup_time r.
Proof. unfold increment_error_count. by case_decide. Qed.

Lemma max_error_count_nonneg (tbl : list Row) : 0 ≤ max_error_count tbl.
Proof. induction tbl; simpl; lia. Qed.

Lemma max_error_count_app_eq (t1 t2 : list Row) :
  max_error_count (t1 ++ t2) = Z.max (max_error_count t1) (max_error_count t2).
Proof.
  induction t1 as [|r t1 IH]; simpl; [|lia].
  pose proof (max_error_count_nonneg t2). lia.
Qed.

Lemma max_error_count_all_one (rows : list Row) :
  rows ≠ [] → Forall (λ r, error_count r = 1) rows → max_error_count rows = 1.
Proof.
  induction 2 as [|r rows Hr Hrows IH]; [done|]. simpl.
  destruct rows as [|r' rows]; simpl in *; [lia|].
  rewrite Hr. rewrite IH by done. lia.
Qed.

(** Appending a list of rows, one INSERT each. *)
Lemma insert_all_app (news : list Row) (tbl : list Row) :
  insert_all news tbl = tbl ++ (increment_error_count None <$> news).
Proof.
  unfold insert_all. revert tbl. induction news as [|r news IH]; intros tbl; simpl.
  - by rewrite app_nil_r.
  - rewrite IH, insert_app, <- app_assoc. done.
Qed.

(** A NULL in the column hides every backup time from the query. *)
Lemma select_first_desc_null (column : Row → option Z) (tbl : list Row) (r : Row) :
  r ∈ tbl → column r = None → select_first_desc column tbl = Some None.
Proof.
  intros Hr Hnull. unfold select_first_desc.
  destruct (sort_head_top (λ a b, desc_before (column a) (column b))
              (λ x, column x = None) tbl) as [y [-> Hy]].
  - intros x y Hx. rewrite Hx. simpl. by destruct (column y).
  - intros x y Hy. rewrite Hy. by destruct (column x).
  - by exists r.
  - simpl. by rewrite Hy.
Qed.

Lemma select_first_desc_empty (column : Row → option Z) :
  select_first_desc column [] = None.
Proof. done. Qed.
End Store.

Section Store_claims.
Import Db.

Lemma append_errors_insert_all (now : Z) (n : nat) (tbl : list Row) :
  append_errors now n tbl
  = insert_all (replicate n (new_row now error J_empty None 1 None)) tbl.
Proof.
  revert tbl. induction n as [|n IH]; intros tbl; [done|].
  simpl. by rewrite IH.
Qed.

(** C3, as the code has it: each record appended with status [error] is
    stored with [error_count] 1, whatever count the INSERT gave and
    whatever the table holds; the rows already stored are not touched.
    Hence the largest stored count never decreases, and after one or
    more such appends it is the larger of its former value and 1. *)
Theorem error_count_of_appended_errors (tbl news : list Row) :
  Forall (λ r, status r = error) news →
  let tbl' := insert_all news tbl in
  take (length tbl) tbl' = tbl
  ∧ length (drop (length tbl) tbl') = length news
  ∧ Forall (λ r, status r = error ∧ error_count r = 1) (drop (length tbl) tbl')
  ∧ max_error_count tbl ≤ max_error_count tbl'
  ∧ (news ≠ [] → max_error_count tbl' = Z.max (max_error_count tbl) 1).
Proof.
  intros Hnews tbl'. subst tbl'. rewrite insert_all_app.
  rewrite take_app_length, drop_app_length, length_fmap.
  assert (Hall : Forall (λ r, status r = error ∧ error_count r = 1)
                   (increment_error_count None <$> news)).
  { apply Forall_fmap. eapply Forall_impl; [exact Hnews|].
    intros r Hr. simpl. by rewrite increment_status, increment_on_insert_error. }
  rewrite max_error_count_app_eq.
  split_and!; [done|done|done|lia|].
  intros Hne. rewrite (max_error_count_all_one (_ <$> news)); [done| |].
  - by destruct news.
  - eapply Forall_impl; [exact Hall|]. by intros r [_ ?].
Qed.

Lemma error_count_of_appended_errors_witness :
  let news := replicate 2 (new_row 5 error J_empty None 7 None) in
  Forall (λ r, status r = error) news
  ∧ max_error_count (insert_all news Examples.migrated) = 1.
Proof.
  intros news.
  assert (Hnews : Forall (λ r, status r = error) news) by (repeat constructor).
  split; [exact Hnews|].
  destruct (error_count_of_appended_errors Examples.migrated news Hnews)
    as (_ & _ & _ & _ & H).
  rewrite H; [reflexivity | discriminate].
Defined.

(** C3 as stated fails: two consecutive [error] appends on the freshly
    migrated store leave both the largest and the latest [error_count]
    at 1, not at 0 + 2. *)
Lemma error_count_does_not_accumulate :
  let tbl := Examples.migrated in
  let tbl' := append_errors 1 2 tbl in
  max_error_count tbl = 0
  ∧ max_error_count tbl' ≠ max_error_count tbl + 2
  ∧ latest_error_count tbl = Some 0
  ∧ latest_error_count tbl' ≠ Some (0 + 2).
Proof. vm_compute. split_and!; congruence. Qed.
End Store_claims.

(** ** The retention sweep *)

Section Sweep.
Import Backup.

Lemma remove_all_lookup (ps : list string) (dir : gmap string Stats) (k : string) :
  remove_all ps dir !! k = if decide (k ∈ ps) then None else dir !! k.
Proof.
  unfold remove_all. revert dir.
  induction ps as [|p ps IH]; intros dir.
  - case_decide as H; [by apply elem_of_nil in H|done].
  - cbn [foldl]. rewrite IH.
    destruct (decide (k ∈ ps)) as [Hin|Hout].
    + rewrite decide_True; [done|]. by apply elem_of_cons; right.
    + destruct (decide (k = p)) as [->|Hne].
      * rewrite lookup_delete_eq, decide_True; [done|]. by apply elem_of_cons; left.
      * rewrite lookup_delete_ne by done. rewrite decide_False; [done|].
        intros [?|?]%elem_of_cons; done.
Qed.

Lemma remove_all_app (ps qs : list string) (dir : gmap string Stats) :
  remove_all (ps ++ qs) dir = remove_all qs (remove_all ps dir).
Proof. apply foldl_app. Qed.

Lemma forEach_app {A} (f : A → gmap string Stats → gmap string Stats * option JsThrown)
    (l1 l2 : list A) (dir : gmap string Stats) :
  forEach f (l1 ++ l2) dir
  = match forEach f l1 dir with
    | (dir', None) => forEach f l2 dir'
    | thrown => thrown
    end.
Proof.
  revert dir. induction l1 as [|x l1 IH]; intros dir; simpl; [done|].
  destruct (f x dir) as [dir' [e|]]; [done|]. apply IH.
Qed.

(** The second loop visits every file and unlinks the expired ones: it
    is the first loop run on the expired files. *)
Lemma forEach_if (c : File → bool) (l : list File) (dir : gmap string Stats) :
  forEach (λ file d, if c file then unlinkSync (path file) d else (d, None)) l dir
  = forEach (λ file, unlinkSync (path file)) (filter (λ f, c f) l) dir.
Proof.
  revert dir. induction l as [|x l IH]; intros dir; [done|].
  rewrite filter_cons. cbn [forEach]. destruct (c x); simpl.
  - destruct (unlinkSync (path x) dir) as [dir' [e|]]; [done|]. apply IH.
  - apply IH.
Qed.

(** Unlinking distinct paths that all exist never throws. *)
Lemma forEach_unlink_present (l : list File) (dir : gmap string Stats) :
  NoDup (path <$> l) →
  (∀ f, f ∈ l → is_Some (dir !! path f)) →
  forEach (λ file, unlinkSync (path file)) l dir = (remove_all (path <$> l) dir, None).
Proof.
  revert dir. induction l as [|x l IH]; intros dir Hnd Hin; [done|].
  simpl. unfold unlinkSync at 1.
  destruct (Hin x) as [st Hst]; [by left|]. rewrite Hst.
  rewrite fmap_cons in Hnd. apply NoDup_cons in Hnd as [Hx Hnd].
  rewrite IH; [done|done|].
  intros f Hf. rewrite lookup_delete_ne; [apply Hin; by right|].
  intros Heq. apply Hx. rewrite Heq. apply list_elem_of_fmap. by exists f.
Qed.

(** Unlinking a path that is gone throws at once. *)
Lemma forEach_unlink_missing (x : File) (l : list File) (dir : gmap string Stats) :
  dir !! path x = None →
  forEach (λ file, unlinkSync (path file)) (x :: l) dir = (dir, Some (ENOENT (path x))).
Proof. intros Hx. simpl. unfold unlinkSync. by rewrite Hx. Qed.

(** *** The listing *)

Lemma path_to_file (e : string * Stats) : path (to_file e) = e.1.
Proof. done. Qed.

Lemma list_files_elem_of (dir : gmap string Stats) (f : File) :
  f ∈ list_files dir
  ↔ ∃ n st, dir !! n = Some st ∧ is_backup (n, st) = true ∧ f = to_file (n, st).
Proof.
  unfold list_files. rewrite sort_elem_of, list_elem_of_fmap. split.
  - intros [[n st] [-> [Hb Hin]%list_elem_of_filter]].
    apply elem_of_map_to_list in Hin. exists n, st. split_and!; [done| |done].
    by apply Is_true_true.
  - intros (n & st & Hl & Hb & ->). exists (n, st). split; [done|].
    apply list_elem_of_filter. split; [by apply Is_true_true|].
    by apply elem_of_map_to_list.
Qed.

Lemma list_files_NoDup_path (dir : gmap string Stats) :
  NoDup (path <$> list_files dir).
Proof.
  unfold list_files. rewrite sort_perm. rewrite <- list_fmap_compose.
  apply (sublist_NoDup _ ((map_to_list dir).*1)).
  - apply NoDup_fst_map_to_list.
  - erewrite (list_fmap_ext (path ∘ to_file) fst); [|by intros ? [? ?] ?].
    apply fmap_sublist, sublist_filter.
Qed.

Lemma list_files_NoDup (dir : gmap string Stats) : NoDup (list_files dir).
Proof. eapply NoDup_fmap_1, list_files_NoDup_path. Qed.

Lemma list_files_present (dir : gmap string Stats) (f : File) :
  f ∈ list_files dir → is_Some (dir !! path f).
Proof. intros (n & st & Hl & _ & ->)%list_files_elem_of. by exists st. Qed.

Lemma NoDup_fmap_elem_inj {A B} (g : A → B) (l : list A) (x y : A) :
  NoDup (g <$> l) → x ∈ l → y ∈ l → g x = g y → x = y.
Proof.
  induction l as [|z l IH]; intros Hnd Hx Hy Heq; [by apply elem_of_nil in Hx|].
  rewrite fmap_cons in Hnd. apply NoDup_cons in Hnd as [Hz Hnd].
  apply elem_of_cons in Hx as [->|Hx]; apply elem_of_cons in Hy as [->|Hy]; auto.
  - exfalso. apply Hz. rewrite Heq. apply list_elem_of_fmap. by exists y.
  - exfalso. apply Hz. rewrite <- Heq. apply list_elem_of_fmap. by exists x.
Qed.

Lemma list_files_path_inj (dir : gmap string Stats) (f g : File) :
  f ∈ list_files dir → g ∈ list_files dir → path f = path g → f = g.
Proof. apply NoDup_fmap_elem_inj, list_files_NoDup_path. Qed.
Lemma newer_first_asym (a b : File) :
  newer_first a b = true → newer_first b a = false.
Proof. unfold newer_first. rewrite Z.ltb_lt, Z.ltb_ge. lia. Qed.

Lemma newer_first_negtrans (a b c : File) :
  newer_first a b = false → newer_first b c = false → newer_first a c = false.
Proof. unfold newer_first. rewrite !Z.ltb_ge. lia. Qed.

Lemma list_files_ordered (dir : gmap string Stats) :
  Order.ordered newer_first (list_files dir).
Proof.
  apply sort_ordered; [apply newer_first_asym|apply newer_first_negtrans].
Qed.

End Sweep.

Section Sweep_spec.
Import Backup.
Variables (cfg : Config) (now : Z).
Hypothesis max_nonneg : 0 ≤ MAX_BACKUPS cfg.

Local Abbreviation m := (Z.to_nat (MAX_BACKUPS cfg)).
Local Abbreviation old := (λ f : File, Is_true (expired cfg now f)).

Lemma elem_of_take_files (dir : gmap string Stats) (f : File) :
  f ∈ take m (list_files dir) → f ∈ list_files dir.
Proof. intros Hf. eapply elem_of_sublist; [exact Hf|apply sublist_take]. Qed.

Lemma elem_of_drop_files (dir : gmap string Stats) (f : File) :
  f ∈ drop m (list_files dir) → f ∈ list_files dir.
Proof. intros Hf. eapply elem_of_sublist; [exact Hf|apply sublist_drop]. Qed.

Lemma take_drop_disjoint (dir : gmap string Stats) (f g : File) :
  f ∈ take m (list_files dir) → g ∈ drop m (list_files dir) → path f ≠ path g.
Proof.
  intros Hf Hg Heq.
  pose proof (list_files_NoDup dir) as Hnd.
  rewrite <- (take_drop m (list_files dir)) in Hnd.
  apply NoDup_app in Hnd as (_ & Hdisj & _).
  apply (Hdisj f Hf).
  rewrite (list_files_path_inj dir f g); auto using elem_of_take_files, elem_of_drop_files.
Qed.

(** The first loop: the files past the first [MAX_BACKUPS] are all
    there, so it removes them and does not throw. *)
Lemma count_pass (dir : gmap string Stats) :
  (if MAX_BACKUPS cfg <? Z.of_nat (length (list_files dir))
   then forEach (λ file, unlinkSync (path file))
          (slice (MAX_BACKUPS cfg) (list_files dir)) dir
   else (dir, None))
  = (remove_all (path <$> drop m (list_files dir)) dir, None).
Proof.
  destruct (MAX_BACKUPS cfg <? Z.of_nat (length (list_files dir))) eqn:E.
  - apply Z.ltb_lt in E. unfold slice.
    replace (MAX_BACKUPS cfg <? 0) with false by (symmetry; apply Z.ltb_ge; lia).
    rewrite Z.min_l by lia.
    apply forEach_unlink_present.
    + eapply sublist_NoDup; [apply (list_files_NoDup_path dir)|].
      apply fmap_sublist, sublist_drop.
    + intros f Hf. by apply list_files_present, elem_of_drop_files.
  - apply Z.ltb_ge in E. rewrite drop_ge by lia. done.
Qed.

(** What the sweep leaves and whether it throws. *)
Lemma cleanOldBackups_spec (dir : gmap string Stats) :
  cleanOldBackups cfg now dir
  = (remove_all
       (path <$> (drop m (list_files dir) ++ filter old (take m (list_files dir)))) dir,
     ENOENT <$> head (path <$> filter old (drop m (list_files dir)))).
Proof.
  unfold cleanOldBackups. rewrite count_pass, forEach_if.
  rewrite <- (take_drop m (list_files dir)) at 1.
  rewrite filter_app, forEach_app.
  rewrite forEach_unlink_present.
  - rewrite fmap_app, remove_all_app.
    destruct (filter old (drop m (list_files dir))) as [|x l] eqn:Hx; [done|].
    apply forEach_unlink_missing.
    rewrite !remove_all_lookup.
    assert (x ∈ drop m (list_files dir)) as Hxin.
    { eapply (list_elem_of_filter old). rewrite Hx. by left. }
    case_decide; [done|].
    rewrite decide_True; [done|]. apply list_elem_of_fmap. by exists x.
  - eapply sublist_NoDup; [apply (list_files_NoDup_path dir)|].
    apply fmap_sublist. etrans; [apply sublist_filter|apply sublist_take].
  - intros f [_ Hf]%list_elem_of_filter. rewrite remove_all_lookup.
    rewrite decide_False; [by apply list_files_present, elem_of_take_files|].
    intros (g & Heq & Hg)%list_elem_of_fmap.
    by apply (take_drop_disjoint dir f g).
Qed.

(** The archives that are left: those among the [MAX_BACKUPS] most
    recent that have not expired. *)
Lemma survivors_elem_of (dir : gmap string Stats) (f : File) :
  f ∈ list_files (cleanOldBackups cfg now dir).1
  ↔ f ∈ take m (list_files dir) ∧ ¬ old f.
Proof.
  rewrite cleanOldBackups_spec. simpl. rewrite list_files_elem_of. split.
  - intros (n & st & Hl & Hb & ->). rewrite remove_all_lookup in Hl.
    case_decide as Hn; [done|].
    assert (to_file (n, st) ∈ list_files dir) as Hin.
    { apply list_files_elem_of. by exists n, st. }
    rewrite <- (take_drop m (list_files dir)) in Hin.
    apply elem_of_app in Hin as [Hin|Hin].
    + split; [done|]. intros Hold. apply Hn.
      apply list_elem_of_fmap. exists (to_file (n, st)). split; [done|].
      apply elem_of_app; right. by apply list_elem_of_filter.
    + exfalso. apply Hn. apply list_elem_of_fmap. exists (to_file (n, st)).
      split; [done|]. by apply elem_of_app; left.
  - intros [Hf Hold].
    pose proof (elem_of_take_files dir f Hf) as Hin.
    apply list_files_elem_of in Hin as (n & st & Hl & Hb & ->).
    exists n, st. split_and!; [|done|done].
    rewrite remove_all_lookup, decide_False; [done|].
    intros (g & Heq & [Hg|Hg]%elem_of_app)%list_elem_of_fmap.
    + by apply (take_drop_disjoint dir (to_file (n, st)) g).
    + apply list_elem_of_filter in Hg as [Hgold Hg].
      rewrite (list_files_path_inj dir (to_file (n, st)) g) in Hold;
        auto using elem_of_take_files.
Qed.

Lemma survivors_perm (dir : gmap string Stats) :
  list_files (cleanOldBackups cfg now dir).1
  ≡ₚ filter (λ f, ¬ old f) (take m (list_files dir)).
Proof.
  apply NoDup_Permutation.
  - apply list_files_NoDup.
  - apply NoDup_filter. eapply sublist_NoDup; [apply (list_files_NoDup dir)|].
    apply sublist_take.
  - intros f. rewrite survivors_elem_of, list_elem_of_filter. tauto.
Qed.

(** Files that are not archives are left alone. *)
Lemma sweep_keeps_others (dir : gmap string Stats) (n : string) (st : Stats) :
  dir !! n = Some st → is_backup (n, st) = false →
  (cleanOldBackups cfg now dir).1 !! n = Some st.
Proof.
  intros Hl Hb. rewrite cleanOldBackups_spec. simpl.
  rewrite remove_all_lookup, decide_False; [done|].
  intros (g & Heq & Hg)%list_elem_of_fmap.
  assert (g ∈ list_files dir) as Hin.
  { apply elem_of_app in Hg as [Hg|[_ Hg]%list_elem_of_filter];
      eauto using elem_of_take_files, elem_of_drop_files. }
  apply list_files_elem_of in Hin as (n' & st' & Hl' & Hb' & ->).
  simpl in Heq. subst n'. rewrite Hl in Hl'. injection Hl' as <-. congruence.
Qed.

Lemma survivors_count (dir : gmap string Stats) :
  (length (list_files (cleanOldBackups cfg now dir).1) ≤ m)%nat.
Proof.
  rewrite survivors_perm.
  pose proof (length_filter (λ f, ¬ old f) (take m (list_files dir))) as H.
  rewrite length_take in H. lia.
Qed.

(** A directory that already meets both rules is left as it is. *)
Lemma sweep_nothing_to_do (dir : gmap string Stats) :
  (length (list_files dir) ≤ m)%nat →
  (∀ f, f ∈ list_files dir → ¬ old f) →
  cleanOldBackups cfg now dir = (dir, None).
Proof.
  intros Hlen Hyoung. rewrite cleanOldBackups_spec.
  rewrite drop_ge, take_ge by done. simpl.
  destruct (filter old (list_files dir)) as [|f l] eqn:Hf; [done|].
  assert (f ∈ filter old (list_files dir)) as [Hold Hin]%list_elem_of_filter
    by (rewrite Hf; by left).
  by destruct (Hyoung f).
Qed.
End Sweep_spec.

(** *** The rank of an archive in the listing *)

Section Sweep_rank.
Import Backup.

Lemma length_filter_fmap {A B} (f : A → B) (P : B → Prop) `{∀ x, Decision (P x)}
    (l : list A) :
  length (filter P (f <$> l)) = length (filter (λ x, P (f x)) l).
Proof.
  induction l as [|a l IH]; [done|].
  rewrite fmap_cons, !filter_cons. destruct (decide (P (f a))); simpl; by rewrite IH.
Qed.

Lemma artifacts_listed (dir : gmap string Stats) :
  filter (λ e, is_backup e) (map_to_list dir) = Retention.artifacts dir.
Proof.
  unfold Retention.artifacts. apply list_filter_iff. intros e.
  unfold Retention.artifact, is_backup. apply Is_true_true.
Qed.

Lemma elem_of_artifacts (dir : gmap string Stats) (n : string) (st : Stats) :
  (n, st) ∈ Retention.artifacts dir
  ↔ dir !! n = Some st ∧ endsWith n ".sql.gz" = true.
Proof.
  unfold Retention.artifacts. rewrite list_elem_of_filter, elem_of_map_to_list.
  unfold Retention.artifact. simpl. tauto.
Qed.

Lemma artifact_listed (dir : gmap string Stats) (n : string) (st : Stats) :
  (n, st) ∈ Retention.artifacts dir ↔ to_file (n, st) ∈ list_files dir ∧ dir !! n = Some st.
Proof.
  rewrite elem_of_artifacts, list_files_elem_of. split.
  - intros [Hl Hb]. split; [|done]. by exists n, st.
  - intros [(n' & st' & Hl' & Hb & Heq) Hl]. split; [done|].
    apply (f_equal path) in Heq. simpl in Heq. subst n'. exact Hb.
Qed.

(** Counting in the listing is counting among the artifacts. *)
Lemma list_files_count (P : File → Prop) `{∀ f, Decision (P f)}
    (dir : gmap string Stats) :
  length (filter P (list_files dir))
  = length (filter (λ e, P (to_file e)) (Retention.artifacts dir)).
Proof.
  unfold list_files. rewrite sort_perm, length_filter_fmap.
  by rewrite artifacts_listed.
Qed.

Lemma length_artifacts (dir : gmap string Stats) :
  length (Retention.artifacts dir) = length (list_files dir).
Proof.
  unfold list_files. by rewrite sort_length, length_fmap, artifacts_listed.
Qed.

(** The archives modified after the one of rank [i] all come before it. *)
Lemma rank_newer (dir : gmap string Stats) (i : nat) (f : File) :
  list_files dir !! i = Some f →
  (length (filter (λ g, (time f < time g)%Z) (list_files dir)) ≤ i)%nat.
Proof.
  intros Hi. pose proof (list_files_ordered dir) as Hord.
  rewrite <- (take_drop i (list_files dir)) at 1.
  rewrite filter_app, length_app.
  assert (filter (λ g, time f < time g) (drop i (list_files dir)) = []) as ->.
  { apply filter_nil_iff. intros g Hg.
    rewrite (drop_S _ _ _ Hi) in Hg. apply elem_of_cons in Hg as [->|Hg]; [lia|].
    rewrite <- (take_drop (S i) (list_files dir)) in Hord.
    assert (newer_first g f = false) as Hgf.
    { apply (ordered_app newer_first _ _ f g Hord); [|done].
      apply elem_of_take. exists i. split; [done|lia]. }
    unfold newer_first in Hgf. apply Z.ltb_ge in Hgf. lia. }
  pose proof (length_filter (λ g, time f < time g) (take i (list_files dir))) as Hle.
  rewrite length_take in Hle. simpl. lia.
Qed.

(** The archives before the one of rank [i] are other archives, modified
    at the same time or later. *)
Lemma rank_as_new (dir : gmap string Stats) (i : nat) (f : File) :
  list_files dir !! i = Some f →
  (i ≤ length (filter (λ g, path g ≠ path f ∧ (time f ≤ time g)%Z) (list_files dir)))%nat.
Proof.
  intros Hi. pose proof (list_files_ordered dir) as Hord.
  pose proof (lookup_lt_Some _ _ _ Hi) as Hlt.
  assert (take i (list_files dir)
          ⊆+ filter (λ g, path g ≠ path f ∧ time f ≤ time g) (list_files dir)) as Hsub.
  { apply NoDup_submseteq.
    - eapply sublist_NoDup; [apply (list_files_NoDup dir)|apply sublist_take].
    - intros g Hg. pose proof Hg as Hj. apply elem_of_take in Hj as (j & Hj & Hji).
      assert (g ∈ list_files dir) as Hin by (apply list_elem_of_lookup; by exists j).
      apply list_elem_of_filter. split; [|done]. split.
      + intros Heq.
        assert (g = f) as ->.
        { apply (list_files_path_inj dir); [done| |done].
          apply list_elem_of_lookup. by exists i. }
        pose proof (NoDup_lookup _ _ _ _ (list_files_NoDup dir) Hj Hi). lia.
      + rewrite <- (take_drop i (list_files dir)) in Hord.
        assert (newer_first f g = false) as Hfg.
        { apply (ordered_app newer_first _ _ g f Hord); [done|].
          rewrite (drop_S _ _ _ Hi). by left. }
        unfold newer_first in Hfg. apply Z.ltb_ge in Hfg. lia. }
  apply submseteq_length in Hsub. rewrite length_take in Hsub. lia.
Qed.

Lemma expired_too_old (cfg : Config) (now : Z) (n : string) (st : Stats) :
  Is_true (expired cfg now (to_file (n, st))) ↔ Retention.too_old cfg now st.
Proof.
  unfold expired, Retention.too_old, retentionMs. simpl.
  rewrite Is_true_true, Z.ltb_lt. lia.
Qed.
End Sweep_rank.

Section Sweep_claims.
Import Backup.

(** C7: with a non-negative [MAX_BACKUPS], whatever [RETENTION_DAYS] is
    and whether the sweep returns or throws: at most [MAX_BACKUPS]
    artifacts are left in the directory and none of them is older than
    the retention time; nothing is added or altered; an artifact with
    [MAX_BACKUPS] or more artifacts modified after it is deleted, and so
    is an artifact older than the retention time; an artifact that is
    not too old and has fewer than [MAX_BACKUPS] other artifacts modified
    at its time or later stays; the other files stay.  The sweep throws
    when some artifact is too old and has [MAX_BACKUPS] or more artifacts
    modified after it, and returns normally when every artifact that is
    too old has fewer than [MAX_BACKUPS] others modified at its time or
    later. *)
Theorem sweep_retention (cfg : Config) (now : Z) (dir : gmap string Stats) :
  0 ≤ MAX_BACKUPS cfg →
  let dir' := (cleanOldBackups cfg now dir).1 in
  Z.of_nat (length (Retention.artifacts dir')) ≤ MAX_BACKUPS cfg
  ∧ (∀ n st, (n, st) ∈ Retention.artifacts dir' → ¬ Retention.too_old cfg now st)
  ∧ (∀ n st, dir' !! n = Some st → dir !! n = Some st)
  ∧ (∀ n st, (n, st) ∈ Retention.artifacts dir →
       MAX_BACKUPS cfg ≤ Z.of_nat (length (Retention.newer (mtime st) dir))
       ∨ Retention.too_old cfg now st →
       dir' !! n = None)
  ∧ (∀ n st, (n, st) ∈ Retention.artifacts dir →
       Z.of_nat (length (Retention.others_as_new n (mtime st) dir)) < MAX_BACKUPS cfg →
       ¬ Retention.too_old cfg now st →
       dir' !! n = Some st)
  ∧ (∀ n st, dir !! n = Some st → ¬ Retention.artifact (n, st) → dir' !! n = Some st)
  ∧ ((∃ n st, (n, st) ∈ Retention.artifacts dir
              ∧ Retention.too_old cfg now st
              ∧ MAX_BACKUPS cfg ≤ Z.of_nat (length (Retention.newer (mtime st) dir))) →
     (cleanOldBackups cfg now dir).2 ≠ None)
  ∧ ((∀ n st, (n, st) ∈ Retention.artifacts dir → Retention.too_old cfg now st →
              Z.of_nat (length (Retention.others_as_new n (mtime st) dir))
              < MAX_BACKUPS cfg) →
     (cleanOldBackups cfg now dir).2 = None).
Proof.
  intros Hmax dir'. set (m := Z.to_nat (MAX_BACKUPS cfg)).
  assert (Hsame : ∀ n st, dir' !! n = Some st → dir !! n = Some st).
  { intros n st. subst dir'. rewrite (cleanOldBackups_spec cfg now Hmax). simpl.
    rewrite remove_all_lookup. by case_decide. }
  assert (Hkept : ∀ n st, (n, st) ∈ Retention.artifacts dir →
            (dir' !! n = Some st
             ↔ to_file (n, st) ∈ take m (list_files dir)
               ∧ ¬ Retention.too_old cfg now st)).
  { intros n st Hin. pose proof Hin as [Hl Hb]%elem_of_artifacts. split.
    - intros Hl'.
      assert (to_file (n, st) ∈ list_files dir') as Hk.
      { apply list_files_elem_of. by exists n, st. }
      apply (survivors_elem_of cfg now Hmax) in Hk as [Ht Hy]. split; [done|].
      intros Ho. apply Hy. exact (proj2 (expired_too_old cfg now n st) Ho).
    - intros [Ht Hy].
      assert (to_file (n, st) ∈ list_files dir') as Hk.
      { apply (survivors_elem_of cfg now Hmax). split; [done|].
        intros Ho. apply Hy. exact (proj1 (expired_too_old cfg now n st) Ho). }
      apply list_files_elem_of in Hk as (n' & st' & Hl' & _ & Heq).
      apply (f_equal path) in Heq. simpl in Heq. subst n'.
      pose proof (Hsame _ _ Hl'). congruence. }
  assert (Hnewer : ∀ n st, length (Retention.newer (mtime st) dir)
            = length (filter (λ g, time (to_file (n, st)) < time g) (list_files dir))).
  { intros n st. by rewrite list_files_count. }
  assert (Hothers : ∀ n st, length (Retention.others_as_new n (mtime st) dir)
            = length (filter (λ g, path g ≠ path (to_file (n, st))
                                   ∧ time (to_file (n, st)) ≤ time g) (list_files dir))).
  { intros n st. by rewrite list_files_count. }
  split_and!.
  - rewrite length_artifacts.
    pose proof (survivors_count cfg now Hmax dir). fold dir' in H. lia.
  - intros n st [Hf _]%artifact_listed.
    apply (survivors_elem_of cfg now Hmax) in Hf as [_ Hyoung].
    intros Ho. apply Hyoung. exact (proj2 (expired_too_old cfg now n st) Ho).
  - exact Hsame.
  - intros n st Hin Hor.
    destruct (dir' !! n) as [st'|] eqn:Hl'; [exfalso|done].
    pose proof (Hsame _ _ Hl') as Hl. apply elem_of_artifacts in Hin as Hin'.
    destruct Hin' as [Hl0 _]. rewrite Hl0 in Hl. injection Hl as <-.
    apply (Hkept n st Hin) in Hl' as [Htake Hyoung].
    destruct Hor as [Hrank|Hold]; [|done].
    apply elem_of_take in Htake as (i & Hi & Him).
    pose proof (rank_newer dir i _ Hi). rewrite (Hnewer n st) in Hrank. lia.
  - intros n st Hin Hrank Hyoung.
    apply (Hkept n st Hin). split; [|done].
    pose proof Hin as [Hf _]%artifact_listed.
    apply list_elem_of_lookup in Hf as [i Hi].
    apply elem_of_take. exists i. split; [done|].
    pose proof (rank_as_new dir i _ Hi). rewrite (Hothers n st) in Hrank. lia.
  - intros n st Hl Hb. apply (sweep_keeps_others cfg now Hmax); [done|].
    unfold Retention.artifact, is_backup in *. simpl in *.
    by destruct (endsWith n ".sql.gz").
  - intros (n & st & Hin & Hold & Hrank).
    rewrite (cleanOldBackups_spec cfg now Hmax). simpl. fold m.
    pose proof Hin as [Hf _]%artifact_listed.
    apply list_elem_of_lookup in Hf as [i Hi].
    pose proof (rank_newer dir i _ Hi). rewrite (Hnewer n st) in Hrank.
    assert (to_file (n, st) ∈ filter (λ f, Is_true (expired cfg now f))
                                (drop m (list_files dir))) as Hthrown.
    { apply list_elem_of_filter.
      split; [exact (proj2 (expired_too_old cfg now n st) Hold)|].
      apply list_elem_of_lookup. exists (i - m)%nat. rewrite lookup_drop.
      by replace (m + (i - m))%nat with i by lia. }
    destruct (filter _ (drop m (list_files dir))); [by apply elem_of_nil in Hthrown|done].
  - intros Hall.
    rewrite (cleanOldBackups_spec cfg now Hmax). simpl. fold m.
    destruct (filter (λ f, Is_true (expired cfg now f)) (drop m (list_files dir)))
      as [|g l] eqn:Hg; [done|exfalso].
    assert (g ∈ filter (λ f, Is_true (expired cfg now f)) (drop m (list_files dir)))
      as [Hold Hin]%list_elem_of_filter by (rewrite Hg; by left).
    apply list_elem_of_lookup in Hin as [j Hj]. rewrite lookup_drop in Hj.
    assert (g ∈ list_files dir) as Hgin by (apply list_elem_of_lookup; by eexists).
    apply list_files_elem_of in Hgin as (n & st & Hl & Hb & ->).
    assert ((n, st) ∈ Retention.artifacts dir) as Hart by (by apply elem_of_artifacts).
    pose proof (Hall n st Hart (proj1 (expired_too_old cfg now n st) Hold)) as Hrank.
    pose proof (rank_as_new dir _ _ Hj). rewrite (Hothers n st) in Hrank. lia.
Qed.

Lemma sweep_retention_witness :
  0 ≤ MAX_BACKUPS default_config
  ∧ Z.of_nat (length (Retention.artifacts
       (cleanOldBackups default_config Examples.week_later Examples.six).1))
    ≤ MAX_BACKUPS default_config.
Proof.
  assert (H0 : 0 ≤ MAX_BACKUPS default_config) by done.
  split; [exact H0|].
  pose proof (sweep_retention default_config Examples.week_later Examples.six H0) as H.
  cbv zeta in H. destruct H as [H _]. exact H.
Defined.

(** Six archives younger than the retention time, [MAX_BACKUPS] 5: the
    oldest one is removed and the sweep returns. *)
Example six_archives_keep_five :
  name <$> list_files (cleanOldBackups default_config 10 Examples.six).1
  = ["f.sql.gz"; "e.sql.gz"; "d.sql.gz"; "c.sql.gz"; "b.sql.gz"]
  ∧ (cleanOldBackups default_config 10 Examples.six).2 = None.
Proof. split; vm_compute; reflexivity. Qed.

(** One week later [a] and [b] have expired: [a], past the first five, is
    unlinked twice and the sweep throws; [b] is gone as well. *)
Example six_archives_one_week_later :
  name <$> list_files (cleanOldBackups default_config Examples.week_later Examples.six).1
  = ["f.sql.gz"; "e.sql.gz"; "d.sql.gz"; "c.sql.gz"]
  ∧ (cleanOldBackups default_config Examples.week_later Examples.six).2
    = Some (ENOENT "a.sql.gz").
Proof. split; vm_compute; reflexivity. Qed.

(** A second sweep at any later clock reading does not throw either: it
    has no archive past the first [MAX_BACKUPS] to meet twice. *)
Lemma second_sweep_returns (cfg : Config) (now now' : Z) (dir : gmap string Stats) :
  0 ≤ MAX_BACKUPS cfg →
  (cleanOldBackups cfg now' (cleanOldBackups cfg now dir).1).2 = None.
Proof.
  intros Hmax. rewrite (cleanOldBackups_spec cfg now' Hmax). simpl.
  rewrite drop_ge; [done|]. apply (survivors_count cfg now Hmax).
Qed.

(** C9, as the code has it: with a non-negative [MAX_BACKUPS], a second
    sweep, which reads the clock again, at the same time or later,
    returns normally and leaves what a single sweep at the second clock
    reading leaves, whether the first sweep returned or threw.  It
    leaves what the first sweep left when no artifact the first sweep
    left has become too old in between; at the same clock reading that
    is always so. *)
Theorem sweep_idempotent (cfg : Config) (now now' : Z) (dir : gmap string Stats) :
  0 ≤ MAX_BACKUPS cfg →
  now ≤ now' →
  cleanOldBackups cfg now' (cleanOldBackups cfg now dir).1
  = ((cleanOldBackups cfg now' dir).1, None)
  ∧ ((∀ n st, (n, st) ∈ Retention.artifacts (cleanOldBackups cfg now dir).1 →
              ¬ Retention.too_old cfg now' st) →
     cleanOldBackups cfg now' (cleanOldBackups cfg now dir).1
     = ((cleanOldBackups cfg now dir).1, None))
  ∧ cleanOldBackups cfg now (cleanOldBackups cfg now dir).1
    = ((cleanOldBackups cfg now dir).1, None).
Proof.
  intros Hmax Hlater. set (m := Z.to_nat (MAX_BACKUPS cfg)).
  assert (Hsame : ∀ t, (∀ f, f ∈ list_files (cleanOldBackups cfg now dir).1 →
                             ¬ expired cfg t f) →
            cleanOldBackups cfg t (cleanOldBackups cfg now dir).1
            = ((cleanOldBackups cfg now dir).1, None)).
  { intros t Hyoung. apply (sweep_nothing_to_do cfg t Hmax); [|done].
    apply (survivors_count cfg now Hmax). }
  split_and!.
  - apply injective_projections; [|by apply second_sweep_returns].
    cbn [fst]. apply map_eq. intros k.
    assert (HD1 : (cleanOldBackups cfg now dir).1 !! k
                  = if decide (k ∈ path <$> drop m (list_files dir)
                                   ++ filter (λ f, Is_true (expired cfg now f))
                                        (take m (list_files dir)))
                    then None else dir !! k).
    { rewrite (cleanOldBackups_spec cfg now Hmax dir). apply remove_all_lookup. }
    pose proof (survivors_count cfg now Hmax dir) as Hcount. fold m in Hcount.
    revert HD1 Hcount. generalize (survivors_elem_of cfg now Hmax dir). fold m.
    set (D1 := (cleanOldBackups cfg now dir).1). intros Hsurv HD1 Hcount.
    assert (E2 : (cleanOldBackups cfg now' D1).1
                 = remove_all (path <$> filter (λ f, Is_true (expired cfg now' f))
                                          (list_files D1)) D1).
    { rewrite (cleanOldBackups_spec cfg now' Hmax D1). cbn [fst]. fold m.
      by rewrite (drop_ge _ _ Hcount), (take_ge _ _ Hcount). }
    rewrite E2, (cleanOldBackups_spec cfg now' Hmax dir). cbn [fst]. fold m.
    rewrite !remove_all_lookup, HD1.
    assert (Hmono : ∀ f, Is_true (expired cfg now f) → Is_true (expired cfg now' f)).
    { intros f. unfold expired. rewrite !Is_true_true, !Z.ltb_lt. lia. }
    destruct (decide (k ∈ path <$> drop m (list_files dir)
                          ++ filter (λ f, Is_true (expired cfg now' f))
                               (take m (list_files dir)))) as [Hin|Hout].
    + destruct (decide (k ∈ path <$> filter _ (list_files D1))) as [H1|H1]; [done|].
      destruct (decide (k ∈ path <$> drop m (list_files dir) ++ _)) as [H2|H2]; [done|].
      exfalso.
      apply list_elem_of_fmap in Hin
        as (f & -> & [Hf|[Hold Hf]%list_elem_of_filter]%elem_of_app).
      * apply H2, list_elem_of_fmap. exists f. split; [done|]. by apply elem_of_app; left.
      * destruct (decide (Is_true (expired cfg now f))) as [Ho|Hy].
        -- apply H2, list_elem_of_fmap. exists f. split; [done|].
           apply elem_of_app; right. by apply list_elem_of_filter.
        -- apply H1, list_elem_of_fmap. exists f. split; [done|].
           apply list_elem_of_filter. split; [done|]. by apply Hsurv.
    + destruct (decide (k ∈ path <$> filter _ (list_files D1))) as [H1|H1].
      { exfalso. apply Hout.
        apply list_elem_of_fmap in H1 as (f & -> & [Hold Hf]%list_elem_of_filter).
        apply Hsurv in Hf as [Hf _].
        apply list_elem_of_fmap. exists f. split; [done|].
        apply elem_of_app; right. by apply list_elem_of_filter. }
      destruct (decide (k ∈ path <$> drop m (list_files dir) ++ _)) as [H2|H2]; [|done].
      exfalso. apply Hout.
      apply list_elem_of_fmap in H2
        as (f & -> & [Hf|[Hold Hf]%list_elem_of_filter]%elem_of_app).
      * apply list_elem_of_fmap. exists f. split; [done|]. by apply elem_of_app; left.
      * apply list_elem_of_fmap. exists f. split; [done|].
        apply elem_of_app; right. apply list_elem_of_filter. split; [by apply Hmono|done].
  - intros Hyoung. apply Hsame. intros f Hf Hold.
    pose proof Hf as (n & st & Hl & Hb & ->)%list_files_elem_of.
    apply (Hyoung n st); [by apply elem_of_artifacts|].
    exact (proj1 (expired_too_old cfg now' n st) Hold).
  - apply Hsame. intros f Hf. by apply (survivors_elem_of cfg now Hmax) in Hf as [_ Hyoung].
Qed.

Lemma sweep_idempotent_witness :
  0 ≤ MAX_BACKUPS default_config
  ∧ Examples.week_later ≤ Examples.week_later + 2
  ∧ cleanOldBackups default_config (Examples.week_later + 2)
      (cleanOldBackups default_config Examples.week_later Examples.six).1
    = ((cleanOldBackups default_config (Examples.week_later + 2) Examples.six).1, None).
Proof.
  assert (H1 : 0 ≤ MAX_BACKUPS default_config) by done.
  assert (H2 : Examples.week_later ≤ Examples.week_later + 2) by lia.
  split_and!; [exact H1|exact H2|].
  apply (sweep_idempotent default_config Examples.week_later (Examples.week_later + 2)
           Examples.six H1 H2).
Defined.

(** C9 as stated fails: the second sweep reads the clock again.  Of the
    four archives the first sweep leaves, two have become older than
    seven days two milliseconds later, and the second sweep removes
    them. *)
Lemma second_sweep_removes_more :
  let once := (cleanOldBackups default_config Examples.week_later Examples.six).1 in
  let twice := (cleanOldBackups default_config (Examples.week_later + 2) once).1 in
  name <$> list_files once = ["f.sql.gz"; "e.sql.gz"; "d.sql.gz"; "c.sql.gz"]
  ∧ name <$> list_files twice = ["f.sql.gz"; "e.sql.gz"]
  ∧ twice ≠ once.
Proof.
  split_and!; [vm_compute; reflexivity..|].
  intros H. apply (f_equal (λ d, d !! "c.sql.gz")) in H. vm_compute in H. discriminate.
Qed.

(** The sweep throws when an archive past the first [MAX_BACKUPS] has
    expired: the first such archive was unlinked by the first loop and
    is unlinked again by the second. *)
Lemma sweep_throws (cfg : Config) (now : Z) (dir : gmap string Stats) (i : nat) (f : File) :
  0 ≤ MAX_BACKUPS cfg →
  list_files dir !! i = Some f →
  (Z.to_nat (MAX_BACKUPS cfg) ≤ i)%nat →
  expired cfg now f = true →
  ∃ g, g ∈ slice (MAX_BACKUPS cfg) (list_files dir)
       ∧ expired cfg now g = true
       ∧ is_Some (dir !! path g)
       ∧ (cleanOldBackups cfg now dir).1 !! path g = None
       ∧ (cleanOldBackups cfg now dir).2 = Some (ENOENT (path g)).
Proof.
  intros Hmax Hi Hrank Hold.
  rewrite (cleanOldBackups_spec cfg now Hmax). simpl.
  set (m := Z.to_nat (MAX_BACKUPS cfg)) in *.
  assert (f ∈ drop m (list_files dir)) as Hf.
  { apply list_elem_of_lookup. exists (i - m)%nat.
    rewrite lookup_drop. by replace (m + (i - m))%nat with i by lia. }
  assert (slice (MAX_BACKUPS cfg) (list_files dir) = drop m (list_files dir)) as ->.
  { unfold slice.
    replace (MAX_BACKUPS cfg <? 0) with false by (symmetry; apply Z.ltb_ge; lia).
    apply lookup_lt_Some in Hi.
    rewrite Z.min_l; [done|]. subst m. lia. }
  destruct (filter (λ f0 : File, expired cfg now f0) (drop m (list_files dir)))
    as [|g l] eqn:Hg.
  - assert (f ∈ @nil File) as Hnil.
    { rewrite <- Hg. apply list_elem_of_filter. split; [by rewrite Hold|done]. }
    by apply elem_of_nil in Hnil.
  - assert (g ∈ filter (λ f0 : File, expired cfg now f0) (drop m (list_files dir)))
      as [Hgold Hgin]%list_elem_of_filter by (rewrite Hg; by left).
    exists g. split_and!; [done|by apply Is_true_true| | |done].
    + by apply list_files_present, (elem_of_drop_files cfg).
    + rewrite remove_all_lookup, decide_True; [done|].
      apply list_elem_of_fmap. exists g. split; [done|]. by apply elem_of_app; left.
Qed.
End Sweep_claims.

(** ** The backup run *)

Section Backup_run.
Import Backup.

Lemma failure_not_success (e : JsThrown) : success (failure e) = false.
Proof. done. Qed.

(** A run adds at most one row, the row of the backup it made. *)
Lemma backupDatabase_rows (cfg : Config) (run : Run) (w : World) :
  let r := backupDatabase cfg run w in
  (success r.2 = false ∧ system_status r.1 = system_status w)
  ∨ (success r.2 = true
     ∧ system_status r.1
       = system_status w
         ++ [Db.new_row (clock run) Db.backup (Db.J_backup_file (compressedPath run))
               (Some (clock run)) 0 None]).
Proof.
  unfold backupDatabase.
  destruct (dump_thrown run); [by left|].
  destruct (empty_or_missing _ _); [by left|].
  destruct (cleanOldBackups _ _ _) as [dir' [e|]]; [by left|].
  destruct (psql_thrown run); [by left|]. by right.
Qed.

(** When the archive is missing or empty the run stops there, or already
    at the rejected pipeline: no sweep, no row, and the directory is as the
    shell left it. *)
Lemma backupDatabase_empty (cfg : Config) (run : Run) (w : World) :
  empty_or_missing (compressedPath run) (after_dump run (backups w)) = true →
  backupDatabase cfg run w
  = ({| system_status := system_status w; backups := after_dump run (backups w) |},
     failure (default (JsError "Backup file is empty or was not created")
                (dump_thrown run))).
Proof.
  intros He. unfold backupDatabase. rewrite He. by destruct (dump_thrown run).
Qed.

(** C10: when, after a dump that produced a non-empty archive, some
    archive ranked past the first [MAX_BACKUPS] (most recent first) has
    also expired, the sweep unlinks one such archive in its first loop
    and again in its second, the second [unlinkSync] throws ENOENT, and
    [backupDatabase] reports a failure with that message and records no
    backup. *)
Theorem sweep_failure_fails_backup (cfg : Config) (run : Run) (w : World)
    (i : nat) (f : File) :
  0 ≤ MAX_BACKUPS cfg →
  dump_thrown run = None →
  empty_or_missing (compressedPath run) (after_dump run (backups w)) = false →
  list_files (after_dump run (backups w)) !! i = Some f →
  (Z.to_nat (MAX_BACKUPS cfg) ≤ i)%nat →
  expired cfg (sweep_now run) f = true →
  let dir := after_dump run (backups w) in
  ∃ g, g ∈ slice (MAX_BACKUPS cfg) (list_files dir)
       ∧ expired cfg (sweep_now run) g = true
       ∧ is_Some (dir !! path g)
       ∧ (cleanOldBackups cfg (sweep_now run) dir).2 = Some (ENOENT (path g))
       ∧ (backupDatabase cfg run w).2 = failure (ENOENT (path g))
       ∧ success (backupDatabase cfg run w).2 = false
       ∧ system_status (backupDatabase cfg run w).1 = system_status w.
Proof.
  intros Hmax Hd He Hi Hrank Hold dir.
  destruct (sweep_throws cfg (sweep_now run) dir i f Hmax Hi Hrank Hold)
    as (g & Hg & Hgold & Hgin & _ & Hthrow).
  exists g. split_and!; [done|done|done|done| | |].
  all: unfold backupDatabase; rewrite Hd, He; fold dir;
    destruct (cleanOldBackups cfg (sweep_now run) dir) as [dir' out];
    simpl in Hthrow; rewrite Hthrow; done.
Qed.

Lemma sweep_failure_fails_backup_witness :
  0 ≤ MAX_BACKUPS default_config
  ∧ list_files (after_dump Examples.late_run (backups Examples.six_world)) !! 5%nat
    = Some {| name := "b.sql.gz"; path := "b.sql.gz"; time := 2 |}
  ∧ expired default_config (sweep_now Examples.late_run)
      {| name := "b.sql.gz"; path := "b.sql.gz"; time := 2 |} = true
  ∧ success (backupDatabase default_config Examples.late_run Examples.six_world).2 = false.
Proof.
  assert (H0 : 0 ≤ MAX_BACKUPS default_config) by done.
  assert (H1 : dump_thrown Examples.late_run = None) by reflexivity.
  assert (H2 : empty_or_missing (compressedPath Examples.late_run)
                 (after_dump Examples.late_run (backups Examples.six_world)) = false)
    by (vm_compute; reflexivity).
  assert (H3 : list_files (after_dump Examples.late_run (backups Examples.six_world))
               !! 5%nat
               = Some {| name := "b.sql.gz"; path := "b.sql.gz"; time := 2 |})
    by (vm_compute; reflexivity).
  assert (H4 : (Z.to_nat (MAX_BACKUPS default_config) ≤ 5)%nat) by (vm_compute; lia).
  assert (H5 : expired default_config (sweep_now Examples.late_run)
                 {| name := "b.sql.gz"; path := "b.sql.gz"; time := 2 |} = true)
    by (vm_compute; reflexivity).
  split_and!; [exact H0|exact H3|exact H5|].
  destruct (sweep_failure_fails_backup default_config Examples.late_run
              Examples.six_world 5 _ H0 H1 H2 H3 H4 H5) as (g & _ & _ & _ & _ & _ & H & _).
  exact H.
Defined.
End Backup_run.

(** ** The arithmetic of the comparison

    The rounding of [binary_round_aux] and [binary_round], on positive
    mantissas away from the ends of the exponent range, and from it the
    values of [Js.of_N], [Js.mul _ Js.tenth], [Js.sub] and [Js.lt]. *)

Section Rounding.
Import SpecFloat.

Lemma digits2_size (p : positive) : digits2_pos p = Pos.size p.
Proof. induction p as [p IH|p IH|]; simpl; by rewrite ?IH. Qed.

Lemma digits2_bounds (p : positive) :
  (2 ^ (Z.pos (digits2_pos p) - 1) <= Z.pos p < 2 ^ Z.pos (digits2_pos p))%Z.
Proof.
  rewrite digits2_size. split.
  - pose proof (Pos.size_le p) as H.
    assert (Z.pos (2 ^ Pos.size p) ≤ Z.pos p~0) as H' by exact H.
    rewrite Pos2Z.inj_pow in H'. change (Z.pos p~0) with (2 * Z.pos p) in H'.
    replace (Z.pos (Pos.size p)) with (Z.succ (Z.pos (Pos.size p) - 1)) in H' at 1 by lia.
    rewrite Z.pow_succ_r in H' by lia. lia.
  - pose proof (Pos.size_gt p) as H.
    assert (Z.pos p < Z.pos (2 ^ Pos.size p)) as H' by exact H.
    by rewrite Pos2Z.inj_pow in H'.
Qed.

Lemma iter_pos_nat {A} (f : A → A) (p : positive) (x : A) :
  iter_pos f p x = Nat.iter (Pos.to_nat p) f x.
Proof.
  unfold Nat.iter. rewrite <- Pos2Nat.inj_iter. revert x.
  induction p as [p IH|p IH|]; intros x; simpl; [|by rewrite !IH|done].
  rewrite !IH. by rewrite <- !Pos.iter_swap.
Qed.

Lemma shr_1_spec (m : Z) (r s : bool) :
  0 ≤ m →
  shr_1 (Build_shr_record m r s)
  = Build_shr_record (m / 2) (Z.odd m) (r || s).
Proof.
  intros Hm. destruct m as [|[p|p|]|p]; try lia; simpl; f_equal.
  - rewrite Pos2Z.inj_xI. apply Z.div_unique with (r := 1); lia.
  - rewrite Pos2Z.inj_xO. apply Z.div_unique with (r := 0); lia.
Qed.

(** The record after [k] shifts: the quotient, and where the remainder
    lies with respect to half of [2^k]. *)
Lemma shr_nat_spec (k : nat) (m : Z) :
  0 ≤ m →
  let mrs := Nat.iter k shr_1 (Build_shr_record m false false) in
  ∃ rem, 0 ≤ shr_m mrs
         ∧ m = shr_m mrs * 2 ^ Z.of_nat k + rem
         ∧ (0 <= rem < 2 ^ Z.of_nat k)%Z
         ∧ (shr_r mrs = true ↔ 2 ^ Z.of_nat k ≤ 2 * rem)
         ∧ (shr_s mrs = true ↔ 2 * rem ≠ 0 ∧ 2 * rem ≠ 2 ^ Z.of_nat k).
Proof.
  intros Hm. induction k as [|k IH]; intros mrs.
  - exists 0. subst mrs. simpl. split_and!; try lia; (split; [done|lia]).
  - subst mrs. rewrite Nat.iter_succ.
    destruct IH as (rem & Hq & Heq & Hrem & Hr & Hs).
    destruct (Nat.iter k shr_1 _) as [q r s]. cbn [shr_m shr_r shr_s] in *.
    rewrite shr_1_spec by done. cbn [shr_m shr_r shr_s].
    rewrite Nat2Z.inj_succ, Z.pow_succ_r by lia.
    set (P := 2 ^ Z.of_nat k) in *.
    assert (0 < P) by (apply Z.pow_pos_nonneg; lia).
    pose proof (Z.div_mod q 2 ltac:(lia)) as Hdm.
    pose proof (Z.mod_pos_bound q 2 ltac:(lia)) as Hb.
    assert (Z.odd q = true ↔ q mod 2 = 1) as Hodd.
    { rewrite Zmod_odd. destruct (Z.odd q); split; (done || lia). }
    exists (rem + P * (q mod 2)).
    assert (q mod 2 = 0 ∨ q mod 2 = 1) as [Hbit|Hbit] by lia; rewrite Hbit in *.
    all: split_and!; [apply Z.div_pos; lia|rewrite Heq; rewrite Hdm at 1; ring|lia|lia| |].
    all: rewrite ?Hodd, ?orb_true_iff, ?Hr, ?Hs; lia.
Qed.

Lemma round_shr_spec (k : nat) (m : Z) :
  0 ≤ m →
  let mrs := Nat.iter k shr_1 (Build_shr_record m false false) in
  let q := round_nearest_even (shr_m mrs) (loc_of_shr_record mrs) in
  0 ≤ q ∧ - 2 ^ Z.of_nat k ≤ 2 * (q * 2 ^ Z.of_nat k - m) ∧
  2 * (q * 2 ^ Z.of_nat k - m) ≤ 2 ^ Z.of_nat k.
Proof.
  intros Hm mrs q. subst q.
  destruct (shr_nat_spec k m Hm) as (rem & Hq & Heq & Hrem & Hr & Hs).
  fold mrs in Hq, Heq, Hr, Hs.
  destruct mrs as [q r s]. cbn [shr_m shr_r shr_s] in *.
  set (P := 2 ^ Z.of_nat k) in *.
  assert (0 < P) by (apply Z.pow_pos_nonneg; lia).
  destruct r, s; cbn [loc_of_shr_record round_nearest_even].
  - assert (P ≤ 2 * rem) by (by apply Hr).
    assert (2 * rem ≠ 0 ∧ 2 * rem ≠ P) by (by apply Hs).
    replace ((q + 1) * P) with (q * P + P) by ring. lia.
  - assert (P ≤ 2 * rem) by (by apply Hr).
    assert (¬ (2 * rem ≠ 0 ∧ 2 * rem ≠ P)) by (intros ?%Hs; done).
    destruct (Z.even q).
    + lia.
    + replace ((q + 1) * P) with (q * P + P) by ring. lia.
  - assert (¬ P ≤ 2 * rem) by (intros ?%Hr; done).
    lia.
  - assert (¬ P ≤ 2 * rem) by (intros ?%Hr; done).
    assert (¬ (2 * rem ≠ 0 ∧ 2 * rem ≠ P)) by (intros ?%Hs; done).
    lia.
Qed.

Lemma shr_nat (mrs : shr_record) (e n : Z) :
  0 ≤ n → shr mrs e n = (Nat.iter (Z.to_nat n) shr_1 mrs, e + n).
Proof.
  intros Hn. unfold shr. destruct n as [|p|p]; [by rewrite Z.add_0_r| |lia].
  by rewrite iter_pos_nat.
Qed.

Lemma digits2_unique (p : positive) (d : Z) :
  2 ^ (d - 1) ≤ Z.pos p → Z.pos p < 2 ^ d → Z.pos (digits2_pos p) = d.
Proof.
  intros Hlo Hhi. pose proof (digits2_bounds p) as [Hlo' Hhi'].
  assert (0 < d).
  { destruct (decide (0 < d)); [done|]. 
    rewrite Z.pow_neg_r in Hlo by lia. 
    destruct (decide (d = 0)) as [->|]; [simpl in Hhi; lia|].
    rewrite Z.pow_neg_r in Hhi by lia. lia. }
  destruct (Z.lt_trichotomy (Z.pos (digits2_pos p)) d) as [Hlt|[Heq|Hgt]]; [|done|].
  - assert (2 ^ Z.pos (digits2_pos p) ≤ 2 ^ (d - 1)) by (apply Z.pow_le_mono_r; lia). lia.
  - assert (2 ^ d ≤ 2 ^ (Z.pos (digits2_pos p) - 1)) by (apply Z.pow_le_mono_r; lia). lia.
Qed.

(** Rounding a mantissa of 53 digits or more to 53 digits. *)
Lemma binary_round_aux_spec (N : positive) (e : Z) :
  53 ≤ Z.pos (digits2_pos N) → -1000 ≤ e → e + Z.pos (digits2_pos N) ≤ 1000 →
  ∃ q e', binary_round_aux 53 1024 false (Z.pos N) e loc_Exact = S754_finite false q e'
          ∧ 2 ^ 52 ≤ Z.pos q ∧ Z.pos q < 2 ^ 53
          ∧ e + Z.pos (digits2_pos N) - 53 ≤ e'
          ∧ e' ≤ e + Z.pos (digits2_pos N) - 52
          ∧ - Z.pos N ≤ 2 ^ 53 * (Z.pos q * 2 ^ (e' - e) - Z.pos N)
          ∧ 2 ^ 53 * (Z.pos q * 2 ^ (e' - e) - Z.pos N) ≤ Z.pos N
          ∧ (Z.pos (digits2_pos N) = 53 → e' = e ∧ q = N)
          ∧ - 2 ^ (Z.pos (digits2_pos N) - 53) ≤ 2 * (Z.pos q * 2 ^ (e' - e) - Z.pos N)
          ∧ 2 * (Z.pos q * 2 ^ (e' - e) - Z.pos N) ≤ 2 ^ (Z.pos (digits2_pos N) - 53).
Proof.
  intros Hd He Hhi. set (d := Z.pos (digits2_pos N)) in *.
  pose proof (digits2_bounds N) as [Hlo' Hhi']. fold d in Hlo', Hhi'.
  unfold binary_round_aux, shr_fexp, fexp, emin. cbn [Zdigits2 shr_record_of_loc].
  fold d.
  replace (Z.max (d + e - 53) (3 - 1024 - 53) - e) with (d - 53) by lia.
  rewrite shr_nat by lia.
  set (k := Z.to_nat (d - 53)).
  destruct (round_shr_spec k (Z.pos N) ltac:(lia)) as (Hq0 & Hlow & Hup).
  set (q0 := round_nearest_even _ _) in *. clearbody q0.
  assert (Hk : Z.of_nat k = d - 53) by lia. rewrite Hk in Hlow, Hup.
  set (P := 2 ^ (d - 53)) in *.
  assert (0 < P) as HP by (apply Z.pow_pos_nonneg; lia).
  assert (2 ^ (d - 1) = 2 ^ 52 * P) as Hlo2.
  { unfold P. rewrite <- Z.pow_add_r by lia. f_equal. lia. }
  assert (2 ^ d = 2 ^ 53 * P) as Hhi2.
  { unfold P. rewrite <- Z.pow_add_r by lia. f_equal. lia. }
  rewrite Hlo2 in Hlo'. rewrite Hhi2 in Hhi'.
  assert (2 ^ 52 ≤ q0 ≤ 2 ^ 53) as Hq.
  { change (2 ^ 52) with 4503599627370496 in *.
    change (2 ^ 53) with 9007199254740992 in *. nia. }
  destruct (decide (q0 = 2 ^ 53)) as [Hcarry|Hno].
  - subst q0.
    exists (4503599627370496%positive), (e + (d - 53) + 1).
    split.
    { change (2 ^ 53) with (Z.pos 9007199254740992). cbn [Zdigits2].
      replace (Z.pos (digits2_pos 9007199254740992)) with 54 by (vm_compute; reflexivity).
      replace (Z.max (54 + (e + (d - 53)) - 53) (3 - 1024 - 53) - (e + (d - 53))) with 1
        by lia.
      cbn [shr iter_pos shr_1 shr_m].
      by replace (e + (d - 53) + 1 <=? 1024 - 53) with true
        by (symmetry; apply Z.leb_le; lia). }
    replace (e + (d - 53) + 1 - e) with (Z.succ (d - 53)) by lia.
    rewrite Z.pow_succ_r by lia. fold P.
    change (2 ^ 52) with 4503599627370496 in *.
    change (2 ^ 53) with 9007199254740992 in *.
    change (Z.pos 4503599627370496) with 4503599627370496.
    split_and!; try lia.
    intros HdN. exfalso. unfold P, d in *. rewrite HdN in *. simpl in *. lia.
  - destruct q0 as [|q0p|q0p]; [lia| |lia].
    assert (Z.pos (digits2_pos q0p) = 53) as Hd53.
    { apply digits2_unique; [change (53 - 1) with 52; lia|lia]. }
    exists q0p, (e + (d - 53)).
    cbn [Zdigits2]. rewrite Hd53.
    replace (Z.max (53 + (e + (d - 53)) - 53) (3 - 1024 - 53) - (e + (d - 53))) with 0
      by lia.
    cbn [shr shr_m].
    replace (e + (d - 53) <=? 1024 - 53) with true by (symmetry; apply Z.leb_le; lia).
    replace (e + (d - 53) - e) with (d - 53) by lia. fold P.
    change (2 ^ 52) with 4503599627370496 in *.
    change (2 ^ 53) with 9007199254740992 in *.
    split_and!; [done|lia|lia|lia|lia|nia|nia| |done|done].
    intros HdN. split; [lia|]. unfold P, d in *. rewrite HdN in *. simpl in *.
    assert (Z.pos q0p = Z.pos N) as Heq by lia. by injection Heq.
Qed.

Lemma pos_iter_xO (m d : positive) : Z.pos (Pos.iter xO m d) = Z.pos m * 2 ^ Z.pos d.
Proof.
  rewrite Pos2Nat.inj_iter. rewrite <- (positive_nat_Z d).
  induction (Pos.to_nat d) as [|n IH]; [simpl; lia|].
  rewrite Nat2Z.inj_succ, Z.pow_succ_r by lia. simpl. rewrite Pos2Z.inj_xO, IH. ring.
Qed.

(** [binary_round] on a positive mantissa: the result is a normal number;
    it is exact when the mantissa has at most 53 digits, and within a
    relative distance of [2^-53] otherwise. *)
Lemma binary_round_spec (D : positive) (e : Z) :
  -900 ≤ e → e + Z.pos (digits2_pos D) ≤ 1000 →
  ∃ q e', binary_round 53 1024 false D e = S754_finite false q e'
          ∧ 2 ^ 52 ≤ Z.pos q ∧ Z.pos q < 2 ^ 53
          ∧ e + Z.pos (digits2_pos D) - 53 ≤ e'
          ∧ e' ≤ e + Z.pos (digits2_pos D) - 52
          ∧ (Z.pos (digits2_pos D) ≤ 53 →
             e' ≤ e ∧ Z.pos q = Z.pos D * 2 ^ (e - e'))
          ∧ (53 ≤ Z.pos (digits2_pos D) →
             e ≤ e'
             ∧ - Z.pos D ≤ 2 ^ 53 * (Z.pos q * 2 ^ (e' - e) - Z.pos D)
             ∧ 2 ^ 53 * (Z.pos q * 2 ^ (e' - e) - Z.pos D) ≤ Z.pos D
             ∧ - 2 ^ (Z.pos (digits2_pos D) - 53)
               ≤ 2 * (Z.pos q * 2 ^ (e' - e) - Z.pos D)
             ∧ 2 * (Z.pos q * 2 ^ (e' - e) - Z.pos D)
               ≤ 2 ^ (Z.pos (digits2_pos D) - 53)).
Proof.
  intros He Hhi. set (d := Z.pos (digits2_pos D)) in *.
  assert (0 < d) by (unfold d; lia).
  unfold binary_round, fexp, emin. fold d.
  replace (Z.max (d + e - 53) (3 - 1024 - 53)) with (d + e - 53) by lia.
  unfold shl_align.
  destruct (d + e - 53 - e) as [|k|k] eqn:Hk.
  - destruct (binary_round_aux_spec D e)
      as (q & e' & -> & Hq1 & Hq2 & He1 & He2 & Hb1 & Hb2 & Hexact & Ha1 & Ha2);
      [fold d; lia..|].
    fold d in He1, He2, Hexact, Ha1, Ha2.
    exists q, e'. split_and!; [done|done|done|done|done| |].
    + intros _. destruct Hexact as [-> ->]; [lia|].
      split; [lia|]. rewrite Z.sub_diag. simpl. lia.
    + intros _. split_and!; [lia|done|done|done|done].
  - destruct (binary_round_aux_spec D e)
      as (q & e' & -> & Hq1 & Hq2 & He1 & He2 & Hb1 & Hb2 & _ & Ha1 & Ha2);
      [fold d; lia..|].
    fold d in He1, He2, Ha1, Ha2.
    exists q, e'. split_and!; [done|done|done|done|done|lia|].
    intros _. split_and!; [lia|done|done|done|done].
  - assert (Hshift : Z.pos (Pos.iter xO D k) = Z.pos D * 2 ^ Z.pos k) by apply pos_iter_xO.
    pose proof (digits2_bounds D) as [Hlo' Hhi']. fold d in Hlo', Hhi'.
    assert (Z.pos k = 53 - d) as Hkd by lia.
    assert (Z.pos (digits2_pos (Pos.iter xO D k)) = 53) as Hd53.
    { apply digits2_unique; rewrite Hshift, Hkd.
      - replace (53 - 1) with (d - 1 + (53 - d)) by lia.
        rewrite Z.pow_add_r by lia. apply Z.mul_le_mono_nonneg_r; [|done].
        apply Z.pow_nonneg. lia.
      - replace 53 with (d + (53 - d)) at 2 by lia.
        rewrite Z.pow_add_r by lia. apply Z.mul_lt_mono_pos_r; [|done].
        apply Z.pow_pos_nonneg; lia. }
    destruct (binary_round_aux_spec (Pos.iter xO D k) (d + e - 53))
      as (q & e' & -> & Hq1 & Hq2 & _ & _ & _ & _ & Hexact & _); [lia..|].
    destruct (Hexact Hd53) as [-> ->].
    exists (Pos.iter xO D k), (d + e - 53).
    split_and!; [done|done|done|lia|lia| |lia].
    intros _. split; [lia|].
    replace (e - (d + e - 53)) with (Z.pos k) by lia. exact Hshift.
Qed.

(** *** Normal numbers and their values *)

Lemma normal_pos (lo hi : Z) (x : spec_float) (v : Z) :
  -128 ≤ lo → Js.normal lo hi x v → 0 < v.
Proof.
  intros Hlo (m & e & _ & _ & _ & He & _ & ->).
  apply Z.mul_pos_pos; [lia|]. apply Z.pow_pos_nonneg; lia.
Qed.

Lemma normal_weaken (lo lo' hi hi' : Z) (x : spec_float) (v : Z) :
  lo' ≤ lo → hi ≤ hi' → Js.normal lo hi x v → Js.normal lo' hi' x v.
Proof.
  intros Hlo Hhi (m & e & ? & ? & ? & ? & ? & ?). exists m, e. split_and!; (done || lia).
Qed.

Lemma digits2_le (p : positive) (d : Z) : Z.pos p < 2 ^ d → Z.pos (digits2_pos p) ≤ d.
Proof.
  intros Hp. pose proof (digits2_bounds p) as [Hlo _].
  destruct (decide (Z.pos (digits2_pos p) ≤ d)); [done|exfalso].
  assert (2 ^ d ≤ 2 ^ (Z.pos (digits2_pos p) - 1)).
  { destruct (decide (0 ≤ d)).
    - apply Z.pow_le_mono_r; lia.
    - rewrite (Z.pow_neg_r 2 d) by lia. apply Z.pow_nonneg. lia. }
  lia.
Qed.

Lemma digits2_ge (p : positive) (d : Z) : 2 ^ d ≤ Z.pos p → d + 1 ≤ Z.pos (digits2_pos p).
Proof.
  intros Hp. pose proof (digits2_bounds p) as [_ Hhi].
  destruct (decide (d + 1 ≤ Z.pos (digits2_pos p))); [done|exfalso].
  assert (2 ^ Z.pos (digits2_pos p) ≤ 2 ^ d) by (apply Z.pow_le_mono_r; lia).
  lia.
Qed.

(** Rounding does not cross a number: a number that is not below the
    value that is rounded is not below the rounded value, and likewise
    for a number that is not above. *)
Lemma round_between (N q mR : positive) (e e' eR : Z) :
  53 ≤ Z.pos (digits2_pos N) → -128 ≤ e → -128 ≤ eR →
  2 ^ 52 ≤ Z.pos q →
  e + Z.pos (digits2_pos N) - 53 ≤ e' →
  - 2 ^ (Z.pos (digits2_pos N) - 53) ≤ 2 * (Z.pos q * 2 ^ (e' - e) - Z.pos N) →
  2 * (Z.pos q * 2 ^ (e' - e) - Z.pos N) ≤ 2 ^ (Z.pos (digits2_pos N) - 53) →
  2 ^ 52 ≤ Z.pos mR → Z.pos mR < 2 ^ 53 →
  (Z.pos N * 2 ^ (e + 128) ≤ Z.pos mR * 2 ^ (eR + 128) →
   Z.pos q * 2 ^ (e' + 128) ≤ Z.pos mR * 2 ^ (eR + 128))
  ∧ (Z.pos mR * 2 ^ (eR + 128) ≤ Z.pos N * 2 ^ (e + 128) →
     Z.pos mR * 2 ^ (eR + 128) ≤ Z.pos q * 2 ^ (e' + 128)).
Proof.
  intros Hd He HeR Hq He' Ha1 Ha2 HR1 HR2.
  set (d := Z.pos (digits2_pos N)) in *.
  pose proof (digits2_bounds N) as [HN _]. fold d in HN.
  set (S := 2 ^ (e + 128)). set (P := 2 ^ (d - 53)) in *.
  assert (0 < S) as HS by (apply Z.pow_pos_nonneg; lia).
  assert (0 < P) as HP by (apply Z.pow_pos_nonneg; lia).
  assert (2 ^ (d - 1) = 2 ^ 52 * P) as HdP.
  { unfold P. rewrite <- Z.pow_add_r by lia. f_equal. lia. }
  rewrite HdP in HN.
  set (Q := Z.pos q * 2 ^ (e' - (e + d - 53))).
  assert (2 ^ (e' - e) = 2 ^ (e' - (e + d - 53)) * P) as HT.
  { unfold P. rewrite <- Z.pow_add_r by lia. f_equal. lia. }
  assert (Z.pos q * 2 ^ (e' - e) = Q * P) as HQP by (unfold Q; rewrite HT; ring).
  rewrite HQP in Ha1, Ha2.
  assert (Z.pos q * 2 ^ (e' + 128) = Q * P * S) as ->.
  { rewrite <- HQP. unfold S. rewrite <- Z.mul_assoc, <- Z.pow_add_r by lia.
    do 2 f_equal. lia. }
  assert (2 ^ 52 ≤ Q) as HQ.
  { unfold Q. assert (1 ≤ 2 ^ (e' - (e + d - 53))).
    { change 1 with (2 ^ 0). apply Z.pow_le_mono_r; lia. }
    change (2 ^ 52) with 4503599627370496 in *. nia. }
  destruct (decide (e + d - 53 ≤ eR)) as [Hge|Hlt].
  - set (A := Z.pos mR * 2 ^ (eR - (e + d - 53))).
    assert (Z.pos mR * 2 ^ (eR + 128) = A * P * S) as ->.
    { unfold A, P, S. rewrite <- !Z.mul_assoc, <- !Z.pow_add_r by lia.
      do 2 f_equal. lia. }
    split; intros H.
    + assert (Z.pos N ≤ A * P) as HNA.
      { apply (Z.mul_le_mono_pos_r _ _ S); done. }
      assert (Q ≤ A) as HQA.
      { destruct (decide (Q ≤ A)); [done|exfalso].
        assert ((A + 1) * P ≤ Q * P) by (apply Z.mul_le_mono_nonneg_r; lia).
        lia. }
      apply Z.mul_le_mono_nonneg_r; [lia|].
      apply Z.mul_le_mono_nonneg_r; lia.
    + assert (A * P ≤ Z.pos N) as HNA.
      { apply (Z.mul_le_mono_pos_r _ _ S); done. }
      assert (A ≤ Q) as HQA.
      { destruct (decide (A ≤ Q)); [done|exfalso].
        assert ((Q + 1) * P ≤ A * P) by (apply Z.mul_le_mono_nonneg_r; lia).
        lia. }
      apply Z.mul_le_mono_nonneg_r; [lia|].
      apply Z.mul_le_mono_nonneg_r; lia.
  - assert (2 * 2 ^ (eR + 128) ≤ P * S) as Hlow.
    { unfold P, S. rewrite <- Z.pow_add_r, <- Z.pow_succ_r by lia.
      apply Z.pow_le_mono_r; lia. }
    assert (0 < 2 ^ (eR + 128)) as HR by (apply Z.pow_pos_nonneg; lia).
    assert (Z.pos mR * 2 ^ (eR + 128) < 2 ^ 53 * 2 ^ (eR + 128)) as HRlt
      by (apply Z.mul_lt_mono_pos_r; done).
    assert (2 ^ 52 * (P * S) ≤ Z.pos N * S) as HNS.
    { rewrite Z.mul_assoc. apply Z.mul_le_mono_nonneg_r; lia. }
    assert (2 ^ 52 * (P * S) ≤ Q * P * S) as HQS.
    { rewrite <- (Z.mul_assoc Q). apply Z.mul_le_mono_nonneg_r; [|done].
      apply Z.mul_nonneg_nonneg; lia. }
    change (2 ^ 52) with 4503599627370496 in *.
    change (2 ^ 53) with 9007199254740992 in *.
    split; intros H; lia.
Qed.

Lemma of_N_normal (n : N) :
  (0 < n)%N → Z.of_N n < 2 ^ 53 → Js.normal (-52) 0 (Js.of_N n) (Z.of_N n * 2 ^ 128).
Proof.
  intros Hn Hlt. unfold Js.of_N, binary_normalize.
  destruct n as [|p]; [lia|]. cbn [Z.of_N] in *.
  pose proof (digits2_le p 53 Hlt) as Hd.
  destruct (binary_round_spec p 0) as (q & e' & Heq & Hq1 & Hq2 & He1 & He2 & Hexact & _);
    [lia..|].
  destruct (Hexact Hd) as [He' Hq].
  unfold Js.prec, Js.emax. rewrite Heq.
  exists q, e'. split_and!; [done|done|done|lia|lia|].
  rewrite Hq, <- Z.mul_assoc, <- Z.pow_add_r by lia. do 2 f_equal. lia.
Qed.

Lemma mul_tenth_normal (lo hi : Z) (x : spec_float) (vx : Z) :
  -72 ≤ lo → hi ≤ 800 → Js.normal lo hi x vx →
  ∃ v, Js.normal (lo - 4) (hi - 2) (Js.mul x Js.tenth) v
       ∧ - (vx * 7205759403792794) ≤ 2 ^ 53 * (v * 2 ^ 56 - vx * 7205759403792794)
       ∧ 2 ^ 53 * (v * 2 ^ 56 - vx * 7205759403792794) ≤ vx * 7205759403792794
       ∧ ∀ lo' hi' y vy, -128 ≤ lo' → Js.normal lo' hi' y vy →
           (vx * 7205759403792794 ≤ vy * 2 ^ 56 → v ≤ vy)
           ∧ (vy * 2 ^ 56 ≤ vx * 7205759403792794 → vy ≤ v).
Proof.
  intros Hlo Hhi (m & e & -> & Hm1 & Hm2 & He1 & He2 & ->).
  unfold Js.mul, Js.tenth, SFmul. cbn [xorb].
  set (M := 7205759403792794%positive).
  assert (2 ^ 104 ≤ Z.pos (m * M)) as HN1.
  { rewrite Pos2Z.inj_mul. change (2 ^ 104) with (2 ^ 52 * 2 ^ 52).
    apply Z.mul_le_mono_nonneg; [done|done|done|by vm_compute]. }
  assert (Z.pos (m * M) < 2 ^ 106) as HN2.
  { rewrite Pos2Z.inj_mul. change (2 ^ 106) with (2 ^ 53 * 2 ^ 53).
    apply Z.mul_lt_mono_nonneg; [lia|done|lia|by vm_compute]. }
  pose proof (digits2_ge _ _ HN1) as Hd1. pose proof (digits2_le _ _ HN2) as Hd2.
  destruct (binary_round_aux_spec (m * M) (e + -56))
    as (q & e' & Heq & Hq1 & Hq2 & He1' & He2' & Hb1 & Hb2 & _ & Ha1 & Ha2); [lia..|].
  unfold Js.prec, Js.emax. rewrite Heq.
  exists (Z.pos q * 2 ^ (e' + 128)). split.
  { exists q, e'. split_and!; [done|done|done|lia|lia|done]. }
  apply and_assoc. split; [|].
  2:{ intros lo' hi' y vy Hlo' (mR & eR & -> & HR1 & HR2 & HeR1 & HeR2 & ->).
      destruct (round_between (m * M) q mR (e + -56) e' eR)
        as [Hup Hdown]; [lia|lia|lia|done|done|done|done|done|done|].
      assert (Z.pos m * 2 ^ (e + 128) * Z.pos M
              = Z.pos (m * M) * 2 ^ (e + -56 + 128) * 2 ^ 56) as ->.
      { rewrite Pos2Z.inj_mul, <- !Z.mul_assoc, <- Z.pow_add_r by lia.
        replace (e + -56 + 128 + 56) with (e + 128) by lia. ring. }
      change (2 ^ 56) with 72057594037927936.
      split; intros H; [apply Hup|apply Hdown]; lia. }
  assert (Z.pos q * 2 ^ (e' + 128) * 2 ^ 56
          = Z.pos q * 2 ^ (e' - (e + -56)) * 2 ^ (e + 128)) as ->.
  { rewrite <- !Z.mul_assoc, <- !Z.pow_add_r by lia. do 2 f_equal. lia. }
  assert (Z.pos m * 2 ^ (e + 128) * Z.pos M
          = Z.pos (m * M) * 2 ^ (e + 128)) as ->.
  { rewrite Pos2Z.inj_mul. ring. }
  set (P := 2 ^ (e + 128)).
  assert (0 < P) by (apply Z.pow_pos_nonneg; lia).
  set (A := Z.pos q * 2 ^ (e' - (e + -56))) in *.
  set (B := Z.pos (m * M)) in *.
  replace (2 ^ 53 * (A * P - B * P)) with ((2 ^ 53 * (A - B)) * P) by ring.
  replace (- (B * P)) with ((- B) * P) by ring.
  split; apply Z.mul_le_mono_nonneg_r; (done || lia).
Qed.

Lemma sub_normal (lo hi : Z) (x y : spec_float) (vx vy : Z) :
  -76 ≤ lo → hi ≤ 799 → Js.normal lo hi x vx → Js.normal lo hi y vy → vy < vx →
  ∃ v, Js.normal (lo - 52) (hi + 1) (Js.sub x y) v
       ∧ - (vx - vy) ≤ 2 ^ 53 * (v - (vx - vy))
       ∧ 2 ^ 53 * (v - (vx - vy)) ≤ vx - vy
       ∧ ∀ lo' hi' y' vy', -128 ≤ lo' → Js.normal lo' hi' y' vy' →
           (vx - vy ≤ vy' → v ≤ vy') ∧ (vy' ≤ vx - vy → vy' ≤ v).
Proof.
  intros Hlo Hhi (mx & ex & -> & Hx1 & Hx2 & Hex1 & Hex2 & ->)
                 (my & ey & -> & Hy1 & Hy2 & Hey1 & Hey2 & ->) Hlt.
  unfold Js.sub, SFsub. cbn [cond_Zopp].
  set (ez := Z.min ex ey).
  assert (lo ≤ ez ∧ ez ≤ ex ∧ ez ≤ ey) as (Hez1 & Hez2 & Hez3) by (unfold ez; lia).
  assert (∀ m e, ez ≤ e → Z.pos (shl_align m e ez).1 = Z.pos m * 2 ^ (e - ez)) as Halign.
  { intros m e He. unfold shl_align.
    destruct (ez - e) as [|k|k] eqn:Hk.
    - replace (e - ez) with 0 by lia. simpl. lia.
    - lia.
    - simpl. rewrite pos_iter_xO. do 2 f_equal. lia. }
  rewrite (Halign mx ex), (Halign my ey) by lia.
  set (P := 2 ^ (ez + 128)).
  assert (0 < P) as HP by (apply Z.pow_pos_nonneg; lia).
  assert (∀ m e, ez ≤ e → Z.pos m * 2 ^ (e + 128) = Z.pos m * 2 ^ (e - ez) * P) as Hval.
  { intros m e He. unfold P. rewrite <- Z.mul_assoc, <- Z.pow_add_r by lia.
    do 2 f_equal. lia. }
  rewrite (Hval mx ex), (Hval my ey) in * by lia.
  set (a := Z.pos mx * 2 ^ (ex - ez)) in *. set (b := Z.pos my * 2 ^ (ey - ez)) in *.
  assert (b < a) as Hba by nia.
  destruct (a - b) as [|D|D] eqn:HD; [lia| |lia].
  unfold binary_normalize.
  assert (Z.pos D < 2 ^ 53 * 2 ^ (ex - ez)) as HDhi.
  { assert (0 < b) by (unfold b; apply Z.mul_pos_pos; [lia|apply Z.pow_pos_nonneg; lia]).
    assert (a < 2 ^ 53 * 2 ^ (ex - ez)).
    { unfold a. apply Z.mul_lt_mono_pos_r; [apply Z.pow_pos_nonneg; lia|done]. }
    lia. }
  rewrite <- Z.pow_add_r in HDhi by lia.
  pose proof (digits2_le _ _ HDhi) as Hd.
  destruct (binary_round_spec D ez)
    as (q & e' & Heq & Hq1 & Hq2 & He1 & He2 & Hexact & Hround); [lia..|].
  unfold Js.prec, Js.emax. rewrite Heq.
  assert (1 ≤ Z.pos (digits2_pos D)) by lia.
  exists (Z.pos q * 2 ^ (e' + 128)). split.
  { exists q, e'. split_and!; [done|done|done|lia|lia|done]. }
  replace (a * P - b * P) with (Z.pos D * P) by (rewrite <- HD; ring).
  destruct (decide (Z.pos (digits2_pos D) ≤ 53)) as [Hle|Hgt].
  - destruct (Hexact Hle) as [He' Hq].
    assert (Z.pos q * 2 ^ (e' + 128) = Z.pos D * P) as ->.
    { rewrite Hq. unfold P. rewrite <- Z.mul_assoc, <- Z.pow_add_r by lia.
      do 2 f_equal. lia. }
    assert (0 < Z.pos D * P) by (apply Z.mul_pos_pos; lia).
    split_and!; [lia|lia|]. intros lo' hi' y' vy' _ _. lia.
  - destruct Hround as (He' & Hb1 & Hb2 & Ha1 & Ha2); [lia|].
    apply and_assoc. split; [|].
    2:{ intros lo' hi' y' vy' Hlo' (mR & eR & -> & HR1 & HR2 & HeR1 & HeR2 & ->).
        apply (round_between D q mR ez e' eR); (done || lia). }
    assert (Z.pos q * 2 ^ (e' + 128) = Z.pos q * 2 ^ (e' - ez) * P) as ->.
    { unfold P. rewrite <- Z.mul_assoc, <- Z.pow_add_r by lia. do 2 f_equal. lia. }
    set (A := Z.pos q * 2 ^ (e' - ez)) in *.
    replace (2 ^ 53 * (A * P - Z.pos D * P)) with ((2 ^ 53 * (A - Z.pos D)) * P) by ring.
    replace (- (Z.pos D * P)) with ((- Z.pos D) * P) by ring.
    split; apply Z.mul_le_mono_nonneg_r; (done || lia).
Qed.

Lemma scaled_lt (m m' P Q : Z) :
  2 ^ 52 ≤ m' → m < 2 ^ 53 → 0 < P → 2 ≤ Q → m * P < m' * (P * Q).
Proof.
  intros Hm' Hm HP HQ.
  change (2 ^ 52) with 4503599627370496 in *.
  change (2 ^ 53) with 9007199254740992 in *.
  assert (m * P < 9007199254740992 * P) by (apply Z.mul_lt_mono_pos_r; lia).
  assert (P * 2 ≤ P * Q) by (apply Z.mul_le_mono_nonneg_l; lia).
  assert (m' * (P * 2) ≤ m' * (P * Q)) by (apply Z.mul_le_mono_nonneg_l; lia).
  assert (4503599627370496 * (P * 2) ≤ m' * (P * 2))
    by (apply Z.mul_le_mono_nonneg_r; lia).
  lia.
Qed.

Lemma lt_normal (lo lo' hi hi' : Z) (x y : spec_float) (vx vy : Z) :
  -128 ≤ lo → -128 ≤ lo' → Js.normal lo hi x vx → Js.normal lo' hi' y vy →
  (Js.lt x y = true ↔ vx < vy).
Proof.
  intros Hlo Hlo' (mx & ex & -> & Hx1 & Hx2 & Hex1 & Hex2 & ->)
                  (my & ey & -> & Hy1 & Hy2 & Hey1 & Hey2 & ->).
  unfold Js.lt, SFltb, SFcompare.
  destruct (Z.compare_spec ex ey) as [->|Hlt|Hgt].
  - change (Pos.compare_cont Eq mx my) with (Pos.compare mx my).
    assert (0 < 2 ^ (ey + 128)) by (apply Z.pow_pos_nonneg; lia).
    destruct (Pos.compare_spec mx my) as [->|H1|H1].
    + split; [done|lia].
    + split; [intros _|done]. apply Z.mul_lt_mono_pos_r; [done|lia].
    + split; [done|]. intros H2. exfalso.
      assert (Z.pos my * 2 ^ (ey + 128) < Z.pos mx * 2 ^ (ey + 128))
        by (apply Z.mul_lt_mono_pos_r; [done|lia]).
      lia.
  - split; [intros _|done].
    replace (ey + 128) with ((ex + 128) + (ey - ex)) by lia.
    rewrite (Z.pow_add_r 2 (ex + 128) (ey - ex)) by lia.
    assert (0 < 2 ^ (ex + 128)) by (apply Z.pow_pos_nonneg; lia).
    assert (2 ^ 1 ≤ 2 ^ (ey - ex)) by (apply Z.pow_le_mono_r; lia).
    by apply scaled_lt.
  - split; [done|]. intros H2. exfalso.
    revert H2.
    replace (ex + 128) with ((ey + 128) + (ex - ey)) by lia.
    rewrite (Z.pow_add_r 2 (ey + 128) (ex - ey)) by lia.
    assert (0 < 2 ^ (ey + 128)) by (apply Z.pow_pos_nonneg; lia).
    assert (2 ^ 1 ≤ 2 ^ (ex - ey)) by (apply Z.pow_le_mono_r; lia).
    intros H2.
    pose proof (scaled_lt (Z.pos my) (Z.pos mx) (2 ^ (ey + 128)) (2 ^ (ex - ey))
                  Hx1 Hy2 ltac:(done) ltac:(done)).
    lia.
Qed.

(** *** The comparison, for a previous count that is not 0 *)

Lemma below_threshold_normal (c p : N) :
  (0 < p)%N → Z.of_N p < 2 ^ 53 → Z.of_N c < 2 ^ 53 →
  (Monitor.below_threshold c p = true → 10 * Z.of_N c < 9 * Z.of_N p)
  ∧ (Z.of_N p ≤ 2 ^ 49 →
     (Monitor.below_threshold c p = true ↔ 10 * Z.of_N c < 9 * Z.of_N p)).
Proof.
  intros Hp Hp53 Hc53. unfold Monitor.below_threshold. cbv zeta.
  pose proof (of_N_normal p Hp Hp53) as Hnp.
  destruct (mul_tenth_normal (-52) 0 _ _ ltac:(lia) ltac:(lia) Hnp)
    as (vt & Hnt & Ht1 & Ht2 & Htm).
  simpl in Hnt.
  assert (vt < Z.of_N p * 2 ^ 128) as Htp.
  { change (2 ^ 53) with 9007199254740992 in *.
    change (2 ^ 56) with 72057594037927936 in *.
    change (2 ^ 128) with 340282366920938463463374607431768211456 in *. lia. }
  pose proof (normal_pos (-52 - 4) (0 - 2) _ _ ltac:(lia) Hnt) as Htpos.
  destruct (sub_normal (-56) 0 _ _ _ _ ltac:(lia) ltac:(lia)
              (normal_weaken (-52) (-56) 0 0 _ _ ltac:(lia) ltac:(lia) Hnp)
              (normal_weaken (-56) (-56) (-2) 0 _ _ ltac:(lia) ltac:(lia) Hnt) Htp)
    as (vr & Hnr & Hr1 & Hr2 & Hrm).
  simpl in Hnr.
  destruct (decide (c = 0%N)) as [->|Hc0].
  { destruct Hnr as (mr & er & -> & _). simpl.
    split; [intros _; lia|]. intros _. split; [intros _; lia|done]. }
  pose proof (of_N_normal c ltac:(lia) Hc53) as Hnc.
  rewrite (lt_normal (-52) (-56 - 52) 0 (0 + 1) _ _ _ _ ltac:(lia) ltac:(lia) Hnc Hnr).
  assert (Z.of_N c * 2 ^ 128 < vr → 10 * Z.of_N c < 9 * Z.of_N p) as Hsound.
  { intros Hlt. destruct (decide (10 * Z.of_N c < 9 * Z.of_N p)) as [|Hge]; [done|].
    exfalso.
    destruct (Hrm (-52) 0 _ _ ltac:(lia) Hnc) as [Hup _].
    enough (Z.of_N p * 2 ^ 128 - vt ≤ Z.of_N c * 2 ^ 128) by (apply Hup in H; lia).
    destruct (decide (p ≤ c)%N) as [Hpc|Hpc].
    { change (2 ^ 128) with 340282366920938463463374607431768211456 in *. lia. }
    assert (Z.of_N (p - c) = Z.of_N p - Z.of_N c) as Hd by lia.
    pose proof (of_N_normal (p - c) ltac:(lia) ltac:(lia)) as Hnd.
    rewrite Hd in Hnd.
    destruct (Htm (-52) 0 _ _ ltac:(lia) Hnd) as [_ Hdown].
    change (2 ^ 56) with 72057594037927936 in *.
    change (2 ^ 128) with 340282366920938463463374607431768211456 in *.
    assert ((Z.of_N p - Z.of_N c) * 340282366920938463463374607431768211456 ≤ vt)
      by (apply Hdown; lia).
    lia. }
  split; [done|]. intros Hp49. split; [done|].
  change (2 ^ 49) with 562949953421312 in *.
  change (2 ^ 53) with 9007199254740992 in *.
  change (2 ^ 56) with 72057594037927936 in *.
  change (2 ^ 128) with 340282366920938463463374607431768211456 in *.
  lia.
Qed.
End Rounding.

(** ** The monitor *)

Section Monitor_steps.
Import Backup Monitor.
Variables (cfg : Config) (env : Env).

(** *** The comparison in binary64 *)

Lemma binary_round_aux_sign (m e : Z) (l : SpecFloat.location) :
  match SpecFloat.binary_round_aux Js.prec Js.emax false m e l with
  | SpecFloat.S754_finite true _ _ | SpecFloat.S754_infinity true => False
  | _ => True
  end.
Proof.
  unfold SpecFloat.binary_round_aux.
  destruct (SpecFloat.shr_fexp _ _ m e l) as [mrs e1].
  destruct (SpecFloat.shr_fexp _ _ _ e1 _) as [mrs' e2].
  destruct (SpecFloat.shr_m mrs'); [done| |done].
  by destruct (_ <=? _).
Qed.

Lemma of_N_sign (n : N) :
  match Js.of_N n with
  | SpecFloat.S754_finite true _ _ | SpecFloat.S754_infinity true => False
  | _ => True
  end.
Proof.
  unfold Js.of_N, SpecFloat.binary_normalize.
  destruct (Z.of_N n) as [|m|m] eqn:Hn; [done| |lia].
  unfold SpecFloat.binary_round.
  destruct (SpecFloat.shl_align _ _ _) as [mz ez].
  apply binary_round_aux_sign.
Qed.

(** The literal [0.1] is the number nearest to one tenth. *)
Lemma tenth_nearest : Js.tenth = Js.div (Js.of_N 1) (Js.of_N 10).
Proof. vm_compute. reflexivity. Qed.

(** On small counts the comparison is the comparison with nine tenths:
    89 is below the threshold of 100, and 90 is not.  On large counts the
    rounding of the product and of the difference shows: 2026619832316724
    is less than nine tenths of 2251799813685249 and is not below its
    threshold. *)
Example below_threshold_rounds :
  below_threshold 89 100 = true
  ∧ below_threshold 90 100 = false
  ∧ 10 * 2026619832316724 < 9 * 2251799813685249
  ∧ below_threshold 2026619832316724 2251799813685249 = false.
Proof. split_and!; vm_compute; reflexivity. Qed.

(** Nothing is below the threshold of a previous count of 0. *)
Lemma below_threshold_zero (c : N) : below_threshold c 0 = false.
Proof.
  unfold below_threshold.
  change (Js.sub (Js.of_N 0) (Js.mul (Js.of_N 0) Js.tenth))
    with (SpecFloat.S754_zero false).
  pose proof (of_N_sign c) as H. unfold Js.lt, SpecFloat.SFltb.
  by destruct (Js.of_N c) as [[|]|[|]| |[|] m e].
Qed.

(** The comparison of the code against the comparison with nine tenths
    of the previous count, for counts that a number holds exactly (counts
    below [2^53]): a count below the threshold is below nine tenths of
    the previous count; and on previous counts up to [2^49] the two
    comparisons agree. *)
Theorem below_threshold_nine_tenths (c p : N) :
  Z.of_N p < 2 ^ 53 → Z.of_N c < 2 ^ 53 →
  (below_threshold c p = true → 10 * Z.of_N c < 9 * Z.of_N p)
  ∧ (Z.of_N p ≤ 2 ^ 49 →
     (below_threshold c p = true ↔ 10 * Z.of_N c < 9 * Z.of_N p)).
Proof.
  intros Hp Hc. destruct (decide (p = 0%N)) as [->|Hp0].
  - rewrite below_threshold_zero. split; [done|]. intros _. split; [done|lia].
  - apply below_threshold_normal; (done || lia).
Qed.

Lemma below_threshold_nine_tenths_witness :
  Z.of_N 100 < 2 ^ 53 ∧ Z.of_N 85 < 2 ^ 53
  ∧ (below_threshold 85 100 = true → 10 * Z.of_N 85 < 9 * Z.of_N 100)
  ∧ (Z.of_N 100 ≤ 2 ^ 49 →
     (below_threshold 85 100 = true ↔ 10 * Z.of_N 85 < 9 * Z.of_N 100)).
Proof.
  assert (H1 : Z.of_N 100 < 2 ^ 53) by (vm_compute; reflexivity).
  assert (H2 : Z.of_N 85 < 2 ^ 53) by (vm_compute; reflexivity).
  pose proof (below_threshold_nine_tenths 85 100 H1 H2) as [Ha Hb].
  exact (conj H1 (conj H2 (conj Ha Hb))).
Defined.

Lemma grows_refl (s : State) : grows s s [].
Proof.
  unfold grows. rewrite app_nil_r. split_and!; [done|done|done|simpl; lia|done].
Qed.

Lemma grows_trans (s s' s'' : State) (r1 r2 : list Db.Row) :
  grows s s' r1 → grows s' s'' r2 → grows s s'' (r1 ++ r2).
Proof.
  intros (H1 & H2 & H3 & H4 & H5) (K1 & K2 & K3 & K4 & K5).
  unfold grows. split_and!.
  - by rewrite K1, H1, app_assoc.
  - congruence.
  - lia.
  - rewrite length_app. lia.
  - by apply Forall_app.
Qed.

Lemma createBackup_grows (s : State) :
  ∃ rows, grows s (createBackup cfg env s).1 rows
          ∧ backup_calls (createBackup cfg env s).1 = S (backup_calls s)
          ∧ (length rows ≤ 1)%nat
          ∧ ((createBackup cfg env s).2 = None → length rows = 1%nat).
Proof.
  unfold createBackup.
  pose proof (backupDatabase_rows cfg (backup_run env (backup_calls s)) (store s)) as H.
  destruct (backupDatabase cfg (backup_run env (backup_calls s)) (store s)) as [w result].
  simpl in H. destruct H as [[Hf Hrows]|[Ht Hrows]]; rewrite ?Hf, ?Ht; simpl.
  - exists []. unfold grows; simpl. rewrite app_nil_r.
    split_and!; [done|done|lia|lia|done|done|lia|done].
  - eexists [_]. unfold grows; simpl.
    split_and!; [exact Hrows|done|lia|lia| |done|lia|done].
    apply Forall_singleton. left. split; [done|]. by eexists.
Qed.

Lemma insert_row_store (r : Db.Row) (s : State) :
  system_status (store (insert_row env r s))
  = system_status (store s)
    ++ (if rejects env r then [] else [Db.increment_error_count None r])
  ∧ lastKnownState (insert_row env r s) = lastKnownState s
  ∧ backup_calls (insert_row env r s) = backup_calls s
  ∧ backups (store (insert_row env r s)) = backups (store s).
Proof.
  unfold insert_row. destruct (rejects env r); simpl; [by rewrite app_nil_r|done].
Qed.

Lemma insert_row_calls (r : Db.Row) (s : State) :
  backup_calls (insert_row env r s) = backup_calls s.
Proof. by destruct (insert_row_store r s) as (_ & _ & ? & _). Qed.

Lemma handleDataLoss_grows (state : SystemState) (s : State) :
  ∃ rows, grows s (handleDataLoss cfg env state s) rows
          ∧ backup_calls (handleDataLoss cfg env state s) = S (backup_calls s).
Proof.
  unfold handleDataLoss.
  destruct (createBackup_grows s) as (rows & Hg & Hcalls & Hlen & _).
  destruct (createBackup cfg env s) as [s' [e|]]; simpl in *.
  - exists rows. done.
  - set (r := Db.new_row (now env) Db.error (Db.J_incident state (now env)) None 0 None).
    destruct (insert_row_store r s') as (Hst & Hl & Hc & _).
    exists (rows ++ (if rejects env r then [] else [Db.increment_error_count None r])).
    split; [|by rewrite Hc].
    destruct Hg as (H1 & H2 & H3 & H4 & H5). unfold grows.
    split_and!.
    + by rewrite Hst, H1, app_assoc.
    + congruence.
    + lia.
    + rewrite length_app. destruct (rejects env r); simpl; lia.
    + apply Forall_app. split; [done|].
      destruct (rejects env r); [done|]. apply Forall_singleton.
      right. split; [done|]. by do 2 eexists.
Qed.

(** The three ways an iteration of the loop over the tables can go. *)
Lemma check_table_cases (st : SystemState) (s : State) (t : string) :
  (∃ m, count_error (select_count env t) = Some m
        ∧ check_table cfg env (st, s) t
          = (push_error ("Error checking table " +:+ t +:+ ": " +:+ m) st, s))
  ∨ (count_error (select_count env t) = None
     ∧ (∀ p c, ¬ loss_detected (lastKnownState s) env t p c)
     ∧ check_table cfg env (st, s) t
       = (set_table t (default 0%N (count (select_count env t))) st, s))
  ∨ (∃ p c, loss_detected (lastKnownState s) env t p c
            ∧ check_table cfg env (st, s) t
              = (let st' := set_status warning
                              (push_warning (data_loss_warning t p c) (set_table t c st)) in
                 (st', handleDataLoss cfg env st' s))).
Proof.
  unfold check_table, loss_detected.
  destruct (count_error (select_count env t)) as [m|] eqn:Herr.
  { left. by exists m. }
  right.
  destruct (lastKnownState s ≫= (λ l, tables l !! t)) as [p|] eqn:Hp;
    [|left; split_and!; [done| |done]; by intros p c (_ & ? & _)].
  destruct (count (select_count env t)) as [c|] eqn:Hc;
    [|left; split_and!; [done| |done]; by intros p' c (_ & _ & ? & _)].
  destruct (decide (p = 0%N)) as [Hz|Hnz];
    [left; split_and!; [done| |done]; intros p' c' (_ & ? & _ & ? & _); congruence|].
  destruct (below_threshold c p) eqn:Hlt.
  - right. exists p, c. simpl. by split_and!.
  - left. split_and!; [done| |done].
    intros p' c' (_ & ? & ? & _ & ?). congruence.
Qed.

Lemma evolves_refl (a : SystemState * State) : evolves a a.
Proof.
  exists [], [], []. rewrite !app_nil_r.
  split_and!; [apply grows_refl|done|done|done|done].
Qed.

Lemma evolves_trans (a b c : SystemState * State) :
  evolves a b → evolves b c → evolves a c.
Proof.
  intros (r1 & w1 & e1 & G1 & W1 & E1 & N1 & S1) (r2 & w2 & e2 & G2 & W2 & E2 & N2 & S2).
  exists (r1 ++ r2), (w1 ++ w2), (e1 ++ e2).
  split_and!.
  - by eapply grows_trans.
  - by rewrite W2, W1, app_assoc.
  - by rewrite E2, E1, app_assoc.
  - intros [-> ->]%app_eq_nil.
    destruct (N1 eq_refl) as [Hs1 Hc1], (N2 eq_refl) as [Hs2 Hc2].
    split; congruence.
  - intros Hne. destruct w2 as [|x w2]; [|by apply S2].
    destruct (N2 eq_refl) as [Hs2 _]. rewrite Hs2. apply S1.
    by rewrite app_nil_r in Hne.
Qed.

Lemma check_table_evolves (a : SystemState * State) (t : string) :
  evolves a (check_table cfg env a t).
Proof.
  destruct a as [st s].
  destruct (check_table_cases st s t)
    as [(m & _ & ->)|[(_ & _ & ->)|(p & c & _ & ->)]].
  - exists [], [], ["Error checking table " +:+ t +:+ ": " +:+ m]. simpl.
    rewrite app_nil_r.
    split_and!; [apply grows_refl|done|done|done|done].
  - exists [], [], []. simpl. rewrite !app_nil_r.
    split_and!; [apply grows_refl|done|done|done|done].
  - simpl.
    destruct (handleDataLoss_grows
                (set_status warning (push_warning (data_loss_warning t p c)
                                       (set_table t c st))) s) as (rows & Hg & _).
    exists rows, [data_loss_warning t p c], []. simpl. rewrite app_nil_r.
    split_and!; [done|done|done|done|done].
Qed.

Lemma tables_loop_evolves (ts : list string) (a : SystemState * State) :
  evolves a (foldl (check_table cfg env) a ts).
Proof.
  revert a. induction ts as [|t ts IH]; intros a; simpl.
  - apply evolves_refl.
  - eapply evolves_trans; [apply check_table_evolves|apply IH].
Qed.
End Monitor_steps.

Section Monitor_tick.
Import Backup Monitor.
Variables (cfg : Config) (env : Env).

(** The backup check adds at most one of its two warnings, and makes a
    backup only along with one; it leaves status, errors and tables as
    they are. *)
Lemma check_last_backup_spec (st : SystemState) (s : State) :
  ∃ rows ws,
    let r := check_last_backup cfg env st s in
    grows s r.1.2 rows
    ∧ warnings r.1.1 = warnings st ++ ws
    ∧ errors r.1.1 = errors st
    ∧ status r.1.1 = status st
    ∧ tables r.1.1 = tables st
    ∧ (ws = [] → backup_calls r.1.2 = backup_calls s ∧ r.2 = None)
    ∧ Forall (λ w, w = "No recent backup found (>24 hours)"
                   ∨ w = "No backup history found") ws.
Proof.
  unfold check_last_backup.
  destruct (createBackup_grows cfg env s) as (rows & Hg & Hcalls & Hlen & _).
  assert (Hone : grows s (createBackup cfg env s).1 rows) by done.
  destruct (Db.select_first_desc Db.last_backup_time (system_status (store s)))
    as [[t|]|].
  - destruct (24 * 60 * 60 * 1000 <? now env - t).
    + destruct (createBackup cfg env s) as [s' thrown]. simpl in *.
      exists rows, ["No recent backup found (>24 hours)"]. simpl.
      split_and!; [done|done|done|done|done|done|].
      apply Forall_singleton. by left.
    + exists [], []. simpl. rewrite app_nil_r.
      split_and!; [apply grows_refl|done|done|done|done|done|done].
  - destruct (createBackup cfg env s) as [s' thrown]. simpl in *.
    exists rows, ["No backup history found"]. simpl.
    split_and!; [done|done|done|done|done|done|].
    apply Forall_singleton. by right.
  - destruct (createBackup cfg env s) as [s' thrown]. simpl in *.
    exists rows, ["No backup history found"]. simpl.
    split_and!; [done|done|done|done|done|done|].
    apply Forall_singleton. by right.
Qed.

(** The backup check throws exactly when it starts a backup (it has then
    added a warning) and that backup is not a success. *)
Lemma check_last_backup_thrown (st : SystemState) (s : State) :
  (check_last_backup cfg env st s).2 = None
  ↔ warnings (check_last_backup cfg env st s).1.1 = warnings st
    ∨ success (backupDatabase cfg (backup_run env (backup_calls s)) (store s)).2 = true.
Proof.
  assert (Hne : ∀ (l : list string) m, l ++ [m] ≠ l).
  { intros l m H. apply (f_equal length) in H. rewrite length_app in H. simpl in H. lia. }
  unfold check_last_backup, createBackup.
  destruct (backupDatabase cfg (backup_run env (backup_calls s)) (store s)) as [w result].
  destruct (Db.select_first_desc Db.last_backup_time (system_status (store s)))
    as [[t|]|]; [destruct (24 * 60 * 60 * 1000 <? now env - t)| |];
    simpl; try (destruct (success result); simpl);
    split; try done; try (by left); try (by right);
    intros [H|H]; try done; by apply Hne in H.
Qed.

Lemma rank_cases (st : SystemState) :
  (warnings st = [] → status st = healthy) →
  rank st = if decide (errors st = []) then
              if decide (warnings st = []) then healthy else warning
            else error.
Proof. intros H. unfold rank. repeat case_decide; auto. Qed.

(** The anatomy of a tick: the rows it adds end with its audit row when
    the store accepts it, the others being backup and incident rows;
    [lastKnownState] is assigned when the [try] block completes and only
    then; the final status follows the errors and warnings; a tick that
    ran a backup has a warning. *)
Lemma checkSystem_anatomy (s : State) :
  let t := checkSystem cfg env s in
  ∃ rows,
    system_status (store (after t))
    = system_status (store s) ++ rows ++ audit_rows env (final t)
    ∧ Forall side_row rows
    ∧ (backup_calls s ≤ backup_calls (after t))%nat
    ∧ (length rows ≤ 2 * (backup_calls (after t) - backup_calls s))%nat
    ∧ lastKnownState (after t)
      = match caught t with None => Some (final t) | Some _ => lastKnownState s end
    ∧ status (final t)
      = (if decide (errors (final t) = []) then
           if decide (warnings (final t) = []) then healthy else warning
         else error)
    ∧ (caught t ≠ None → errors (final t) ≠ [])
    ∧ (backup_calls (after t) ≠ backup_calls s → warnings (final t) ≠ [])
    ∧ (version env ≠ None → caught t = version env ∧ rows = [] ∧ tables (final t) = ∅).
Proof.
  unfold checkSystem, on_throw, updateSystemStatus, audit_rows.
  destruct (version env) as [e|] eqn:Hv.
  { exists []. cbn [after final caught].
    destruct (insert_row_store env (audit_row env
                (push_error match e with JsError message => message
                                       | JsOther => "Unknown error" end
                   (set_status error (initial_state env)))) s)
      as (Hst & Hl & Hc & _).
    rewrite Hst, Hl, Hc. split_and!; try done; simpl; lia. }
  pose proof (tables_loop_evolves cfg env CRITICAL_TABLES (initial_state env, s)) as Hev.
  destruct (foldl (check_table cfg env) (initial_state env, s) CRITICAL_TABLES)
    as [st1 s1].
  destruct Hev as (r1 & w1 & e1 & (G1 & L1 & C1 & N1 & F1) & W1 & E1 & Z1 & S1).
  simpl in *.
  destruct (check_last_backup_spec st1 s1) as (r2 & w2 & K).
  destruct (check_last_backup cfg env st1 s1) as [[st2 s2] thrown].
  simpl in K. destruct K as ((G2 & L2 & C2 & N2 & F2) & W2 & E2 & T2 & _ & Z2 & _).
  assert (Hhealthy : warnings st2 = [] → status st2 = healthy).
  { rewrite W2, T2, W1. intros [Hw1 _]%app_eq_nil. by destruct (Z1 Hw1). }
  assert (Hcalls : backup_calls s2 ≠ backup_calls s → warnings st2 ≠ []).
  { intros Hne Hnil. rewrite W2, W1 in Hnil. apply app_eq_nil in Hnil as [Hw1 Hw2].
    destruct (Z1 Hw1) as [_ Hc1]. destruct (Z2 Hw2) as [Hc2 _]. congruence. }
  exists (r1 ++ r2).
  destruct thrown as [e|]; cbn [after final caught].
  - set (st3 := push_error _ _).
    destruct (insert_row_store env (audit_row env st3) s2) as (Hst & Hl & Hc & _).
    rewrite Hst, Hl, Hc. split_and!.
    + by rewrite G2, G1, <- !app_assoc.
    + by apply Forall_app.
    + lia.
    + rewrite length_app. lia.
    + congruence.
    + subst st3. simpl. rewrite decide_False; [done|]. by destruct (errors st2).
    + intros _. subst st3. simpl. by destruct (errors st2).
    + done.
    + done.
  - set (st3 := set_status _ _).
    destruct (insert_row_store env (audit_row env st3) s2) as (Hst & Hl & Hc & _).
    cbn [lastKnownState store backup_calls].
    rewrite Hst, Hc. split_and!.
    + by rewrite G2, G1, <- !app_assoc.
    + by apply Forall_app.
    + lia.
    + rewrite length_app. lia.
    + done.
    + subst st3. simpl. by apply rank_cases.
    + done.
    + done.
    + done.
Qed.

(** Whether the [catch] block is entered: when the [version] call fails,
    or the backup of the backup check does. *)
Lemma checkSystem_caught (s : State) :
  caught (checkSystem cfg env s)
  = match version env with
    | Some e => Some e
    | None => (backup_checked cfg env s).2
    end.
Proof.
  unfold checkSystem, backup_checked, tables_checked.
  destruct (version env) as [e|]; [done|].
  destruct (foldl (check_table cfg env) (initial_state env, s) CRITICAL_TABLES)
    as [st1 s1]. cbn [fst snd].
  by destruct (check_last_backup cfg env st1 s1) as [[st2 s2] [e|]].
Qed.

(** Each warning of a tick comes with one call of [backupDatabase], and
    there is no other call. *)
Lemma check_table_calls (a : SystemState * State) (t : string) :
  (backup_calls (check_table cfg env a t).2 + length (warnings a.1)
   = backup_calls a.2 + length (warnings (check_table cfg env a t).1))%nat.
Proof.
  destruct a as [st s].
  destruct (check_table_cases cfg env st s t)
    as [(m & _ & ->)|[(_ & _ & ->)|(p & c & _ & ->)]]; simpl; [done|done|].
  destruct (handleDataLoss_grows cfg env
              (set_status warning (push_warning (data_loss_warning t p c)
                                     (set_table t c st))) s) as (rows & _ & ->).
  rewrite length_app. simpl. lia.
Qed.

Lemma tables_loop_calls (ts : list string) (a : SystemState * State) :
  (backup_calls (foldl (check_table cfg env) a ts).2 + length (warnings a.1)
   = backup_calls a.2 + length (warnings (foldl (check_table cfg env) a ts).1))%nat.
Proof.
  revert a. induction ts as [|t ts IH]; intros a; cbn [foldl]; [done|].
  pose proof (IH (check_table cfg env a t)). pose proof (check_table_calls a t). lia.
Qed.

Lemma check_last_backup_count (st : SystemState) (s : State) :
  let r := check_last_backup cfg env st s in
  (backup_calls r.1.2 + length (warnings st)
   = backup_calls s + length (warnings r.1.1))%nat.
Proof.
  unfold check_last_backup.
  destruct (createBackup_grows cfg env s) as (rows & _ & Hcalls & _).
  destruct (Db.select_first_desc Db.last_backup_time (system_status (store s)))
    as [[t|]|].
  - destruct (24 * 60 * 60 * 1000 <? now env - t); [|done].
    destruct (createBackup cfg env s) as [s' thrown]. simpl in *.
    rewrite length_app. simpl. lia.
  - destruct (createBackup cfg env s) as [s' thrown]. simpl in *.
    rewrite length_app. simpl. lia.
  - destruct (createBackup cfg env s) as [s' thrown]. simpl in *.
    rewrite length_app. simpl. lia.
Qed.

Lemma checkSystem_calls (s : State) :
  backup_calls (after (checkSystem cfg env s))
  = (backup_calls s + length (warnings (final (checkSystem cfg env s))))%nat.
Proof.
  unfold checkSystem, on_throw, updateSystemStatus.
  destruct (version env) as [e|].
  { cbn [after final]. 
    destruct (insert_row_store env (audit_row env
                (push_error match e with JsError message => message
                                       | JsOther => "Unknown error" end
                   (set_status error (initial_state env)))) s)
      as (_ & _ & -> & _). simpl. lia. }
  pose proof (tables_loop_calls CRITICAL_TABLES (initial_state env, s)) as H1.
  destruct (foldl (check_table cfg env) (initial_state env, s) CRITICAL_TABLES)
    as [st1 s1].
  pose proof (check_last_backup_count st1 s1) as H2.
  destruct (check_last_backup cfg env st1 s1) as [[st2 s2] thrown].
  simpl in H1, H2.
  destruct thrown as [e|]; cbn [after final].
  - set (st3 := push_error _ _).
    destruct (insert_row_store env (audit_row env st3) s2) as (_ & _ & -> & _).
    subst st3. simpl. lia.
  - set (st3 := set_status _ _).
    destruct (insert_row_store env (audit_row env st3) s2) as (_ & _ & Hc & _).
    cbn [backup_calls]. rewrite Hc. subst st3. simpl. lia.
Qed.
End Monitor_tick.

(** ** Data-loss warnings *)

Section Warnings.
Import Backup Monitor.
Variables (cfg : Config) (env : Env).

Lemma occurrences_app (m : string) (l k : list string) :
  occurrences m (l ++ k) = (occurrences m l + occurrences m k)%nat.
Proof. unfold occurrences. by rewrite filter_app, length_app. Qed.

Lemma occurrences_other (m : string) (l : list string) :
  Forall (λ w, w ≠ m) l → occurrences m l = 0%nat.
Proof.
  unfold occurrences. induction 1 as [|w l Hw _ IH]; [done|].
  by rewrite filter_cons_False.
Qed.

(** The messages of two critical tables differ, whatever the counts. *)
Lemma data_loss_warning_table (t t' : string) (p c p' c' : N) :
  t ∈ CRITICAL_TABLES → t' ∈ CRITICAL_TABLES →
  data_loss_warning t p c = data_loss_warning t' p' c' → t = t'.
Proof.
  unfold data_loss_warning. intros Ht Ht' Heq.
  apply (inj (String.append _)) in Heq.
  revert Heq.
  generalize (": Previous=" +:+ pretty p +:+ ", Current=" +:+ pretty c).
  generalize (": Previous=" +:+ pretty p' +:+ ", Current=" +:+ pretty c').
  intros r r'. unfold CRITICAL_TABLES in *.
  repeat (apply elem_of_cons in Ht as [->|Ht]);
    repeat (apply elem_of_cons in Ht' as [->|Ht']);
    try (by apply elem_of_nil in Ht); try (by apply elem_of_nil in Ht');
    try done; simpl; intros Heq; discriminate Heq.
Qed.

Lemma data_loss_warning_not_backup (t : string) (p c : N) (w : string) :
  w = "No recent backup found (>24 hours)" ∨ w = "No backup history found" →
  w ≠ data_loss_warning t p c.
Proof. unfold data_loss_warning. by intros [->| ->]. Qed.

Lemma loss_detected_fun (lks : option SystemState) (t : string) (p c p' c' : N) :
  loss_detected lks env t p c → loss_detected lks env t p' c' → p = p' ∧ c = c'.
Proof. intros (_ & H1 & H2 & _) (_ & K1 & K2 & _). split; congruence. Qed.

(** Where an entry of [state.tables] comes from. *)
Lemma tables_loop_tables (ts : list string) (a : SystemState * State)
    (table : string) (cur : N) :
  tables (foldl (check_table cfg env) a ts).1 !! table = Some cur →
  tables a.1 !! table = Some cur
  ∨ (table ∈ ts
     ∧ count_error (select_count env table) = None
     ∧ default 0%N (count (select_count env table)) = cur).
Proof.
  revert a. induction ts as [|t ts IH]; intros [st s]; cbn [foldl]; [by left|].
  intros H. apply IH in H as [H|(Hin & Herr & Hcur)];
    [|right; split_and!; [by right|done|done]].
  destruct (check_table_cases cfg env st s t)
    as [(m & _ & Heq)|[(Herr & _ & Heq)|(p & c & (Herr & _ & Hc & _) & Heq)]];
    rewrite Heq in H; simpl in H.
  - by left.
  - destruct (decide (t = table)) as [->|Hne].
    + rewrite lookup_insert_eq in H. injection H as <-.
      right. split_and!; [by left|done|done].
    + rewrite lookup_insert_ne in H by done. by left.
  - destruct (decide (t = table)) as [->|Hne].
    + rewrite lookup_insert_eq in H. injection H as <-.
      right. split_and!; [by left|done|by rewrite Hc].
    + rewrite lookup_insert_ne in H by done. by left.
Qed.

(** The loop reports the loss of a table once, when it reaches it. *)
Lemma tables_loop_occurrences (ts : list string) (a : SystemState * State)
    (table : string) (p c : N) :
  NoDup ts →
  (∀ t, t ∈ ts → t ∈ CRITICAL_TABLES) →
  table ∈ CRITICAL_TABLES →
  loss_detected (lastKnownState a.2) env table p c →
  occurrences (data_loss_warning table p c)
              (warnings (foldl (check_table cfg env) a ts).1)
  = (occurrences (data_loss_warning table p c) (warnings a.1)
     + if decide (table ∈ ts) then 1 else 0)%nat.
Proof.
  revert a. induction ts as [|t ts IH]; intros [st s] Hnd Hts Htable Hloss;
    cbn [foldl].
  { rewrite decide_False by apply not_elem_of_nil. lia. }
  apply NoDup_cons in Hnd as [Ht Hnd].
  pose proof (check_table_evolves cfg env (st, s) t)
    as (_ & _ & _ & (_ & Hlks & _) & _).
  rewrite IH; [|done|by intros; apply Hts; right|done|by rewrite Hlks].
  simpl in Hloss.
  destruct (check_table_cases cfg env st s t)
    as [(m & Herr & ->)|[(_ & Hno & ->)|(p' & c' & Hloss' & ->)]]; simpl.
  - destruct (decide (t = table)) as [->|Hne].
    + destruct Hloss as (Herr' & _). congruence.
    + destruct (decide (table ∈ ts)) as [Hin|Hout].
      * rewrite decide_True by (by right). done.
      * rewrite decide_False; [done|]. intros [?|?]%elem_of_cons; done.
  - destruct (decide (t = table)) as [->|Hne].
    + by destruct (Hno p c).
    + destruct (decide (table ∈ ts)) as [Hin|Hout].
      * rewrite decide_True by (by right). done.
      * rewrite decide_False; [done|]. intros [?|?]%elem_of_cons; done.
  - rewrite occurrences_app.
    destruct (decide (t = table)) as [->|Hne].
    + destruct (loss_detected_fun _ _ _ _ _ _ Hloss Hloss') as [-> ->].
      rewrite decide_False by done. rewrite decide_True by (by left).
      unfold occurrences at 2. rewrite filter_cons_True by done. simpl. lia.
    + rewrite (occurrences_other _ [_]).
      * destruct (decide (table ∈ ts)) as [Hin|Hout].
        -- rewrite decide_True by (by right). lia.
        -- rewrite decide_False; [lia|]. intros [?|?]%elem_of_cons; done.
      * apply Forall_singleton. intros Heq.
        apply data_loss_warning_table in Heq; [done|by apply Hts; left|done].
Qed.

Lemma CRITICAL_TABLES_NoDup : NoDup CRITICAL_TABLES.
Proof. compute_done. Qed.
End Warnings.

Section Monitor_claims.
Import Backup Monitor.

(** C1, as the code has it: for an entity present in both snapshots for
    which the probe returned a count (not null), both counts below
    [2^53] (the integers that a number holds exactly and prints digit by
    digit), if the current count is below the previous count minus a
    tenth of it, as the binary64 arithmetic of the code computes it, or,
    for a previous count up to [2^49], if it is below nine tenths of the
    previous count, the warning "Significant data loss detected in
    <entity>: Previous=<prev>, Current=<cur>" occurs exactly once among
    the warnings of the tick and the status of the tick is not
    healthy. *)
Theorem data_loss_is_reported (cfg : Config) (env : Env) (s : State)
    (previous : SystemState) (table : string) (prev cur : N) :
  lastKnownState s = Some previous →
  tables previous !! table = Some prev →
  tables (final (checkSystem cfg env s)) !! table = Some cur →
  count (select_count env table) ≠ None →
  Z.of_N prev < 2 ^ 53 →
  Z.of_N cur < 2 ^ 53 →
  below_threshold cur prev = true
  ∨ (Z.of_N prev ≤ 2 ^ 49 ∧ 10 * Z.of_N cur < 9 * Z.of_N prev) →
  occurrences (data_loss_warning table prev cur)
              (warnings (final (checkSystem cfg env s))) = 1%nat
  ∧ status (final (checkSystem cfg env s)) ≠ healthy.
Proof.
  intros Hlks Hprev Hcur Hcount Hp53 Hc53 Hor.
  assert (Hlt : below_threshold cur prev = true).
  { destruct Hor as [H|(Hp & Hx)]; [done|].
    by apply (below_threshold_normal cur prev ltac:(lia) Hp53 Hc53). }
  clear Hor Hp53 Hc53.
  pose proof (checkSystem_anatomy cfg env s) as Hrank.
  simpl in Hrank. destruct Hrank as (_ & _ & _ & _ & _ & _ & Hrank & _).
  revert Hcur Hrank. unfold checkSystem.
  destruct (version env) as [e|]; [simpl; by rewrite lookup_empty|].
  pose proof (tables_loop_tables cfg env CRITICAL_TABLES (initial_state env, s) table cur)
    as Htab.
  pose proof (tables_loop_occurrences cfg env CRITICAL_TABLES (initial_state env, s)
                table prev cur CRITICAL_TABLES_NoDup) as Hocc.
  destruct (foldl (check_table cfg env) (initial_state env, s) CRITICAL_TABLES)
    as [st1 s1].
  cbn [fst snd] in Htab, Hocc.
  destruct (check_last_backup_spec cfg env st1 s1) as (r2 & w2 & K).
  destruct (check_last_backup cfg env st1 s1) as [[st2 s2] thrown].
  simpl in K. destruct K as (_ & W2 & _ & _ & T2 & _ & B2).
  assert (Hfinal : ∀ st, tables st = tables st2 → warnings st = warnings st2 →
            tables st !! table = Some cur →
            occurrences (data_loss_warning table prev cur) (warnings st) = 1%nat) .
  { intros st Ht Hw Hc. rewrite Ht, T2 in Hc. rewrite Hw, W2.
    destruct (Htab Hc) as [Hnone|(Hin & Herr & Hdef)]; 
      [simpl in Hnone; by rewrite lookup_empty in Hnone|].
    destruct (count (select_count env table)) as [c|] eqn:Hc'; [|done].
    simpl in Hdef. subst c.
    assert (loss_detected (Some previous) env table prev cur) as Hloss.
    { unfold loss_detected. simpl. split_and!; [done|done|done| |done].
      intros ->. by rewrite below_threshold_zero in Hlt. }
    rewrite occurrences_app, Hocc; [|done|done|by rewrite <- Hlks in Hloss].
    rewrite decide_True by done.
    rewrite (occurrences_other _ w2); [done|].
    eapply Forall_impl; [exact B2|]. intros w Hw'.
    by apply data_loss_warning_not_backup. }
  destruct thrown as [e|]; simpl; intros Hcur Hrank.
  - split; [by apply Hfinal|]. rewrite Hrank. rewrite decide_False; [done|].
    by destruct (errors st2).
  - pose proof (Hfinal (set_status (rank st2) st2) eq_refl eq_refl Hcur) as Hone.
    split; [done|]. rewrite Hrank. simpl.
    case_decide; [|done]. rewrite decide_False; [done|].
    intros Hnil. simpl in Hone. by rewrite Hnil in Hone.
Qed.

Lemma data_loss_is_reported_witness :
  lastKnownState (after Examples.tick1) = Some (final Examples.tick1)
  ∧ tables (final Examples.tick1) !! "user_profiles" = Some 100%N
  ∧ tables (final Examples.tick2_loss) !! "user_profiles" = Some 85%N
  ∧ Z.of_N 100 < 2 ^ 53
  ∧ Z.of_N 85 < 2 ^ 53
  ∧ below_threshold 85 100 = true
  ∧ occurrences "Significant data loss detected in user_profiles: Previous=100, Current=85"
      (warnings (final Examples.tick2_loss)) = 1%nat
  ∧ status (final Examples.tick2_loss) ≠ healthy.
Proof.
  assert (H1 : lastKnownState (after Examples.tick1) = Some (final Examples.tick1))
    by (vm_compute; reflexivity).
  assert (H2 : tables (final Examples.tick1) !! "user_profiles" = Some 100%N)
    by (vm_compute; reflexivity).
  assert (H3 : tables (final Examples.tick2_loss) !! "user_profiles" = Some 85%N)
    by (vm_compute; reflexivity).
  assert (H4 : below_threshold 85 100 = true)
    by (vm_compute; reflexivity).
  assert (H5 : Z.of_N 100 < 2 ^ 53) by (vm_compute; reflexivity).
  assert (H6 : Z.of_N 85 < 2 ^ 53) by (vm_compute; reflexivity).
  split_and!; [exact H1|exact H2|exact H3|exact H5|exact H6|exact H4| |].
  all: apply (data_loss_is_reported default_config
                (Examples.env_at 3000 (Some 85%N) Examples.good_run)
                (after Examples.tick1) (final Examples.tick1) "user_profiles" 100 85
                H1 H2 H3); [discriminate|exact H5|exact H6|left; exact H4].
Defined.

(** C1 as stated fails: when the count of a table comes back null, with
    no error, the entity is in the current snapshot with count 0, the
    previous count is 100, 0 is below 100 - 10, and no data-loss warning
    is pushed. *)
Lemma null_count_is_not_reported :
  lastKnownState (after Examples.tick1) = Some (final Examples.tick1)
  ∧ tables (final Examples.tick1) !! "user_profiles" = Some 100%N
  ∧ tables (final Examples.tick2_null) !! "user_profiles" = Some 0%N
  ∧ below_threshold 0 100 = true
  ∧ occurrences (data_loss_warning "user_profiles" 100 0)
      (warnings (final Examples.tick2_null)) = 0%nat
  ∧ warnings (final Examples.tick2_null) = ["No backup history found"].
Proof. split_and!; vm_compute; reflexivity. Qed.

Lemma side_row_not_state (r : Db.Row) (st : SystemState) :
  side_row r → Db.last_known_state r ≠ Db.J_state st.
Proof. intros [[_ [f ->]]|[_ (st' & ts & ->)]]; discriminate. Qed.

(** C2, as the code has it: a tick adds at most one row that holds its
    [state], its audit row, with status [initialized] when the state is
    healthy and [error] otherwise: exactly one, as the last row it adds,
    when the store accepts the insert, and none when the store rejects
    it.  The other rows a tick adds are [backup] rows and incident rows
    (status [error]); it calls [backupDatabase] once for each of its
    warnings and adds at most two such rows for each call, hence none
    when it has no warning. *)
Theorem tick_appends_audit_row (cfg : Config) (env : Env) (s : State) :
  let t := checkSystem cfg env s in
  let r := Db.increment_error_count None (audit_row env (final t)) in
  ∃ rows,
    appended s t = rows ++ (if rejects env (audit_row env (final t)) then [] else [r])
    ∧ Db.last_known_state r = Db.J_state (final t)
    ∧ Db.status r = (if decide (status (final t) = healthy)
                     then Db.initialized else Db.error)
    ∧ Forall side_row rows
    ∧ Forall (λ r', ∀ st, Db.last_known_state r' ≠ Db.J_state st) rows
    ∧ backup_calls (after t) = (backup_calls s + length (warnings (final t)))%nat
    ∧ (length rows ≤ 2 * length (warnings (final t)))%nat.
Proof.
  intros t r.
  destruct (checkSystem_anatomy cfg env s) as (rows & Hrows & Hside & _ & Hlen & _).
  pose proof (checkSystem_calls cfg env s) as Hcalls.
  fold t in Hrows, Hlen, Hcalls.
  exists rows.
  split_and!; [|by subst r; rewrite increment_last_known_state| |done| |done|lia].
  - unfold appended. by rewrite Hrows, drop_app_length.
  - subst r. rewrite increment_status. done.
  - eapply Forall_impl; [exact Hside|]. intros r' Hr st. by apply side_row_not_state.
Qed.

(** C2 as stated fails: the tick that sees the loss adds four rows; and
    when the store rejects the inserts of the client, the same tick adds
    no row that holds its state, only the rows of its two backups. *)
Lemma tick_appends_more_than_one :
  Db.status <$> appended (after Examples.tick1) Examples.tick2_loss
  = [Db.backup; Db.error; Db.backup; Db.error]
  ∧ length (appended (after Examples.tick1) Examples.tick2_loss) ≠ 1%nat
  ∧ Db.status <$> appended (after Examples.tick1) Examples.tick2_rejected
    = [Db.backup; Db.backup].
Proof. split_and!; vm_compute; [reflexivity|discriminate|reflexivity]. Qed.

(** The status of a tick follows its errors and warnings. *)
Lemma status_follows_rank (cfg : Config) (env : Env) (s : State) :
  let st := final (checkSystem cfg env s) in
  status st = if decide (errors st = []) then
                if decide (warnings st = []) then healthy else warning
              else error.
Proof.
  by destruct (checkSystem_anatomy cfg env s) as (_ & _ & _ & _ & _ & _ & H & _).
Qed.

(** C6: a tick whose [errors] are not empty ends with status [error],
    whatever its counts and warnings. *)
Theorem errors_force_error (cfg : Config) (env : Env) (s : State) :
  errors (final (checkSystem cfg env s)) ≠ [] →
  status (final (checkSystem cfg env s)) = error.
Proof.
  intros Hne. pose proof (status_follows_rank cfg env s) as H. simpl in H.
  rewrite H. by rewrite decide_False.
Qed.

Lemma errors_force_error_witness :
  errors (final Examples.tick2_count_error) ≠ []
  ∧ warnings (final Examples.tick2_count_error) ≠ []
  ∧ status (final Examples.tick2_count_error) = error.
Proof.
  assert (H : errors (final Examples.tick2_count_error) ≠ [])
    by (vm_compute; discriminate).
  split_and!; [exact H|vm_compute; discriminate|].
  exact (errors_force_error default_config (Examples.env_count_error 3000)
           (after Examples.tick1) H).
Defined.

(** C4, as the code has it: when the [try] block runs to its end (the
    [version] call succeeds and the backup check throws nothing),
    [lastKnownState] is replaced by the state of the tick, also when that
    state has status [error]; when the [version] call fails or the
    backup of the backup check throws, the tick ends in the [catch]
    block: its state has status [error] and [lastKnownState] stays as it
    was.  In both cases the audit row of the tick is the last row of the
    table when the store accepts it.  The backup check throws nothing
    exactly when it adds no warning, and so starts no backup, or the
    backup it starts is a success. *)
Theorem baseline_replaced_unless_caught (cfg : Config) (env : Env) (s : State) :
  let t := checkSystem cfg env s in
  (version env = None → (backup_checked cfg env s).2 = None →
   lastKnownState (after t) = Some (final t))
  ∧ (version env ≠ None ∨ (backup_checked cfg env s).2 ≠ None →
     lastKnownState (after t) = lastKnownState s
     ∧ status (final t) = error
     ∧ Db.status (audit_row env (final t)) = Db.error)
  ∧ (rejects env (audit_row env (final t)) = false →
     last (system_status (store (after t)))
     = Some (Db.increment_error_count None (audit_row env (final t))))
  ∧ ((backup_checked cfg env s).2 = None
     ↔ warnings (backup_checked cfg env s).1.1 = warnings (tables_checked cfg env s).1
       ∨ success (backupDatabase cfg
                    (backup_run env (backup_calls (tables_checked cfg env s).2))
                    (store (tables_checked cfg env s).2)).2 = true).
Proof.
  intros t.
  destruct (checkSystem_anatomy cfg env s)
    as (rows & Hrows & _ & _ & _ & Hlks & Hrank & Herr & _ & Hv).
  pose proof (checkSystem_caught cfg env s) as Hc.
  fold t in Hrows, Hlks, Hrank, Herr, Hv, Hc.
  split_and!; [| | |apply check_last_backup_thrown].
  - intros Hver Hchk. rewrite Hver, Hchk in Hc. by rewrite Hc in Hlks.
  - intros Hor.
    assert (caught t ≠ None) as Hne.
    { rewrite Hc. destruct (version env) as [e|]; [done|]. by destruct Hor. }
    assert (status (final t) = error) as Hst.
    { rewrite Hrank, decide_False; [done|]. by apply Herr. }
    split_and!; [by destruct (caught t)|done|].
    unfold audit_row, Db.new_row. simpl. by rewrite Hst.
  - intros Hacc. rewrite Hrows. unfold audit_rows. rewrite Hacc.
    by rewrite !app_assoc, last_snoc.
Qed.

Lemma baseline_replaced_unless_caught_witness :
  version (Examples.env_count_error 3000) = None
  ∧ (backup_checked default_config (Examples.env_count_error 3000)
       (after Examples.tick1)).2 = None
  ∧ lastKnownState (after Examples.tick2_count_error)
    = Some (final Examples.tick2_count_error).
Proof.
  assert (H1 : version (Examples.env_count_error 3000) = None) by reflexivity.
  assert (H2 : (backup_checked default_config (Examples.env_count_error 3000)
                  (after Examples.tick1)).2 = None) by (vm_compute; reflexivity).
  split_and!; [exact H1|exact H2|].
  destruct (baseline_replaced_unless_caught default_config
              (Examples.env_count_error 3000) (after Examples.tick1)) as [H _].
  exact (H H1 H2).
Defined.

(** C4 as stated fails: the tick during which the database is down ends
    with status [error], adds its audit row, and keeps the baseline of
    the tick before. *)
Lemma baseline_kept_when_down :
  status (final Examples.tick2_down) = error
  ∧ length (appended (after Examples.tick1) Examples.tick2_down) = 1%nat
  ∧ lastKnownState (after Examples.tick2_down) = Some (final Examples.tick1)
  ∧ lastKnownState (after Examples.tick2_down) ≠ Some (final Examples.tick2_down).
Proof.
  split_and!; [vm_compute; reflexivity..|].
  intros H. apply (f_equal (fmap status)) in H. vm_compute in H. discriminate.
Qed.

(** A tick whose status is [error] for a failed count does replace the
    baseline. *)
Lemma baseline_replaced_on_count_error :
  status (final Examples.tick2_count_error) = error
  ∧ lastKnownState (after Examples.tick2_count_error)
    = Some (final Examples.tick2_count_error).
Proof. split; vm_compute; reflexivity. Qed.

(** C5, on the code: a backup row (backup time 1000) followed by an audit
    row (backup time NULL) makes the query of the monitor return NULL;
    the next tick, two seconds after the backup, finds no backup
    history, adds that warning and makes another backup. *)
Lemma null_hides_latest_backup :
  Db.last_backup_time <$> system_status (store (after Examples.tick1))
  = [Some 1000; None]
  ∧ Db.select_first_desc Db.last_backup_time
      (system_status (store (after Examples.tick1))) = Some None
  ∧ lastBackup (final Examples.tick2_same) = None
  ∧ warnings (final Examples.tick2_same) = ["No backup history found"]
  ∧ backup_calls (after Examples.tick2_same)
    = S (backup_calls (after Examples.tick1)).
Proof. split_and!; vm_compute; reflexivity. Qed.

(** C8, as the code has it: when the dump pipeline leaves no archive or
    an empty one, [backupDatabase] fails, with "Backup file is empty or
    was not created" when the pipeline itself reported no failure and
    with what the pipeline threw otherwise; it runs no sweep and adds no
    [backup] row, and leaves the directory as the pipeline left it (an
    empty file stays).  A tick that called [backupDatabase] has an audit
    row with status [error], which is the last row of the table when the
    store accepts it. *)
Theorem empty_backup_fails (cfg : Config) (run : Run) (w : World) :
  empty_or_missing (compressedPath run) (after_dump run (backups w)) = true →
  success (backupDatabase cfg run w).2 = false
  ∧ backup_error (backupDatabase cfg run w).2
    = Some match dump_thrown run with
           | None => "Backup file is empty or was not created"
           | Some (JsError message) => message
           | Some JsOther => "Unknown error during backup"
           end
  ∧ (backupDatabase cfg run w).1
    = {| system_status := system_status w; backups := after_dump run (backups w) |}
  ∧ ∀ env s,
      backup_calls (after (checkSystem cfg env s)) ≠ backup_calls s →
      Db.status (audit_row env (final (checkSystem cfg env s))) = Db.error
      ∧ (rejects env (audit_row env (final (checkSystem cfg env s))) = false →
         Db.status <$> last (system_status (store (after (checkSystem cfg env s))))
         = Some Db.error).
Proof.
  intros He. rewrite (backupDatabase_empty cfg run w He).
  split_and!; [done|by destruct (dump_thrown run) as [[|]|]|done|].
  intros env s Hcalls.
  destruct (checkSystem_anatomy cfg env s)
    as (rows & Hrows & _ & _ & _ & _ & Hrank & _ & Hw & _).
  assert (Db.status (audit_row env (final (checkSystem cfg env s))) = Db.error) as Hst.
  { unfold audit_row, Db.new_row. simpl.
    rewrite decide_False; [done|].
    rewrite Hrank. specialize (Hw Hcalls). repeat case_decide; done. }
  split; [done|]. intros Hacc.
  rewrite Hrows. unfold audit_rows. rewrite Hacc.
  rewrite !app_assoc, last_snoc. cbn [fmap option_fmap option_map].
  by rewrite increment_status, Hst.
Qed.

Lemma empty_backup_fails_witness :
  empty_or_missing (compressedPath Examples.empty_run)
    (after_dump Examples.empty_run (backups Examples.empty_world)) = true
  ∧ success (backupDatabase default_config Examples.empty_run Examples.empty_world).2
    = false.
Proof.
  assert (H : empty_or_missing (compressedPath Examples.empty_run)
                (after_dump Examples.empty_run (backups Examples.empty_world)) = true)
    by (vm_compute; reflexivity).
  split; [exact H|].
  apply (empty_backup_fails default_config Examples.empty_run Examples.empty_world H).
Defined.

(** C8 as stated fails: after the failed run the empty archive is still
    in the backup directory, where the sweep of a later run lists it
    among the archives. *)
Lemma empty_archive_is_retained :
  let r := backupDatabase default_config Examples.empty_run Examples.empty_world in
  success r.2 = false
  ∧ backups r.1 !! "db_backup_2025-02-24T10-11-12-345Z.sql.gz"
    = Some {| mtime := 1000; size := 0 |}
  ∧ path <$> list_files (backups r.1) = ["db_backup_2025-02-24T10-11-12-345Z.sql.gz"].
Proof. split_and!; vm_compute; reflexivity. Qed.

End Monitor_claims.

(** * Further properties of the code *)

(** ** The table and its triggers *)

Section Store_more.
Import Db Update.

Lemma desc_before_asym (column : Row → option Z) (a b : Row) :
  desc_before (column a) (column b) = true → desc_before (column b) (column a) = false.
Proof.
  destruct (column a), (column b); simpl; try done.
  rewrite Z.ltb_lt, Z.ltb_ge. lia.
Qed.

Lemma desc_before_negtrans (column : Row → option Z) (a b c : Row) :
  desc_before (column a) (column b) = false →
  desc_before (column b) (column c) = false →
  desc_before (column a) (column c) = false.
Proof.
  destruct (column a), (column b), (column c); simpl; try done.
  rewrite !Z.ltb_ge. lia.
Qed.

(** On a table in which no row has a NULL in the column, the query
    [.order(column, { ascending: false }).limit(1).single()] returns the
    largest value of the column. *)
Theorem latest_without_null (column : Row → option Z) (tbl : list Row) :
  tbl ≠ [] →
  (∀ r, r ∈ tbl → column r ≠ None) →
  ∃ t, select_first_desc column tbl = Some (Some t)
       ∧ (∃ r, r ∈ tbl ∧ column r = Some t)
       ∧ ∀ r t', r ∈ tbl → column r = Some t' → t' ≤ t.
Proof.
  intros Hne Hall. unfold select_first_desc.
  set (before := λ a b : Row, desc_before (column a) (column b)).
  destruct (sort before tbl) as [|h rest] eqn:Hs.
  { exfalso. apply Hne. apply (f_equal length) in Hs.
    rewrite sort_length in Hs. by destruct tbl. }
  assert (Hh : h ∈ tbl) by (apply (sort_elem_of before); rewrite Hs; by left).
  destruct (column h) as [t|] eqn:Hcol; [|by destruct (Hall h Hh)].
  exists t. simpl. rewrite Hcol. split_and!; [done|by exists h|].
  intros r t' Hr Hcr.
  assert (before r h = false) as Hleast.
  { apply (sort_head_least before) with (l := tbl); [| |by rewrite Hs|done].
    - intros a b. apply desc_before_asym.
    - intros a b c. apply desc_before_negtrans. }
  unfold before in Hleast. rewrite Hcr, Hcol in Hleast. simpl in Hleast.
  apply Z.ltb_ge in Hleast. lia.
Qed.

Lemma latest_without_null_witness :
  Cases.two_backups ≠ []
  ∧ (∀ r, r ∈ Cases.two_backups → last_backup_time r ≠ None)
  ∧ select_first_desc last_backup_time Cases.two_backups = Some (Some 300).
Proof.
  assert (H1 : Cases.two_backups ≠ []) by discriminate.
  assert (H2 : ∀ r, r ∈ Cases.two_backups → last_backup_time r ≠ None).
  { intros r Hr. unfold Cases.two_backups in Hr.
    repeat (apply elem_of_cons in Hr as [->|Hr]); [discriminate..|].
    by apply elem_of_nil in Hr. }
  split_and!; [exact H1|exact H2|].
  destruct (latest_without_null last_backup_time Cases.two_backups H1 H2)
    as (t & Hq & _ & Hmax).
  rewrite Hq. do 2 f_equal. apply Z.le_antisymm.
  - injection Hq as <-. reflexivity.
  - apply (Hmax (new_row 300 backup (J_backup_file "b.sql.gz") (Some 300) 0 None));
      [|reflexivity].
    unfold Cases.two_backups. apply elem_of_cons; right. by left.
Defined.

Lemma log_all_snoc (events : list Event) (e : Event) (tbl : list Row) :
  log_all (events ++ [e]) tbl
  = log_system_event (at_time e) (p_status e) (p_state e) (p_error e) (log_all events tbl).
Proof. unfold log_all. by rewrite foldl_app. Qed.

(** In a table written only through [log_system_event], every row has
    the time column of its status set to its creation time and the two
    others NULL, and its [error_count] is 1 when its status is [error]
    and 0 otherwise. *)
Theorem logged_rows_shape (events : list Event) :
  Forall (λ r,
      last_reset_time r = (if decide (status r = reset) then Some (created_at r) else None)
      ∧ last_backup_time r = (if decide (status r = backup) then Some (created_at r) else None)
      ∧ last_restore_time r = (if decide (status r = restore) then Some (created_at r) else None)
      ∧ error_count r = (if decide (status r = error) then 1 else 0)
      ∧ updated_at r = created_at r)
    (log_all events []).
Proof.
  induction events as [|e events IH] using rev_ind; [by constructor|].
  rewrite log_all_snoc. unfold log_system_event. rewrite insert_app.
  apply Forall_app. split; [done|]. apply Forall_singleton.
  unfold increment_error_count. simpl.
  destruct (p_status e); simpl; done.
Qed.

(** One UPDATE of a row in error that the statement leaves in error. *)
Lemma before_update_error (now : Z) (OLD NEW : Row) :
  status OLD = error → status NEW = error →
  int4 (error_count OLD) → int4 (error_count NEW) →
  let r := default OLD (before_update now OLD NEW) in
  status r = error
  ∧ int4 (error_count r)
  ∧ error_count r = Z.min (error_count OLD + 1) 2147483647.
Proof.
  intros Hold Hnew Ho Hn. unfold before_update, increment_error_count.
  destruct (decide (status NEW = error)) as [_|]; [|done].
  unfold int4 in *.
  destruct (decide _) as [Hrange|Hrange]; simpl in *.
  - split_and!; (done || lia).
  - split_and!; (done || lia).
Qed.

(** UPDATEs of a row whose status is and stays [error] count themselves,
    up to the largest [integer]: after [n] of them the stored
    [error_count] is the former one plus [n], whatever counts the
    statements tried to set, and it stays at 2147483647 once it is there,
    the statements then failing. *)
Theorem error_count_of_updates (stmts : list (Z * (Row → Row))) (r : Row) :
  status r = error →
  int4 (error_count r) →
  Forall (λ stmt, ∀ r', status r' = error →
                        status (stmt.2 r') = error ∧ int4 (error_count (stmt.2 r')))
         stmts →
  status (updates stmts r) = error
  ∧ error_count (updates stmts r)
    = Z.min (error_count r + Z.of_nat (length stmts)) 2147483647.
Proof.
  intros Hr Hrange Hall. revert r Hr Hrange.
  induction Hall as [|stmt stmts Hstmt _ IH]; intros r Hr Hrange.
  - unfold int4 in Hrange. split; [done|]. simpl. lia.
  - destruct (Hstmt r Hr) as [Hs Hi].
    destruct (before_update_error stmt.1 r (stmt.2 r) Hr Hs Hrange Hi)
      as (Hs' & Hi' & Hc').
    destruct (IH _ Hs' Hi') as [Hs'' Hc''].
    unfold updates in *. cbn [foldl]. split; [done|].
    rewrite Hc'', Hc'. rewrite length_cons. unfold int4 in Hrange. lia.
Qed.

Lemma error_count_of_updates_witness :
  status Cases.error_row = error
  ∧ int4 (error_count Cases.error_row)
  ∧ Forall (λ stmt : Z * (Row → Row),
              ∀ r', status r' = error →
                    status (stmt.2 r') = error ∧ int4 (error_count (stmt.2 r')))
           Cases.two_updates
  ∧ error_count (updates Cases.two_updates Cases.error_row) = 3.
Proof.
  assert (H1 : status Cases.error_row = error) by reflexivity.
  assert (H0 : int4 (error_count Cases.error_row)) by (unfold int4; simpl; lia).
  assert (H2 : Forall (λ stmt : Z * (Row → Row),
                         ∀ r', status r' = error →
                               status (stmt.2 r') = error
                               ∧ int4 (error_count (stmt.2 r')))
                 Cases.two_updates).
  { unfold Cases.two_updates.
    apply Forall_cons; split; [|apply Forall_singleton].
    all: intros r' Hr'; (split; [exact Hr'|unfold int4; simpl; lia]). }
  split_and!; [exact H1|exact H0|exact H2|].
  destruct (error_count_of_updates Cases.two_updates Cases.error_row H1 H0 H2) as [_ ->].
  reflexivity.
Defined.

(** At the largest [integer] the count stays where it is. *)
Example error_count_stops_at_the_largest_integer :
  error_count (updates Cases.two_updates (set_error_count 2147483646 Cases.error_row))
  = 2147483647.
Proof. vm_compute. reflexivity. Qed.
End Store_more.

(** ** The archive name *)

Section Archive_name.
Import Backup.

Lemma append_cons (x : ascii) (a b : string) : String x a +:+ b = String x (a +:+ b).
Proof. reflexivity. Qed.

Lemma append_assoc (a b c : string) : (a +:+ b) +:+ c = a +:+ (b +:+ c).
Proof.
  induction a as [|x a IH]; [done|]. rewrite !append_cons. f_equal. exact IH.
Qed.

Lemma rev_app_append (s acc1 acc2 : string) :
  String.rev_app s (acc1 +:+ acc2) = String.rev_app s acc1 +:+ acc2.
Proof.
  revert acc1. induction s as [|x s IH]; intros acc1; [done|].
  apply (IH (String x acc1)).
Qed.

Lemma rev_append (a b : string) :
  String.rev (a +:+ b) = String.rev b +:+ String.rev a.
Proof.
  unfold String.rev.
  assert (H : ∀ acc, String.rev_app (a +:+ b) acc
                     = String.rev_app b "" +:+ String.rev_app a acc).
  { induction a as [|x a IH]; intros acc.
    - apply (rev_app_append b "" acc).
    - rewrite append_cons. apply (IH (String x acc)). }
  apply H.
Qed.

Lemma prefix_append (a b : string) : String.prefix a (a +:+ b) = true.
Proof.
  induction a as [|x a IH]; [by destruct b|].
  rewrite append_cons. simpl. destruct (ascii_dec x x); [done|done].
Qed.

Lemma endsWith_append (a suffix : string) : endsWith (a +:+ suffix) suffix = true.
Proof. unfold endsWith. rewrite rev_append. apply prefix_append. Qed.

Lemma compressedPath_suffix (run : Run) (st : Stats) :
  is_backup (compressedPath run, st) = true.
Proof.
  unfold is_backup, compressedPath.
  change (endsWith (("db_backup_" +:+ replace_colon_dot (iso_now run)) +:+ ".sql.gz")
            ".sql.gz" = true).
  apply endsWith_append.
Qed.

(** The archive a run writes always has the suffix the sweep looks for:
    whatever the clock string, and whatever the size written, the sweep
    that follows the dump lists it among the backups. *)
Theorem written_archive_is_listed (run : Run) (w : World) (sz : N) :
  dump_output run = Some sz →
  {| name := compressedPath run; path := compressedPath run; time := clock run |}
  ∈ list_files (after_dump run (backups w)).
Proof.
  intros Hd. apply list_files_elem_of.
  exists (compressedPath run), {| mtime := clock run; size := sz |}.
  split_and!; [|apply compressedPath_suffix|done].
  unfold after_dump. rewrite Hd. apply lookup_insert_eq.
Qed.

Lemma written_archive_is_listed_witness :
  dump_output Examples.empty_run = Some 0%N
  ∧ {| name := compressedPath Examples.empty_run;
       path := compressedPath Examples.empty_run; time := clock Examples.empty_run |}
    ∈ list_files (after_dump Examples.empty_run (backups Examples.six_world)).
Proof.
  split; [reflexivity|].
  apply (written_archive_is_listed Examples.empty_run Examples.six_world 0).
  reflexivity.
Defined.

(** [replace(/[:.]/g, '-')] leaves no colon and no dot, keeps the length
    and every other character, and changes nothing when applied again. *)
Theorem replace_colon_dot_safe (s : string) :
  String.length (replace_colon_dot s) = String.length s
  ∧ ¬ In ":"%char (String.list_ascii_of_string (replace_colon_dot s))
  ∧ ¬ In "."%char (String.list_ascii_of_string (replace_colon_dot s))
  ∧ (∀ i c, String.get i s = Some c → c ≠ ":"%char → c ≠ "."%char →
            String.get i (replace_colon_dot s) = Some c)
  ∧ replace_colon_dot (replace_colon_dot s) = replace_colon_dot s.
Proof.
  induction s as [|x s (IH1 & IH2 & IH3 & IH4 & IH5)]; simpl.
  { split_and!; try done; tauto. }
  split_and!.
  - by rewrite IH1.
  - intros [H|H]; [|done]. case_bool_decide as Hx; [discriminate|].
    apply Hx. left. by symmetry.
  - intros [H|H]; [|done]. case_bool_decide as Hx; [discriminate|].
    apply Hx. right. by symmetry.
  - intros [|i] c Hc Hn1 Hn2; simpl in *.
    + injection Hc as ->. rewrite bool_decide_eq_false_2; [done|]. by intros [?|?].
    + by apply IH4.
  - rewrite IH5. f_equal.
    destruct (bool_decide (x = ":"%char ∨ x = "."%char)) eqn:E; [reflexivity|].
    by rewrite E.
Qed.
End Archive_name.

(** ** More on the sweep and the backup run *)

Section Backup_more.
Import Backup.

Lemma forEach_unlink_subset (l : list File) (dir : gmap string Stats)
    (n : string) (st : Stats) :
  (forEach (λ file, unlinkSync (path file)) l dir).1 !! n = Some st →
  dir !! n = Some st.
Proof.
  revert dir. induction l as [|x l IH]; intros dir; simpl; [done|].
  unfold unlinkSync at 1. destruct (dir !! path x) eqn:Hx; [|done].
  intros H. apply IH in H. by apply lookup_delete_Some in H as [_ H].
Qed.

Lemma forEach_unlink_other (l : list File) (dir : gmap string Stats) (n : string) :
  n ∉ path <$> l →
  (forEach (λ file, unlinkSync (path file)) l dir).1 !! n = dir !! n.
Proof.
  revert dir. induction l as [|x l IH]; intros dir Hn; simpl; [done|].
  rewrite fmap_cons in Hn. apply not_elem_of_cons in Hn as [Hne Hn].
  unfold unlinkSync at 1. destruct (dir !! path x) eqn:Hx; [|done].
  rewrite IH by done. by rewrite lookup_delete_ne.
Qed.

Lemma slice_sublist {A} (start : Z) (l : list A) : slice start l `sublist_of` l.
Proof. unfold slice. apply sublist_drop. Qed.

Lemma not_backup_not_listed (dir : gmap string Stats) (n : string) (st : Stats) :
  dir !! n = Some st → is_backup (n, st) = false → n ∉ path <$> list_files dir.
Proof.
  intros Hl Hb (f & -> & Hf)%list_elem_of_fmap.
  apply list_files_elem_of in Hf as (n' & st' & _ & Hb' & ->).
  simpl in *. unfold is_backup in *. simpl in *. congruence.
Qed.

Lemma cleanOldBackups_removes_only (cfg : Config) (now : Z)
    (dir : gmap string Stats) (n : string) (st : Stats) :
  ((cleanOldBackups cfg now dir).1 !! n = Some st → dir !! n = Some st)
  ∧ (dir !! n = Some st → is_backup (n, st) = false →
     (cleanOldBackups cfg now dir).1 !! n = Some st).
Proof.
  unfold cleanOldBackups.
  set (counted := if MAX_BACKUPS cfg <? Z.of_nat (length (list_files dir))
                  then forEach (λ file, unlinkSync (path file))
                         (slice (MAX_BACKUPS cfg) (list_files dir)) dir
                  else (dir, None)).
  assert (H1 : counted.1 !! n = Some st → dir !! n = Some st).
  { subst counted. destruct (_ <? _); [|done]. apply forEach_unlink_subset. }
  assert (H2 : dir !! n = Some st → is_backup (n, st) = false →
               counted.1 !! n = Some st).
  { subst counted. intros Hl Hb. destruct (_ <? _); [|done].
    rewrite forEach_unlink_other; [done|].
    intros Hin. apply (not_backup_not_listed dir n st Hl Hb).
    eapply elem_of_sublist; [exact Hin|]. apply fmap_sublist, slice_sublist. }
  destruct counted as [dir1 [e|]]; simpl in *; [done|].
  rewrite forEach_if. split.
  - intros H. apply forEach_unlink_subset in H. by apply H1.
  - intros Hl Hb. rewrite forEach_unlink_other; [by apply H2|].
    intros Hin. apply (not_backup_not_listed dir n st Hl Hb).
    eapply elem_of_sublist; [exact Hin|]. apply fmap_sublist, sublist_filter.
Qed.

(** Whatever the two numbers of the policy, negative ones included, and
    whether it returns or throws, the sweep only removes entries, and
    only archives: an entry it leaves was there with the same [stat],
    and a file without the suffix [.sql.gz] is left in place. *)
Theorem sweep_only_removes_archives (cfg : Config) (now : Z)
    (dir : gmap string Stats) (n : string) (st : Stats) :
  ((cleanOldBackups cfg now dir).1 !! n = Some st → dir !! n = Some st)
  ∧ (dir !! n = Some st → is_backup (n, st) = false →
     (cleanOldBackups cfg now dir).1 !! n = Some st).
Proof. exact (cleanOldBackups_removes_only cfg now dir n st). Qed.

(** The count rule removes the oldest archives: an archive that is
    removed although it has not expired is at most as recent as every
    archive that is left. *)
Theorem count_rule_removes_oldest (cfg : Config) (now : Z)
    (dir : gmap string Stats) (f k : File) :
  0 ≤ MAX_BACKUPS cfg →
  f ∈ list_files dir →
  f ∉ list_files (cleanOldBackups cfg now dir).1 →
  expired cfg now f = false →
  k ∈ list_files (cleanOldBackups cfg now dir).1 →
  time f ≤ time k.
Proof.
  intros Hmax Hf Hgone Hyoung Hk.
  apply (survivors_elem_of cfg now Hmax) in Hk as [Hk _].
  assert (f ∈ drop (Z.to_nat (MAX_BACKUPS cfg)) (list_files dir)) as Hdrop.
  { rewrite <- (take_drop (Z.to_nat (MAX_BACKUPS cfg)) (list_files dir)) in Hf.
    apply elem_of_app in Hf as [Hf|Hf]; [|done].
    exfalso. apply Hgone. apply (survivors_elem_of cfg now Hmax).
    split; [done|]. rewrite Hyoung. intros []. }
  pose proof (list_files_ordered dir) as Hord.
  rewrite <- (take_drop (Z.to_nat (MAX_BACKUPS cfg)) (list_files dir)) in Hord.
  pose proof (ordered_app newer_first _ _ k f Hord Hk Hdrop) as H.
  unfold newer_first in H. apply Z.ltb_ge in H. lia.
Qed.

Lemma count_rule_removes_oldest_witness :
  let dir' := (cleanOldBackups default_config 10 Examples.six).1 in
  let a := {| name := "a.sql.gz"; path := "a.sql.gz"; time := 1 |} in
  let b := {| name := "b.sql.gz"; path := "b.sql.gz"; time := 2 |} in
  0 ≤ MAX_BACKUPS default_config
  ∧ a ∈ list_files Examples.six
  ∧ (a ∉ list_files dir')
  ∧ expired default_config 10 a = false
  ∧ b ∈ list_files dir'
  ∧ time a ≤ time b.
Proof.
  intros dir' a b.
  assert (H0 : 0 ≤ MAX_BACKUPS default_config) by done.
  assert (H1 : a ∈ list_files Examples.six).
  { apply list_elem_of_In. vm_compute. tauto. }
  assert (H2 : a ∉ list_files dir').
  { intros H%list_elem_of_In. vm_compute in H.
    repeat (destruct H as [H|H]; [discriminate H|]). exact H. }
  assert (H3 : expired default_config 10 a = false) by reflexivity.
  assert (H4 : b ∈ list_files dir').
  { apply list_elem_of_In. vm_compute. tauto. }
  split_and!; [exact H0|exact H1|exact H2|exact H3|exact H4|].
  exact (count_rule_removes_oldest default_config 10 Examples.six a b H0 H1 H2 H3 H4).
Defined.
End Backup_more.

Section Backup_result.
Import Backup.

(** A run reports success exactly when the pipeline did not fail, the
    archive is there and not empty, the sweep did not throw and the
    [psql] insert did not fail; it adds a [backup] row to the table
    exactly then, and only then returns a path. *)
Theorem backup_recorded_iff_all_steps (cfg : Config) (run : Run) (w : World) :
  let r := backupDatabase cfg run w in
  let dir := after_dump run (backups w) in
  (success r.2 = true
   ↔ dump_thrown run = None
     ∧ empty_or_missing (compressedPath run) dir = false
     ∧ (cleanOldBackups cfg (sweep_now run) dir).2 = None
     ∧ psql_thrown run = None)
  ∧ system_status r.1
    = (if success r.2
       then system_status w
            ++ [Db.new_row (clock run) Db.backup (Db.J_backup_file (compressedPath run))
                  (Some (clock run)) 0 None]
       else system_status w)
  ∧ backup_path r.2 = (if success r.2 then Some (compressedPath run) else None)
  ∧ (success r.2 = false → is_Some (backup_error r.2)).
Proof.
  intros r dir. subst r. unfold backupDatabase. fold dir.
  destruct (dump_thrown run) as [e|];
    [split_and!; [split; [done|by intros (? & _)]|done|done|by eexists]|].
  destruct (empty_or_missing (compressedPath run) dir);
    [split_and!; [split; [done|by intros (_ & ? & _)]|done|done|by eexists]|].
  destruct (cleanOldBackups cfg (sweep_now run) dir) as [dir' [e|]];
    [split_and!; [split; [done|by intros (_ & _ & ? & _)]|done|done|by eexists]|].
  destruct (psql_thrown run) as [e|];
    [split_and!; [split; [done|by intros (_ & _ & _ & ?)]|done|done|by eexists]|].
  split_and!; done.
Qed.

Lemma backupDatabase_dir (cfg : Config) (run : Run) (w : World) :
  backups (backupDatabase cfg run w).1 = after_dump run (backups w)
  ∨ backups (backupDatabase cfg run w).1
    = (cleanOldBackups cfg (sweep_now run) (after_dump run (backups w))).1.
Proof.
  unfold backupDatabase.
  destruct (dump_thrown run); [by left|].
  destruct (empty_or_missing _ _); [by left|].
  destruct (cleanOldBackups _ _ _) as [dir' [e|]]; [by right|].
  destruct (psql_thrown run); by right.
Qed.

Lemma backupDatabase_success_dir (cfg : Config) (run : Run) (w : World) :
  success (backupDatabase cfg run w).2 = true →
  backups (backupDatabase cfg run w).1
  = (cleanOldBackups cfg (sweep_now run) (after_dump run (backups w))).1
  ∧ backup_path (backupDatabase cfg run w).2 = Some (compressedPath run).
Proof.
  unfold backupDatabase.
  destruct (dump_thrown run); [done|].
  destruct (empty_or_missing _ _); [done|].
  destruct (cleanOldBackups _ _ _) as [dir' [e|]]; [done|].
  destruct (psql_thrown run); done.
Qed.

(** The archive a run has just written is still in the directory at the
    end of the run, whatever the result of the run, when the policy keeps
    at least one archive, the archive has not expired by the time the
    sweep reads the clock, and the other archives are older than it. *)
Theorem fresh_archive_survives (cfg : Config) (run : Run) (w : World) (sz : N) :
  dump_output run = Some sz →
  1 ≤ MAX_BACKUPS cfg →
  sweep_now run - clock run ≤ retentionMs cfg →
  (∀ n st, backups w !! n = Some st → n ≠ compressedPath run →
           is_backup (n, st) = true → mtime st < clock run) →
  backups (backupDatabase cfg run w).1 !! compressedPath run
  = Some {| mtime := clock run; size := sz |}.
Proof.
  intros Hd Hmax Hret Holder.
  set (p := compressedPath run). set (new := {| mtime := clock run; size := sz |}).
  assert (Hdir : after_dump run (backups w) !! p = Some new).
  { unfold after_dump. rewrite Hd. apply lookup_insert_eq. }
  destruct (backupDatabase_dir cfg run w) as [->| ->]; [done|].
  set (dir := after_dump run (backups w)) in *.
  assert (Hmax0 : 0 ≤ MAX_BACKUPS cfg) by lia.
  assert (Hin : to_file (p, new) ∈ list_files dir).
  { apply list_files_elem_of. exists p, new.
    split_and!; [done|apply compressedPath_suffix|done]. }
  assert (Hhead : head (list_files dir) = Some (to_file (p, new))).
  { unfold list_files.
    apply sort_head_first; [apply newer_first_asym|apply newer_first_negtrans| |].
    - by apply (sort_elem_of newer_first).
    - intros y Hy Hnew. apply (sort_elem_of newer_first) in Hy.
      apply list_files_elem_of in Hy as (n & st & Hl & Hb & ->).
      unfold newer_first in Hnew. simpl in Hnew. apply Z.ltb_ge in Hnew.
      destruct (decide (n = p)) as [->|Hne]; [by simplify_eq|].
      unfold dir, after_dump in Hl. rewrite Hd in Hl.
      rewrite lookup_insert_ne in Hl by done.
      pose proof (Holder n st Hl Hne Hb). lia. }
  assert (Hkept : to_file (p, new) ∈ list_files (cleanOldBackups cfg (sweep_now run) dir).1).
  { apply (survivors_elem_of cfg (sweep_now run) Hmax0). split.
    - destruct (list_files dir) as [|h rest]; [done|]. simpl in Hhead. simplify_eq.
      destruct (Z.to_nat (MAX_BACKUPS cfg)) as [|m] eqn:Hm; [lia|]. by left.
    - unfold expired. simpl.
      replace (retentionMs cfg <? sweep_now run - clock run) with false; [intros []|].
      symmetry. apply Z.ltb_ge. lia. }
  apply list_files_elem_of in Hkept as (n & st & Hl & _ & Heq).
  injection Heq as <- _.
  assert (dir !! p = Some st) as Hst.
  { by apply (cleanOldBackups_removes_only cfg (sweep_now run) dir p st). }
  congruence.
Qed.
End Backup_result.

Section Backup_result_cases.
Import Backup.

Lemma fresh_archive_survives_witness :
  dump_output Cases.slow_run = Some 10%N
  ∧ 1 ≤ MAX_BACKUPS default_config
  ∧ sweep_now Cases.slow_run - clock Cases.slow_run ≤ retentionMs default_config
  ∧ success (backupDatabase default_config Cases.slow_run Examples.six_world).2 = false
  ∧ backups (backupDatabase default_config Cases.slow_run Examples.six_world).1
    !! compressedPath Cases.slow_run
    = Some {| mtime := clock Cases.slow_run; size := 10 |}.
Proof.
  assert (H1 : dump_output Cases.slow_run = Some 10%N) by reflexivity.
  assert (H2 : 1 ≤ MAX_BACKUPS default_config) by done.
  assert (H3 : sweep_now Cases.slow_run - clock Cases.slow_run
               ≤ retentionMs default_config) by (vm_compute; discriminate).
  assert (H4 : ∀ n st, backups Examples.six_world !! n = Some st →
                 n ≠ compressedPath Cases.slow_run →
                 is_backup (n, st) = true → mtime st < clock Cases.slow_run).
  { assert (Hall : forallb (λ e : string * Stats, mtime e.2 <? Examples.week_later)
                     (map_to_list Examples.six) = true)
      by (vm_compute; reflexivity).
    intros n st Hl _ _.
    pose proof (proj2 (elem_of_map_to_list Examples.six n st) Hl) as Hin.
    rewrite forallb_forall in Hall. apply list_elem_of_In in Hin.
    apply Z.ltb_lt. exact (Hall (n, st) Hin). }
  split_and!; [exact H1|exact H2|exact H3|vm_compute; reflexivity|].
  exact (fresh_archive_survives default_config Cases.slow_run Examples.six_world
           10 H1 H2 H3 H4).
Defined.

(** With a retention time of 0 days the sweep, which reads the clock
    after the dump, finds the new archive expired: the run removes its
    own archive and reports success. *)
Example zero_retention_removes_own_archive :
  let r := backupDatabase Cases.keep_no_time Cases.slow_run Examples.empty_world in
  success r.2 = true
  ∧ backup_path r.2 = Some (compressedPath Cases.slow_run)
  ∧ backups r.1 !! compressedPath Cases.slow_run = None.
Proof. split_and!; vm_compute; reflexivity. Qed.

(** With [MAX_BACKUPS] 0 a run that reports success has removed its own
    archive: no archive is left in the directory and the path it returns
    names no file. *)
Theorem keep_none_removes_own_archive (cfg : Config) (run : Run) (w : World) :
  MAX_BACKUPS cfg = 0 →
  success (backupDatabase cfg run w).2 = true →
  backup_path (backupDatabase cfg run w).2 = Some (compressedPath run)
  ∧ backups (backupDatabase cfg run w).1 !! compressedPath run = None
  ∧ list_files (backups (backupDatabase cfg run w).1) = [].
Proof.
  intros Hmax Hok.
  destruct (backupDatabase_success_dir cfg run w Hok) as [-> ->].
  assert (Hmax0 : 0 ≤ MAX_BACKUPS cfg) by lia.
  pose proof (survivors_count cfg (sweep_now run) Hmax0 (after_dump run (backups w))) as Hlen.
  rewrite Hmax in Hlen. change (Z.to_nat 0) with 0%nat in Hlen.
  assert (Hnil : list_files (cleanOldBackups cfg (sweep_now run)
                               (after_dump run (backups w))).1 = []).
  { destruct (list_files _); [done|]. rewrite length_cons in Hlen. lia. }
  split_and!; [done| |done].
  destruct (_ !! compressedPath run) as [st|] eqn:Hl; [|done].
  assert (to_file (compressedPath run, st)
          ∈ list_files (cleanOldBackups cfg (sweep_now run)
                          (after_dump run (backups w))).1) as Hin.
  { apply list_files_elem_of. exists (compressedPath run), st.
    split_and!; [done|apply compressedPath_suffix|done]. }
  rewrite Hnil in Hin. by apply elem_of_nil in Hin.
Qed.

Lemma keep_none_removes_own_archive_witness :
  MAX_BACKUPS Cases.keep_none = 0
  ∧ success (backupDatabase Cases.keep_none Examples.good_run Examples.empty_world).2
    = true
  ∧ backups (backupDatabase Cases.keep_none Examples.good_run Examples.empty_world).1
    !! compressedPath Examples.good_run = None.
Proof.
  assert (H1 : MAX_BACKUPS Cases.keep_none = 0) by reflexivity.
  assert (H2 : success (backupDatabase Cases.keep_none Examples.good_run
                          Examples.empty_world).2 = true) by (vm_compute; reflexivity).
  split_and!; [exact H1|exact H2|].
  apply (keep_none_removes_own_archive Cases.keep_none Examples.good_run
           Examples.empty_world H1 H2).
Defined.
End Backup_result_cases.

(** ** More on the monitor *)

Section Monitor_more.
Import Backup Monitor.
Variables (cfg : Config) (env : Env).

(** Where the warnings of the loop over the tables come from. *)
Lemma tables_loop_warnings (ts : list string) (a : SystemState * State) (w : string) :
  w ∈ warnings (foldl (check_table cfg env) a ts).1 →
  w ∈ warnings a.1
  ∨ ∃ t p c, t ∈ ts ∧ loss_detected (lastKnownState a.2) env t p c
             ∧ w = data_loss_warning t p c.
Proof.
  revert a. induction ts as [|t ts IH]; intros [st s]; cbn [foldl]; [by left|].
  intros H. apply IH in H.
  pose proof (check_table_evolves cfg env (st, s) t)
    as (_ & _ & _ & (_ & Hlks & _) & _).
  destruct H as [H|(t' & p & c & Hin & Hloss & ->)].
  - destruct (check_table_cases cfg env st s t)
      as [(m & _ & Heq)|[(_ & _ & Heq)|(p & c & Hloss & Heq)]];
      rewrite Heq in H; simpl in H; [by left|by left|].
    apply elem_of_app in H as [H|H]; [by left|].
    apply list_elem_of_singleton in H as ->.
    right. exists t, p, c. split_and!; [by left|done|done].
  - right. exists t', p, c. split_and!; [by right| |done].
    rewrite Hlks in Hloss. exact Hloss.
Qed.

(** The entries of [state.tables] after the loop. *)
Lemma tables_loop_lookup (ts : list string) (a : SystemState * State) (table : string) :
  tables (foldl (check_table cfg env) a ts).1 !! table
  = if decide (table ∈ ts ∧ count_error (select_count env table) = None)
    then Some (default 0%N (count (select_count env table)))
    else tables a.1 !! table.
Proof.
  revert a. induction ts as [|t ts IH]; intros [st s]; cbn [foldl].
  { rewrite decide_False; [done|]. intros [?%elem_of_nil _]. done. }
  rewrite IH.
  destruct (decide (table ∈ ts ∧ count_error (select_count env table) = None))
    as [[Hin Herr]|Hno].
  { rewrite decide_True; [done|]. split; [by right|done]. }
  destruct (check_table_cases cfg env st s t)
    as [(m & Herr & ->)|[(Herr & _ & ->)|(p & c & (Herr & _ & Hc & _) & ->)]]; simpl.
  - rewrite decide_False; [done|].
    intros [[->|Hin]%elem_of_cons Herr']; [congruence|]. by apply Hno.
  - destruct (decide (t = table)) as [->|Hne].
    + rewrite lookup_insert_eq, decide_True; [done|]. split; [by left|done].
    + rewrite lookup_insert_ne by done. rewrite decide_False; [done|].
      intros [[->|Hin]%elem_of_cons Herr']; [done|]. by apply Hno.
  - destruct (decide (t = table)) as [->|Hne].
    + rewrite lookup_insert_eq, decide_True; [by rewrite Hc|]. split; [by left|done].
    + rewrite lookup_insert_ne by done. rewrite decide_False; [done|].
      intros [[->|Hin]%elem_of_cons Herr']; [done|]. by apply Hno.
Qed.

(** The errors of the loop. *)
Lemma tables_loop_errors (ts : list string) (a : SystemState * State)
    (table m : string) :
  table ∈ ts → count_error (select_count env table) = Some m →
  ("Error checking table " +:+ table +:+ ": " +:+ m)
  ∈ errors (foldl (check_table cfg env) a ts).1.
Proof.
  revert a. induction ts as [|t ts IH]; intros [st s] Hin Herr; cbn [foldl].
  { by apply elem_of_nil in Hin. }
  apply elem_of_cons in Hin as [->|Hin]; [|by apply IH].
  pose proof (tables_loop_evolves cfg env ts (check_table cfg env (st, s) t))
    as (_ & _ & es & _ & _ & -> & _).
  apply elem_of_app; left.
  destruct (check_table_cases cfg env st s t)
    as [(m' & Herr' & ->)|[(Herr' & _)|(p & c & (Herr' & _) & _)]];
    [|congruence|congruence].
  simpl. apply elem_of_app; right. rewrite Herr in Herr'. injection Herr' as <-.
  by left.
Qed.

Lemma check_last_backup_calls (st : SystemState) (s : State) :
  (backup_calls (check_last_backup cfg env st s).1.2 ≤ S (backup_calls s))%nat.
Proof.
  unfold check_last_backup.
  destruct (createBackup_grows cfg env s) as (_ & _ & Hcalls & _).
  destruct (Db.select_first_desc _ _) as [[t|]|];
    [destruct (_ <? _); [|simpl; lia]| |];
    destruct (createBackup cfg env s) as [s' thrown]; simpl in *; lia.
Qed.

(** The query of the backup check sees the rows that were there before
    the tick. *)
Lemma check_last_backup_healthy (st : SystemState) (s : State) :
  warnings (check_last_backup cfg env st s).1.1 = [] →
  ∃ t, Db.select_first_desc Db.last_backup_time (system_status (store s))
       = Some (Some t).
Proof.
  unfold check_last_backup.
  destruct (Db.select_first_desc _ _) as [[t|]|]; [by exists t| |].
  all: destruct (createBackup cfg env s) as [s' thrown]; simpl;
    intros H; by destruct (warnings st).
Qed.

Lemma select_first_desc_some (column : Db.Row → option Z) (tbl : list Db.Row) (t : Z) :
  Db.select_first_desc column tbl = Some (Some t) →
  tbl ≠ [] ∧ ∀ r, r ∈ tbl → column r ≠ None.
Proof.
  intros H. split; [by intros ->|].
  intros r Hr Hnull. by rewrite (select_first_desc_null column tbl r Hr Hnull) in H.
Qed.

(** A tick is healthy only on a store in which every row has a backup
    time. *)
Lemma healthy_store (s : State) :
  status (final (checkSystem cfg env s)) = healthy →
  system_status (store s) ≠ []
  ∧ ∀ r, r ∈ system_status (store s) → Db.last_backup_time r ≠ None.
Proof.
  pose proof (checkSystem_anatomy cfg env s) as Han. simpl in Han.
  destruct Han as (_ & _ & _ & _ & _ & _ & Hrank & _).
  revert Hrank. unfold checkSystem.
  destruct (version env) as [e|]; [simpl; intros _ H; discriminate H|].
  pose proof (tables_loop_evolves cfg env CRITICAL_TABLES (initial_state env, s)) as Hev.
  destruct (foldl (check_table cfg env) (initial_state env, s) CRITICAL_TABLES)
    as [st1 s1].
  destruct Hev as (r1 & w1 & e1 & (G1 & _ & _ & N1 & _) & W1 & _ & Z1 & _).
  pose proof (check_last_backup_healthy st1 s1) as Hq.
  destruct (check_last_backup_spec cfg env st1 s1) as (r2 & w2 & K).
  destruct (check_last_backup cfg env st1 s1) as [[st2 s2] [e|]]; simpl in *.
  { intros _ H. discriminate H. }
  destruct K as (_ & W2 & _).
  intros Hrank Hh. rewrite Hh in Hrank.
  destruct (decide (errors st2 = [])); [|done].
  destruct (decide (warnings st2 = [])) as [Hw|]; [|done].
  destruct (Hq Hw) as [t Ht].
  rewrite W2, W1 in Hw. apply app_eq_nil in Hw as [Hw1 _].
  destruct (Z1 Hw1) as [_ Hcalls]. rewrite Hcalls in N1.
  assert (r1 = []) as -> by (destruct r1; [done|simpl in N1; lia]).
  rewrite app_nil_r in G1. rewrite G1 in Ht.
  by apply select_first_desc_some in Ht.
Qed.
End Monitor_more.

Section Monitor_extras.
Import Backup Monitor.

Lemma final_warnings (cfg : Config) (env : Env) (s : State) :
  version env = None →
  ∃ ws, warnings (final (checkSystem cfg env s))
        = warnings (foldl (check_table cfg env) (initial_state env, s)
                      CRITICAL_TABLES).1 ++ ws
        ∧ Forall (λ w, w = "No recent backup found (>24 hours)"
                       ∨ w = "No backup history found") ws
        ∧ tables (final (checkSystem cfg env s))
          = tables (foldl (check_table cfg env) (initial_state env, s)
                      CRITICAL_TABLES).1
        ∧ (∀ m, m ∈ errors (foldl (check_table cfg env) (initial_state env, s)
                             CRITICAL_TABLES).1
                → m ∈ errors (final (checkSystem cfg env s)))
        ∧ (backup_calls (after (checkSystem cfg env s))
           ≤ S (backup_calls (foldl (check_table cfg env) (initial_state env, s)
                                CRITICAL_TABLES).2))%nat.
Proof.
  intros Hv. unfold checkSystem. rewrite Hv.
  destruct (foldl (check_table cfg env) (initial_state env, s) CRITICAL_TABLES)
    as [st1 s1].
  destruct (check_last_backup_spec cfg env st1 s1) as (r2 & w2 & K).
  pose proof (check_last_backup_calls cfg env st1 s1) as Hcalls.
  destruct (check_last_backup cfg env st1 s1) as [[st2 s2] thrown].
  simpl in K, Hcalls. destruct K as (_ & W2 & E2 & _ & T2 & _ & B2).
  exists w2. unfold on_throw, updateSystemStatus.
  destruct thrown as [e|]; cbn [after final backup_calls]; rewrite ?insert_row_calls.
  - split_and!; [done|done|done| |done].
    intros m Hm. cbn [errors push_error set_status].
    apply elem_of_app; left. by rewrite E2.
  - split_and!; [done|done|done| |done]. intros m Hm.
    cbn [errors set_status]. by rewrite E2.
Qed.

(** The monitor gives no data-loss warning without cause: a warning of a
    tick is one of the two backup warnings, or names a critical table
    whose previous count is not 0, whose count was returned without
    error, and whose count is below the previous one minus a tenth of
    it, as the binary64 arithmetic of the code computes it; for counts
    below [2^53] (the integers that a number holds exactly and prints
    digit by digit) the count is then below nine tenths of the previous
    count, and the warning is the message of the code with the two
    counts. *)
Theorem warnings_are_justified (cfg : Config) (env : Env) (s : State) (w : string) :
  w ∈ warnings (final (checkSystem cfg env s)) →
  w = "No recent backup found (>24 hours)"
  ∨ w = "No backup history found"
  ∨ ∃ previous table p c,
      lastKnownState s = Some previous
      ∧ table ∈ CRITICAL_TABLES
      ∧ tables previous !! table = Some p
      ∧ select_count env table = {| count := Some c; count_error := None |}
      ∧ p ≠ 0%N
      ∧ below_threshold c p = true
      ∧ (Z.of_N p < 2 ^ 53 → Z.of_N c < 2 ^ 53 →
         10 * Z.of_N c < 9 * Z.of_N p ∧ w = data_loss_warning table p c).
Proof.
  intros Hw.
  destruct (version env) as [e|] eqn:Hv.
  { unfold checkSystem in Hw. rewrite Hv in Hw. simpl in Hw.
    by apply elem_of_nil in Hw. }
  destruct (final_warnings cfg env s Hv) as (ws & Hws & Hback & _).
  rewrite Hws in Hw. apply elem_of_app in Hw as [Hw|Hw].
  - apply tables_loop_warnings in Hw as [Hw|(t & p & c & Hin & Hloss & ->)].
    { simpl in Hw. by apply elem_of_nil in Hw. }
    right; right. destruct Hloss as (Herr & Hp & Hc & Hnz & Hlt). simpl in Hp.
    destruct (lastKnownState s) as [previous|] eqn:Hlks; [|done]. simpl in Hp.
    exists previous, t, p, c. split_and!; try done.
    + destruct (select_count env t) as [cnt cerr]. simpl in *. by subst.
    + intros Hp53 Hc53. split; [|done].
      exact (proj1 (below_threshold_normal c p ltac:(lia) Hp53 Hc53) Hlt).
  - rewrite Forall_forall in Hback. destruct (Hback w Hw) as [->| ->]; auto.
Qed.

Lemma warnings_are_justified_witness :
  let w := "Significant data loss detected in user_profiles: Previous=100, Current=85" in
  let env := Examples.env_at 3000 (Some 85%N) Examples.good_run in
  w ∈ warnings (final Examples.tick2_loss)
  ∧ (w = "No recent backup found (>24 hours)"
     ∨ w = "No backup history found"
     ∨ ∃ previous table p c,
         lastKnownState (after Examples.tick1) = Some previous
         ∧ table ∈ CRITICAL_TABLES
         ∧ tables previous !! table = Some p
         ∧ select_count env table = {| count := Some c; count_error := None |}
         ∧ p ≠ 0%N
         ∧ below_threshold c p = true
         ∧ (Z.of_N p < 2 ^ 53 → Z.of_N c < 2 ^ 53 →
            10 * Z.of_N c < 9 * Z.of_N p ∧ w = data_loss_warning table p c)).
Proof.
  intros w env.
  assert (H : w ∈ warnings (final Examples.tick2_loss)).
  { apply list_elem_of_In. vm_compute. tauto. }
  split; [exact H|].
  exact (warnings_are_justified default_config env (after Examples.tick1) w H).
Defined.

(** The first tick of a monitor, which has no previous state, reports no
    data loss whatever the counts: its warnings are backup warnings
    only, and it makes at most one backup. *)
Theorem first_tick_reports_no_loss (cfg : Config) (env : Env) (s : State) :
  lastKnownState s = None →
  Forall (λ w, w = "No recent backup found (>24 hours)" ∨ w = "No backup history found")
         (warnings (final (checkSystem cfg env s)))
  ∧ (backup_calls (after (checkSystem cfg env s)) ≤ S (backup_calls s))%nat.
Proof.
  intros Hlks.
  destruct (version env) as [e|] eqn:Hv.
  { pose proof (checkSystem_calls cfg env s) as Hc. revert Hc.
    unfold checkSystem. rewrite Hv. cbn [final on_throw warnings push_error set_status
                                         initial_state].
    intros ->. split; [constructor|simpl; lia]. }
  destruct (final_warnings cfg env s Hv) as (ws & Hws & Hback & _ & _ & Hcalls).
  assert (Hnone : warnings (foldl (check_table cfg env) (initial_state env, s)
                              CRITICAL_TABLES).1 = []).
  { destruct (warnings (foldl (check_table cfg env) (initial_state env, s)
                          CRITICAL_TABLES).1) as [|w l] eqn:E; [reflexivity|].
    exfalso.
    assert (Hw : w ∈ warnings (foldl (check_table cfg env) (initial_state env, s)
                                 CRITICAL_TABLES).1) by (rewrite E; by left).
    apply tables_loop_warnings in Hw as [Hw|(t & p & c & _ & (_ & Hp & _) & _)].
    - simpl in Hw. by apply elem_of_nil in Hw.
    - simpl in Hp. by rewrite Hlks in Hp. }
  rewrite Hws, Hnone. split; [done|].
  pose proof (tables_loop_evolves cfg env CRITICAL_TABLES (initial_state env, s))
    as (r1 & w1 & e1 & _ & W1 & _ & Z1 & _).
  rewrite Hnone in W1. symmetry in W1. apply app_eq_nil in W1 as [_ Hw1].
  destruct (Z1 Hw1) as [_ Hc]. cbn [snd] in Hc. lia.
Qed.

Lemma first_tick_reports_no_loss_witness :
  lastKnownState (new_monitor Examples.empty_world) = None
  ∧ Forall (λ w, w = "No recent backup found (>24 hours)" ∨ w = "No backup history found")
      (warnings (final Examples.tick1)).
Proof.
  split; [reflexivity|].
  apply (first_tick_reports_no_loss default_config
           (Examples.env_at 2000 (Some 100%N) Examples.good_run)
           (new_monitor Examples.empty_world)).
  reflexivity.
Defined.

(** A failed count does not stop the tick: when the [version] call
    succeeds, the state of the tick holds the count of every critical
    table whose count did not fail (0 for a null count) and of no other
    table, and its errors hold the message of every count that failed. *)
Theorem failed_counts_are_recorded (cfg : Config) (env : Env) (s : State) :
  version env = None →
  (∀ table,
     tables (final (checkSystem cfg env s)) !! table
     = if decide (table ∈ CRITICAL_TABLES
                  ∧ count_error (select_count env table) = None)
       then Some (default 0%N (count (select_count env table)))
       else None)
  ∧ ∀ table m,
      table ∈ CRITICAL_TABLES → count_error (select_count env table) = Some m →
      ("Error checking table " +:+ table +:+ ": " +:+ m)
      ∈ errors (final (checkSystem cfg env s)).
Proof.
  intros Hv.
  destruct (final_warnings cfg env s Hv) as (ws & _ & _ & Ht & He & _).
  split.
  - intros table. rewrite Ht, tables_loop_lookup. simpl.
    case_decide; [done|apply lookup_empty].
  - intros table m Hin Herr. apply He. by apply tables_loop_errors.
Qed.

Lemma failed_counts_are_recorded_witness :
  version (Examples.env_count_error 3000) = None
  ∧ tables (final Examples.tick2_count_error) !! "schools" = None
  ∧ tables (final Examples.tick2_count_error) !! "content" = Some 7%N
  ∧ "Error checking table schools: permission denied"
    ∈ errors (final Examples.tick2_count_error).
Proof.
  assert (Hv : version (Examples.env_count_error 3000) = None) by reflexivity.
  destruct (failed_counts_are_recorded default_config (Examples.env_count_error 3000)
              (after Examples.tick1) Hv) as [Ht He].
  split_and!; [exact Hv| | |].
  - unfold Examples.tick2_count_error. rewrite Ht. reflexivity.
  - unfold Examples.tick2_count_error. rewrite Ht. reflexivity.
  - apply (He "schools" "permission denied"); [|reflexivity].
    unfold CRITICAL_TABLES. apply elem_of_cons; right. by left.
Defined.
End Monitor_extras.

Section Monitor_status.
Import Backup Monitor.

(** A tick ends healthy only if, before it, the table is not empty and
    every row has a backup time: one row with a NULL backup time, or no
    row, and the tick warns and is recorded as an error. *)
Theorem healthy_needs_backup_times (cfg : Config) (env : Env) (s : State) :
  status (final (checkSystem cfg env s)) = healthy →
  system_status (store s) ≠ []
  ∧ ∀ r, r ∈ system_status (store s) → Db.last_backup_time r ≠ None.
Proof. apply healthy_store. Qed.

Lemma healthy_needs_backup_times_witness :
  status (final Cases.healthy_tick) = healthy
  ∧ system_status (store (new_monitor Cases.backed_up_world)) ≠ [].
Proof.
  assert (H : status (final Cases.healthy_tick) = healthy) by (vm_compute; reflexivity).
  split; [exact H|].
  apply (healthy_needs_backup_times default_config
           (Examples.env_at 400 (Some 100%N) Examples.good_run)
           (new_monitor Cases.backed_up_world) H).
Defined.

(** No tick that follows a tick whose audit row the store accepted is
    healthy: that row has no backup time, so the later tick finds no
    backup history (or fails), whatever both ticks meet. *)
Theorem tick_after_tick_is_not_healthy (cfg : Config) (env env' : Env) (s : State) :
  rejects env (audit_row env (final (checkSystem cfg env s))) = false →
  status (final (checkSystem cfg env' (after (checkSystem cfg env s)))) ≠ healthy.
Proof.
  intros Hacc H. apply healthy_store in H as [_ Hall].
  destruct (checkSystem_anatomy cfg env s) as (rows & Hrows & _).
  unfold audit_rows in Hrows. rewrite Hacc in Hrows.
  apply (Hall (Db.increment_error_count None (audit_row env (final (checkSystem cfg env s))))).
  - rewrite Hrows. apply elem_of_app; right. apply elem_of_app; right. by left.
  - by rewrite increment_last_backup_time.
Qed.

Lemma tick_after_tick_is_not_healthy_witness :
  rejects (Examples.env_at 2000 (Some 100%N) Examples.good_run)
    (audit_row (Examples.env_at 2000 (Some 100%N) Examples.good_run)
       (final Examples.tick1)) = false
  ∧ status (final Examples.tick2_same) ≠ healthy.
Proof.
  split; [reflexivity|].
  apply (tick_after_tick_is_not_healthy default_config
           (Examples.env_at 2000 (Some 100%N) Examples.good_run)
           (Examples.env_at 3000 (Some 100%N) Examples.good_run)
           (new_monitor Examples.empty_world)).
  reflexivity.
Defined.

(** The audit row of a tick, when the store accepts it, is the last row
    of the table; it is stored with [error_count] 0 when the tick is
    healthy and 1 otherwise, however many errors the tick has (none,
    when it only has warnings), and with its first error, if any, as
    [last_error]. *)
Theorem audit_row_error_count (cfg : Config) (env : Env) (s : State) :
  let t := checkSystem cfg env s in
  rejects env (audit_row env (final t)) = false →
  ∃ r, last (system_status (store (after t))) = Some r
       ∧ Db.last_known_state r = Db.J_state (final t)
       ∧ Db.error_count r = (if decide (status (final t) = healthy) then 0 else 1)
       ∧ Db.last_error r = Db.J_text <$> head (errors (final t))
       ∧ (status (final t) = healthy → errors (final t) = []).
Proof.
  intros t Hacc.
  destruct (checkSystem_anatomy cfg env s) as (rows & Hrows & _ & _ & _ & _ & Hrank & _).
  fold t in Hrows, Hrank. unfold audit_rows in Hrows. rewrite Hacc in Hrows.
  clearbody t.
  exists (Db.increment_error_count None (audit_row env (final t))).
  assert (Hh : status (final t) = healthy → errors (final t) = []).
  { rewrite Hrank. by repeat case_decide. }
  split_and!; [by rewrite Hrows, app_assoc, last_snoc| | | |done].
  - by rewrite increment_last_known_state.
  - unfold Db.increment_error_count, audit_row, Db.new_row. simpl.
    destruct (decide (status (final t) = healthy)) as [Hy|Hn]; simpl.
    + by rewrite (Hh Hy).
    + done.
  - unfold Db.increment_error_count.
    destruct (decide (Db.status (audit_row env (final t)) = Db.error)); reflexivity.
Qed.

Lemma audit_row_error_count_witness :
  rejects (Examples.env_count_error 3000)
    (audit_row (Examples.env_count_error 3000) (final Examples.tick2_count_error))
  = false
  ∧ (Db.error_count <$> last (system_status (store (after Examples.tick2_count_error))))
    = Some 1.
Proof.
  assert (H : rejects (Examples.env_count_error 3000)
                (audit_row (Examples.env_count_error 3000)
                   (final Examples.tick2_count_error)) = false) by reflexivity.
  split; [exact H|].
  destruct (audit_row_error_count default_config (Examples.env_count_error 3000)
              (after Examples.tick1) H) as (r & Hlast & _ & Hcount & _).
  unfold Examples.tick2_count_error. rewrite Hlast. cbn [fmap option_fmap option_map].
  rewrite Hcount. reflexivity.
Defined.

Lemma start_snoc (cfg : Config) (envs : list Env) (env : Env) (s : State) :
  Loop.start cfg (envs ++ [env]) s
  = after (checkSystem cfg env (Loop.start cfg envs s)).
Proof. unfold Loop.start. by rewrite foldl_app. Qed.

Lemma side_row_not_audit (r : Db.Row) : side_row r → Loop.is_audit r = false.
Proof.
  unfold Loop.is_audit. by intros [[_ [f ->]]|[_ (st & ts & ->)]].
Qed.

Lemma side_rows_no_audit (rows : list Db.Row) :
  Forall side_row rows → filter (λ r, Loop.is_audit r) rows = [].
Proof.
  induction 1 as [|x l Hx _ IH]; [done|].
  rewrite filter_cons_False; [exact IH|].
  rewrite (side_row_not_audit x Hx). intros [].
Qed.

Lemma audit_rows_audit (env : Env) (st : SystemState) :
  Forall (λ r, Loop.is_audit r) (audit_rows env st)
  ∧ (length (audit_rows env st) ≤ 1)%nat
  ∧ ((∀ r, rejects env r = false) → length (audit_rows env st) = 1%nat).
Proof.
  unfold audit_rows. split_and!.
  - destruct (rejects env _); [done|]. apply Forall_singleton.
    unfold Loop.is_audit. by rewrite increment_last_known_state.
  - destruct (rejects env _); simpl; lia.
  - intros Hacc. by rewrite Hacc.
Qed.

(** The timer loop only adds rows: backup rows, incident rows and audit
    rows (rows holding a [state]).  [n] ticks add at most [n] audit
    rows, and exactly [n] when the store accepts every insert. *)
Theorem loop_adds_one_audit_row_per_tick (cfg : Config) (envs : list Env) (s : State) :
  ∃ rows,
    system_status (store (Loop.start cfg envs s)) = system_status (store s) ++ rows
    ∧ Forall (λ r, Loop.is_audit r ∨ side_row r) rows
    ∧ (length (filter (λ r, Loop.is_audit r) rows) ≤ length envs)%nat
    ∧ (Forall (λ env, ∀ r, rejects env r = false) envs →
       length (filter (λ r, Loop.is_audit r) rows) = length envs).
Proof.
  induction envs as [|env envs (rows & Hrows & Hall & Hle & Hlen)] using rev_ind.
  { exists []. rewrite app_nil_r. split_and!; [done|done|simpl; lia|done]. }
  rewrite start_snoc.
  destruct (checkSystem_anatomy cfg env (Loop.start cfg envs s))
    as (rows' & Hrows' & Hside & _).
  set (st := final (checkSystem cfg env (Loop.start cfg envs s))) in *.
  destruct (audit_rows_audit env st) as (Haud & Hone & Hacc).
  assert (Hf : filter (λ r, Loop.is_audit r) (audit_rows env st) = audit_rows env st).
  { clear -Haud. induction Haud as [|x l Hx _ IH]; [done|].
    by rewrite filter_cons_True, IH. }
  exists (rows ++ rows' ++ audit_rows env st). split_and!.
  - by rewrite Hrows', Hrows, <- !app_assoc.
  - apply Forall_app. split; [done|]. apply Forall_app. split.
    + eapply Forall_impl; [exact Hside|]. by right.
    + eapply Forall_impl; [exact Haud|]. by left.
  - rewrite !filter_app, !length_app, (side_rows_no_audit rows' Hside), Hf.
    simpl. lia.
  - intros [Hacc' Henv]%Forall_app. rewrite Forall_singleton in Henv.
    rewrite !filter_app, !length_app, (side_rows_no_audit rows' Hside), Hf.
    rewrite (Hlen Hacc'), (Hacc Henv). simpl. lia.
Qed.
End Monitor_status.

(** ** manage-db-state.ts *)

Section Manage_props.
Import Backup Monitor.

Lemma created_before_asym (a b : Db.Row) :
  (Db.created_at b <? Db.created_at a) = true →
  (Db.created_at a <? Db.created_at b) = false.
Proof. rewrite Z.ltb_lt, Z.ltb_ge. lia. Qed.

Lemma created_before_negtrans (a b c : Db.Row) :
  (Db.created_at b <? Db.created_at a) = false →
  (Db.created_at c <? Db.created_at b) = false →
  (Db.created_at c <? Db.created_at a) = false.
Proof. rewrite !Z.ltb_ge. lia. Qed.

(** [Manage.getSystemStatus] fails exactly on the empty table; otherwise it
    returns a stored row than which none was created later. *)
Theorem getSystemStatus_latest (tbl : list Db.Row) :
  (Manage.getSystemStatus tbl = None ↔ tbl = [])
  ∧ ∀ r, Manage.getSystemStatus tbl = Some r →
         r ∈ tbl ∧ ∀ r', r' ∈ tbl → Db.created_at r' ≤ Db.created_at r.
Proof.
  unfold Manage.getSystemStatus.
  set (before := λ a b : Db.Row, Db.created_at b <? Db.created_at a).
  split.
  - split; [|by intros ->].
    intros H. destruct (sort before tbl) as [|h rest] eqn:Hs; [|done].
    apply (f_equal length) in Hs. rewrite sort_length in Hs. by destruct tbl.
  - intros r Hr. split.
    + apply (sort_elem_of before). destruct (sort before tbl); [done|].
      simpl in Hr. simplify_eq. by left.
    + intros r' Hr'.
      assert (before r' r = false) as H.
      { apply (sort_head_least before) with (l := tbl); [| |done|done].
        - intros a b. apply created_before_asym.
        - intros a b c. apply created_before_negtrans. }
      unfold before in H. apply Z.ltb_ge in H. lia.
Qed.

(** An event logged at a time later than the creation of every stored
    row is what [Manage.getSystemStatus] returns next, with the status, state
    and error given ([{}] for a missing state). *)
Theorem logged_event_is_latest (now : Z) (st : Db.system_status_type)
    (state err : option Db.jsonb) (tbl : list Db.Row) :
  (∀ r, r ∈ tbl → Db.created_at r < now) →
  ∃ r, Manage.getSystemStatus (Manage.logSystemEvent now st state err tbl) = Some r
       ∧ Db.status r = st
       ∧ Db.created_at r = now
       ∧ Db.last_known_state r = default Db.J_empty state
       ∧ Db.last_error r = err.
Proof.
  intros Hold. unfold Manage.logSystemEvent, Db.log_system_event. rewrite insert_app.
  set (r := Db.increment_error_count None _).
  assert (Hnow : Db.created_at r = now).
  { unfold r, Db.increment_error_count. by case_decide. }
  exists r. split_and!; [|apply increment_status|done
                         |apply increment_last_known_state
                         |unfold r, Db.increment_error_count; by case_decide].
  unfold Manage.getSystemStatus.
  apply sort_head_first.
  - intros a b. apply created_before_asym.
  - intros a b c. apply created_before_negtrans.
  - apply elem_of_app; right. by left.
  - intros y [Hy|Hy]%elem_of_app Hlt.
    + apply Z.ltb_ge in Hlt. pose proof (Hold y Hy). lia.
    + by apply list_elem_of_singleton in Hy.
Qed.

Lemma logged_event_is_latest_witness :
  (∀ r, r ∈ Examples.migrated → Db.created_at r < 5)
  ∧ ∃ r, Manage.getSystemStatus (Manage.logSystemEvent 5 Db.reset None None Examples.migrated) = Some r
         ∧ Db.status r = Db.reset.
Proof.
  assert (H : ∀ r, r ∈ Examples.migrated → Db.created_at r < 5).
  { intros r Hr. unfold Examples.migrated, Db.log_system_event in Hr.
    rewrite insert_app in Hr. simpl in Hr.
    apply list_elem_of_singleton in Hr as ->. reflexivity. }
  split; [exact H|].
  destruct (logged_event_is_latest 5 Db.reset None None Examples.migrated H)
    as (r & Hr & Hs & _).
  exists r. split; [exact Hr|exact Hs].
Defined.

Lemma count_tables_inr (env : Env) (ts : list string) (acc stats : gmap string N) :
  Manage.count_tables env ts acc = inr stats →
  (∀ t, t ∈ ts → count_error (select_count env t) = None)
  ∧ ∀ table, stats !! table
             = if decide (table ∈ ts)
               then Some (default 0%N (count (select_count env table)))
               else acc !! table.
Proof.
  revert acc. induction ts as [|t ts IH]; intros acc; cbn [Manage.count_tables].
  - intros [= <-]. split; [by intros t ?%elem_of_nil|].
    intros table. case_decide as H; [by apply elem_of_nil in H|done].
  - destruct (count_error (select_count env t)) eqn:Herr; [done|].
    intros H. apply IH in H as [Hall Hlook]. split.
    + intros t' [->|Hin]%elem_of_cons; [done|by apply Hall].
    + intros table. rewrite Hlook.
      destruct (decide (table ∈ ts)) as [Hin|Hout].
      * rewrite decide_True; [done|by right].
      * destruct (decide (table = t)) as [->|Hne].
        -- rewrite lookup_insert_eq, decide_True; [done|by left].
        -- rewrite lookup_insert_ne by done. rewrite decide_False; [done|].
           intros [?|?]%elem_of_cons; done.
Qed.

Lemma count_tables_inl (env : Env) (ts : list string) (acc : gmap string N) (e : Manage.Thrown) :
  Manage.count_tables env ts acc = inl e →
  ∃ t m, t ∈ ts ∧ count_error (select_count env t) = Some m ∧ e = Manage.Thrown_error m.
Proof.
  revert acc. induction ts as [|t ts IH]; intros acc; simpl; [done|].
  destruct (count_error (select_count env t)) as [m|] eqn:Herr.
  - intros [= <-]. exists t, m. split_and!; [by left|done|done].
  - intros H. apply IH in H as (t' & m & Hin & Hm & ->).
    exists t', m. split_and!; [by right|done|done].
Qed.

(** The health command and the monitor agree: when [Manage.checkDatabaseHealth]
    returns, its table statistics are the [tables] of the state of a
    monitor tick that meets the same answers; when it throws, that tick
    ends with status [error]. *)
Theorem health_agrees_with_monitor (cfg : Config) (env : Env) (s : State) :
  match Manage.checkDatabaseHealth env with
  | inr tableStats => tables (final (checkSystem cfg env s)) = tableStats
  | inl _ => status (final (checkSystem cfg env s)) = error
  end.
Proof.
  pose proof (checkSystem_anatomy cfg env s) as Han. simpl in Han.
  destruct Han as (rows & _ & _ & _ & _ & _ & Hrank & Hcaught & _ & Hv).
  unfold Manage.checkDatabaseHealth.
  destruct (version env) as [e|] eqn:Hve.
  { rewrite Hrank, decide_False; [done|].
    apply Hcaught. destruct Hv as [Hc _]; [done|]. by rewrite Hc. }
  destruct (final_warnings cfg env s Hve) as (_ & _ & _ & Ht & He & _).
  destruct (Manage.count_tables env Manage.tables ∅) as [thrown|stats] eqn:Hc.
  - apply count_tables_inl in Hc as (t & m & Hin & Hm & _).
    rewrite Hrank, decide_False; [done|].
    intros Hnil.
    pose proof (He _ (tables_loop_errors cfg env CRITICAL_TABLES
                        (initial_state env, s) t m Hin Hm)) as Hmem.
    rewrite Hnil in Hmem. by apply elem_of_nil in Hmem.
  - apply count_tables_inr in Hc as [Hall Hlook].
    apply map_eq. intros table.
    rewrite Ht, tables_loop_lookup, Hlook. simpl.
    change Manage.tables with CRITICAL_TABLES in *.
    destruct (decide (table ∈ CRITICAL_TABLES)) as [Hin|Hout].
    + rewrite decide_True; [done|]. split; [done|by apply Hall].
    + rewrite decide_False; [done|]. by intros [? _].
Qed.
End Manage_props.

(** ** run-migration.ts *)

Section Migrate_props.
Import Migrate.

Lemma split_nonempty (sep : N) (s : list N) : split sep s ≠ [].
Proof.
  destruct s as [|c s]; simpl; [done|].
  case_decide; [done|]. by destruct (split sep s).
Qed.

Lemma split_concat (sep : N) (s : list N) :
  concat (split sep s) = filter (λ c, c ≠ sep) s.
Proof.
  induction s as [|c s IH]; [done|]. cbn [split].
  destruct (decide (c = sep)) as [->|Hne].
  - rewrite filter_cons_False by (by intros ?). exact IH.
  - rewrite filter_cons_True by done. rewrite <- IH.
    pose proof (split_nonempty sep s). by destruct (split sep s).
Qed.

Lemma split_no_sep (sep : N) (s seg : list N) : seg ∈ split sep s → sep ∉ seg.
Proof.
  revert seg. induction s as [|c s IH]; intros seg; cbn [split].
  { intros ->%list_elem_of_singleton. apply not_elem_of_nil. }
  destruct (decide (c = sep)) as [->|Hne].
  - intros [->|Hin]%elem_of_cons; [apply not_elem_of_nil|by apply IH].
  - pose proof (split_nonempty sep s).
    destruct (split sep s) as [|seg' rest]; [done|].
    intros [->|Hin]%elem_of_cons.
    + intros [?|Hin]%elem_of_cons; [done|]. apply (IH seg'); [by left|done].
    + apply IH. by right.
Qed.

Lemma trimStart_suffix (l : list N) :
  ∃ pre, l = pre ++ trimStart l ∧ Forall (λ c, is_space c) pre.
Proof.
  induction l as [|c l (pre & Hl & Hpre)]; [by exists []|]. simpl.
  destruct (is_space c) eqn:Hc.
  - exists (c :: pre). split; [by rewrite Hl at 1|].
    constructor; [by rewrite Hc|done].
  - by exists [].
Qed.

Lemma trimStart_head (l : list N) (c : N) :
  head (trimStart l) = Some c → is_space c = false.
Proof.
  induction l as [|x l IH]; simpl; [done|].
  destruct (is_space x) eqn:Hx; [done|]. simpl. by intros [= <-].
Qed.

Lemma trimStart_filter (l : list N) :
  filter (λ c, ¬ is_space c) (trimStart l) = filter (λ c, ¬ is_space c) l.
Proof.
  induction l as [|x l IH]; simpl; [done|].
  destruct (is_space x) eqn:Hx; [|done].
  rewrite filter_cons_False; [done|]. rewrite Hx. by intros H; apply H.
Qed.

Lemma trim_filter (l : list N) :
  filter (λ c, ¬ is_space c) (trim l) = filter (λ c, ¬ is_space c) l.
Proof.
  unfold trim.
  by rewrite filter_reverse, trimStart_filter, filter_reverse, reverse_involutive,
    trimStart_filter.
Qed.

Lemma trimStart_elem_of (l : list N) (c : N) : c ∈ trimStart l → c ∈ l.
Proof.
  destruct (trimStart_suffix l) as (pre & Hl & _). intros H.
  rewrite Hl. by apply elem_of_app; right.
Qed.

Lemma trim_elem_of (l : list N) (c : N) : c ∈ trim l → c ∈ l.
Proof.
  unfold trim. intros H.
  pose proof (proj1 (elem_of_reverse _ _) H) as H1.
  pose proof (trimStart_elem_of _ _ H1) as H2.
  pose proof (proj1 (elem_of_reverse _ _) H2) as H3.
  exact (trimStart_elem_of _ _ H3).
Qed.

Lemma trim_last (l : list N) (c : N) : last (trim l) = Some c → is_space c = false.
Proof. unfold trim. rewrite last_reverse. apply trimStart_head. Qed.

Lemma trim_head (l : list N) (c : N) : head (trim l) = Some c → is_space c = false.
Proof.
  unfold trim. rewrite head_reverse.
  destruct (trimStart_suffix (reverse (trimStart l))) as (pre & Hl & _).
  intros Hlast.
  assert (last (reverse (trimStart l)) = Some c) as H.
  { rewrite Hl, last_app, Hlast. done. }
  rewrite last_reverse in H. by apply trimStart_head in H.
Qed.

(** Every statement sent to the database is a non-empty text without a
    semicolon that neither begins nor ends with white space. *)
Theorem statements_wellformed (sql statement : list N) :
  statement ∈ statements sql →
  statement ≠ []
  ∧ (semicolon ∉ statement)
  ∧ (∀ c, head statement = Some c → is_space c = false)
  ∧ (∀ c, last statement = Some c → is_space c = false).
Proof.
  unfold statements.
  intros [Hne (seg & -> & Hseg)%list_elem_of_fmap]%list_elem_of_filter.
  split_and!; [done| |apply trim_head|apply trim_last].
  intros Hin%trim_elem_of. by apply (split_no_sep semicolon sql seg).
Qed.

Lemma statements_wellformed_witness :
  [98%N] ∈ statements Cases.two_statements
  ∧ (semicolon ∉ [98%N]).
Proof.
  assert (H : [98%N] ∈ statements Cases.two_statements).
  { apply list_elem_of_In. vm_compute. tauto. }
  split; [exact H|].
  apply (statements_wellformed Cases.two_statements [98%N] H).
Defined.

Lemma concat_filter_nonempty {A} (ls : list (list A)) :
  concat (filter (λ l, l ≠ []) ls) = concat ls.
Proof.
  induction ls as [|l ls IH]; [done|].
  destruct l as [|x l].
  - rewrite filter_cons_False by (by intros H; apply H). exact IH.
  - rewrite filter_cons_True by done. simpl. by rewrite IH.
Qed.

Lemma concat_fmap_filter {A} (P : A → Prop) `{∀ x, Decision (P x)} (ls : list (list A)) :
  concat (filter P <$> ls) = filter P (concat ls).
Proof.
  induction ls as [|l ls IH]; [done|].
  change (filter P l ++ concat (filter P <$> ls) = filter P (l ++ concat ls)).
  by rewrite IH, filter_app.
Qed.

Lemma fmap_filter_nonempty (f : list N → list N) (ls : list (list N)) :
  f [] = [] →
  concat (f <$> filter (λ l, l ≠ []) ls) = concat (f <$> ls).
Proof.
  intros Hf. induction ls as [|l ls IH]; [done|].
  destruct l as [|x l].
  - rewrite filter_cons_False by (by intros H; apply H).
    rewrite fmap_cons, Hf. exact IH.
  - rewrite filter_cons_True by done. rewrite !fmap_cons.
    cbn [concat]. by rewrite IH.
Qed.

(** Splitting and trimming lose nothing but semicolons and white space:
    the code units of the statements that are not white space are, in
    order, those of the file that are neither white space nor a
    semicolon. *)
Theorem statements_lose_nothing (sql : list N) :
  concat (filter (λ c, ¬ is_space c) <$> statements sql)
  = filter (λ c, ¬ is_space c ∧ c ≠ semicolon) sql.
Proof.
  unfold statements.
  rewrite fmap_filter_nonempty by done.
  rewrite <- list_fmap_compose.
  rewrite (list_fmap_ext _ (filter (λ c, ¬ is_space c)) (split semicolon sql))
    by (intros i x _; apply trim_filter).
  rewrite concat_fmap_filter, split_concat.
  apply list_filter_filter.
Qed.

Lemma execute_spec (rpc : nat → list N → bool) (i : nat) (stmts : list (list N)) :
  (execute rpc i stmts).1 = stmts
  ∧ ∀ k, k ∈ (execute rpc i stmts).2
         ↔ ∃ j statement, stmts !! j = Some statement
                          ∧ rpc (i + j)%nat statement = true ∧ k = S (i + j).
Proof.
  revert i. induction stmts as [|statement rest IH]; intros i.
  { split; [done|]. intros k. split; [by intros ?%elem_of_nil|].
    by intros (j & st & Hj & _). }
  cbn [execute].
  destruct (IH (S i)) as [Hdone Herrs].
  destruct (execute rpc (S i) rest) as [done errs]. cbn [fst snd] in *.
  split; [by rewrite Hdone|].
  intros k. destruct (rpc i statement) eqn:Hrpc.
  - rewrite elem_of_cons, Herrs. split.
    + intros [->|(j & st & Hj & Hr & ->)].
      * exists 0%nat, statement. by rewrite Nat.add_0_r.
      * exists (S j), st. by replace (i + S j)%nat with (S i + j)%nat by lia.
    + intros ([|j] & st & Hj & Hr & ->).
      * left. by rewrite Nat.add_0_r.
      * right. exists j, st.
        by replace (S i + j)%nat with (i + S j)%nat by lia.
  - rewrite Herrs. split.
    + intros (j & st & Hj & Hr & ->).
      exists (S j), st. by replace (i + S j)%nat with (S i + j)%nat by lia.
    + intros ([|j] & st & Hj & Hr & ->).
      * simpl in Hj. simplify_eq. rewrite Nat.add_0_r in Hr. congruence.
      * exists j, st. by replace (S i + j)%nat with (i + S j)%nat by lia.
Qed.

(** A migration is sent whole whatever fails: every statement of the file
    goes to [execute_sql], in order, also after statements that failed;
    the numbers logged as failed are those of the calls that answered
    with an error; and the script exits with code 0 even when every
    statement failed.  A file that cannot be read makes it exit with
    code 1 before anything is sent. *)
Theorem runMigration_sends_everything (rpc : nat → list N → bool) :
  (∀ sql,
     executed (runMigration (Some sql) rpc) = statements sql
     ∧ exit_code (runMigration (Some sql) rpc) = 0
     ∧ ∀ k, k ∈ failed (runMigration (Some sql) rpc)
            ↔ ∃ j statement, statements sql !! j = Some statement
                             ∧ rpc j statement = true ∧ k = S j)
  ∧ executed (runMigration None rpc) = []
  ∧ exit_code (runMigration None rpc) = 1.
Proof.
  split; [|done]. intros sql. unfold runMigration.
  destruct (execute_spec rpc 0 (statements sql)) as [Hdone Herrs].
  destruct (execute rpc 0 (statements sql)) as [done errs]. simpl in *.
  split_and!; [done|done|]. intros k. apply Herrs.
Qed.
End Migrate_props.

(** ** The check of the database state *)

Section Check_props.
Import Backup Check.

Lemma select_first_desc_elem (column : Db.Row → option Z) (tbl : list Db.Row)
    (v : option Z) :
  Db.select_first_desc column tbl = Some v → ∃ r, r ∈ tbl ∧ column r = v.
Proof.
  unfold Db.select_first_desc.
  set (before := λ a b : Db.Row, Db.desc_before (column a) (column b)).
  destruct (sort before tbl) as [|h rest] eqn:Hs; [done|].
  intros [= <-]. exists h. split; [|done].
  apply (sort_elem_of before). rewrite Hs. by left.
Qed.

Lemma select_first_desc_max (column : Db.Row → option Z) (tbl : list Db.Row) (t : Z) :
  Db.select_first_desc column tbl = Some (Some t) →
  ∀ r t', r ∈ tbl → column r = Some t' → t' ≤ t.
Proof.
  unfold Db.select_first_desc.
  set (before := λ a b : Db.Row, Db.desc_before (column a) (column b)).
  destruct (sort before tbl) as [|h rest] eqn:Hs; [done|].
  simpl. intros [= Hcol] r t' Hr Hcr.
  assert (before r h = false) as Hleast.
  { apply (sort_head_least before) with (l := tbl); [| |by rewrite Hs|done].
    - intros a b. apply desc_before_asym.
    - intros a b c. apply desc_before_negtrans. }
  unfold before in Hleast. rewrite Hcr, Hcol in Hleast. simpl in Hleast.
  apply Z.ltb_ge in Hleast. lia.
Qed.

(** The rows after a check: those before it, and behind them the row of
    the backup when one was recorded, which has no reset time. *)
Lemma checkDatabase_rows (cfg : Config) (env : Env) (w : World) :
  let o := checkDatabase cfg env w in
  (system_status (world o) = system_status w
   ∧ ∀ r, backup o = Some r → success r = false)
  ∨ (∃ row, system_status (world o) = system_status w ++ [row]
            ∧ Db.last_reset_time row = None).
Proof.
  unfold checkDatabase. destruct (healthError env); [by left|]. cbv zeta.
  destruct (bool_decide _); [|by left].
  pose proof (backupDatabase_rows cfg (backup_run env) w) as Hrows.
  cbv zeta in Hrows.
  destruct (backupDatabase cfg (backup_run env) w) as [w' r]. cbn in *.
  destruct Hrows as [[Hf Hsame]|[_ Hmore]].
  - left. split; [done|]. by intros ? [= <-].
  - right. eexists. split; [exact Hmore|done].
Qed.

Lemma checkDatabase_warning (cfg : Config) (env : Env) (w : World) (t : Z) :
  reset_warning (checkDatabase cfg env w) = Some t →
  Db.select_first_desc Db.last_reset_time
    (system_status (world (checkDatabase cfg env w))) = Some (Some t)
  ∧ now env - t < hour.
Proof.
  unfold checkDatabase. destruct (healthError env); [done|]. cbv zeta.
  destruct (if bool_decide _ then _ else _) as [w' made]. cbn.
  destruct (Db.select_first_desc _ _) as [[t'|]|]; [|done..].
  destruct (now env - t' <? hour) eqn:Hlt; [|done].
  intros [= ->]. split; [done|]. by apply Z.ltb_lt.
Qed.

(** A check that reaches the database exits with code 0 whatever becomes
    of its backup.  It makes a backup exactly when one of the four tables
    answers with the count 0; a count that is missing does not cause one.
    Without a backup the table and the directory are as before, and with
    one they are as [backupDatabase] leaves them. *)
Theorem check_backs_up_on_empty_table (cfg : Config) (env : Env) (w : World) :
  healthError env = None →
  exit_code (checkDatabase cfg env w) = 0
  ∧ (backup (checkDatabase cfg env w) = None
     ↔ ∀ table, table ∈ tables →
                Monitor.count (select_count env table) ≠ Some 0%N)
  ∧ (backup (checkDatabase cfg env w) = None → world (checkDatabase cfg env w) = w)
  ∧ (∀ r, backup (checkDatabase cfg env w) = Some r →
          backupDatabase cfg (backup_run env) w = (world (checkDatabase cfg env w), r)).
Proof.
  intros Hh. unfold checkDatabase. rewrite Hh. cbv zeta.
  pose proof (filter_nil_iff
    (λ table, Monitor.count (select_count env table) = Some 0%N) tables) as Hnil.
  destruct (bool_decide _) eqn:Hb.
  - apply bool_decide_eq_true in Hb.
    destruct (backupDatabase cfg (backup_run env) w) as [w' r]. cbn.
    split_and!; [done| |done|by intros ? [= <-]].
    split; [done|]. intros Hall. destruct Hb. by apply Hnil.
  - apply bool_decide_eq_false in Hb. cbn.
    split_and!; [done| |done|done].
    split; [|done]. intros _. apply Hnil. by apply dec_stable.
Qed.

Lemma check_backs_up_on_empty_table_witness :
  healthError (Cases.check_env (Some 0%N) Examples.empty_run) = None
  ∧ exit_code (checkDatabase default_config
                 (Cases.check_env (Some 0%N) Examples.empty_run)
                 Examples.empty_world) = 0.
Proof.
  split; [reflexivity|].
  apply (check_backs_up_on_empty_table default_config
           (Cases.check_env (Some 0%N) Examples.empty_run) Examples.empty_world).
  reflexivity.
Defined.

(** The warning of a recent reset is given only when every stored row
    records a reset: it then names the latest reset time on record, which
    is less than an hour before the check, and no backup was recorded
    during the check. *)
Theorem reset_warning_needs_resets_only (cfg : Config) (env : Env) (w : World) (t : Z) :
  reset_warning (checkDatabase cfg env w) = Some t →
  (∀ r, r ∈ system_status w → Db.last_reset_time r ≠ None)
  ∧ (∃ r, r ∈ system_status w ∧ Db.last_reset_time r = Some t)
  ∧ (∀ r t', r ∈ system_status w → Db.last_reset_time r = Some t' → t' ≤ t)
  ∧ now env - t < hour
  ∧ (∀ r, backup (checkDatabase cfg env w) = Some r → success r = false).
Proof.
  intros [Hq Hlt]%checkDatabase_warning.
  destruct (checkDatabase_rows cfg env w) as [[Hsame Hfail]|(row & Hmore & Hnull)].
  - rewrite Hsame in Hq.
    destruct (select_first_desc_some _ _ _ Hq) as [_ Hall].
    split_and!; [done| |by apply select_first_desc_max|done|done].
    by apply select_first_desc_elem.
  - exfalso. rewrite Hmore in Hq.
    rewrite (select_first_desc_null Db.last_reset_time _ row) in Hq; [done| |done].
    apply elem_of_app. right. by left.
Qed.

Lemma reset_warning_needs_resets_only_witness :
  reset_warning (checkDatabase default_config
                   (Cases.check_env (Some 7%N) Examples.good_run)
                   Cases.reset_world) = Some 1000
  ∧ now (Cases.check_env (Some 7%N) Examples.good_run) - 1000 < hour.
Proof.
  assert (H : reset_warning (checkDatabase default_config
                (Cases.check_env (Some 7%N) Examples.good_run)
                Cases.reset_world) = Some 1000) by (vm_compute; reflexivity).
  split; [exact H|].
  apply (reset_warning_needs_resets_only default_config
           (Cases.check_env (Some 7%N) Examples.good_run) Cases.reset_world 1000 H).
Defined.

Lemma log_all_prefix (events : list Update.Event) (tbl : list Db.Row) :
  ∃ more, Update.log_all events tbl = tbl ++ more.
Proof.
  induction events as [|e events (more & IH)] using rev_ind.
  { exists []. by rewrite app_nil_r. }
  rewrite log_all_snoc, IH. unfold Db.log_system_event. rewrite insert_app.
  eexists. by rewrite <- app_assoc.
Qed.

(** On a table that the migration set up and that has since been written
    through [log_system_event] only, the check never warns of a reset,
    however recent the last one is: the row of the migration has no reset
    time, and the query puts such rows first. *)
Theorem migrated_table_never_warns (cfg : Config) (env : Env)
    (t0 : Z) (state : option Db.jsonb) (events : list Update.Event)
    (dir : gmap string Stats) :
  reset_warning
    (checkDatabase cfg env
       {| system_status :=
            Update.log_all events (Db.log_system_event t0 Db.initialized state None []);
          backups := dir |}) = None.
Proof.
  set (w := {| system_status := _; backups := dir |}).
  destruct (reset_warning (checkDatabase cfg env w)) as [t|] eqn:Hw; [|done].
  exfalso. apply checkDatabase_warning in Hw as [Hq _].
  destruct (log_all_prefix events (Db.log_system_event t0 Db.initialized state None []))
    as (more & Hpre).
  set (r0 := Db.increment_error_count None
     {| Db.status := Db.initialized; Db.last_known_state := default Db.J_empty state;
        Db.last_reset_time := None; Db.last_backup_time := None;
        Db.last_restore_time := None; Db.error_count := 0;
        Db.last_error := None; Db.created_at := t0; Db.updated_at := t0 |}).
  assert (Hr0 : r0 ∈ system_status w).
  { unfold w. cbn [system_status]. rewrite Hpre.
    apply elem_of_app. left. by apply list_elem_of_singleton. }
  assert (Hr : r0 ∈ system_status (world (checkDatabase cfg env w))).
  { destruct (checkDatabase_rows cfg env w) as [[-> _]|(row & -> & _)]; [done|].
    apply elem_of_app. by left. }
  by rewrite (select_first_desc_null Db.last_reset_time _ r0 Hr) in Hq.
Qed.

End Check_props.
